(** * Leaderboard cyclopeptide sequencing: a shallow embedding

    The notebook reconstructs a cyclic peptide from an integer mass
    spectrum.  Its functions are embedded below one by one:
    [linear_spectrum], [cyclic_spectrum], [cyclopeptide_scoring],
    [peptide_mass], [trim] and [leaderboard_peptide_sequencing].

    Python values are modelled as follows.
    - [int] is [Z].
    - a peptide ([str] of one-letter residue symbols) is a [list ascii];
      [ele + aa] appends one symbol at the end.
    - [mass_table] (a [dict] from symbol to mass) is an association list in
      insertion order; a [dict] has pairwise distinct keys, which is the
      predicate [dict_wf].  The notebook stores masses as decimal strings and
      reads them with [int(...)]; the table here holds the integer read.
    - a raised exception is the [Raise] constructor of [res]; the [while]
      loop of the sequencer is iterated with fuel, [None] meaning that the
      fuel ran out before the loop ended. *)

From Stdlib Require Import ZArith Ascii String List Lia.
From stdpp Require Import base tactics option list numbers sorting strings.

Local Open Scope Z_scope.

(** ** Exceptions and the result monad *)

Inductive exn : Type :=
  | IndexError
  | KeyError
  | ValueError.

Inductive res (A : Type) : Type :=
  | Ok (a : A)
  | Raise (e : exn).

Arguments Ok {A} a.
Arguments Raise {A} e.

Global Instance res_bind : MBind res := λ A B k m,
  match m with
  | Ok a => k a
  | Raise e => Raise e
  end.

(** [for x in l: body] threading the loop state [s]. *)
Fixpoint for_each {A S} (l : list A) (body : S → A → res S) (s : S) : res S :=
  match l with
  | [] => Ok s
  | a :: l' => s' ← body s a; for_each l' body s'
  end.

(** [range(a, b)] *)
Definition py_range (a b : nat) : list nat := seq a (b - a).

(** [l[i]], with Python's negative indices counting from the end. *)
Definition py_index {A} (l : list A) (i : Z) : res A :=
  let len := Z.of_nat (length l) in
  let k := if i <? 0 then i + len else i in
  if (0 <=? k) && (k <? len) then
    match l !! Z.to_nat k with
    | Some x => Ok x
    | None => Raise IndexError
    end
  else Raise IndexError.

(** [l.remove(x)]: drops the first occurrence, [ValueError] when absent. *)
Fixpoint list_remove {A} `{EqDecision A} (x : A) (l : list A) : res (list A) :=
  match l with
  | [] => Raise ValueError
  | y :: l' =>
      if decide (x = y) then Ok l'
      else l'' ← list_remove x l'; Ok (y :: l'')
  end.

(** [max(l)]: [ValueError] on an empty sequence. *)
Definition py_max (l : list Z) : res Z :=
  match l with
  | [] => Raise ValueError
  | x :: l' => Ok (foldl Z.max x l')
  end.

(** [sorted(l)] on integers. *)
Definition sorted (l : list Z) : list Z := merge_sort Z.le l.

(** [l.sort(reverse = True)] on integers. *)
Definition sorted_reverse (l : list Z) : list Z := merge_sort (flip Z.le) l.

(** ** Peptides and the residue table *)

Definition Peptide : Type := list ascii.
Definition mass_table : Type := list (ascii * Z).

Definition pep (s : string) : Peptide := list_ascii_of_string s.

(** [list(mass_table.keys())] *)
Definition dict_keys (mt : mass_table) : list ascii := mt.*1.

(** [mass_table[k]] *)
Fixpoint dict_get (mt : mass_table) (k : ascii) : res Z :=
  match mt with
  | [] => Raise KeyError
  | (k', v) :: mt' => if decide (k' = k) then Ok v else dict_get mt' k
  end.

(** The keys of a [dict] are pairwise distinct. *)
Definition dict_wf (mt : mass_table) : Prop := NoDup (dict_keys mt).

(** Every symbol of the peptide is a key of the table. *)
Definition covered (mt : mass_table) (p : Peptide) : Prop :=
  Forall (λ c, c ∈ dict_keys mt) p.

(** Every residue mass is a positive integer. *)
Definition positive_masses (mt : mass_table) : Prop :=
  Forall (λ kv, 0 < kv.2) mt.

(** ** Theoretical spectra *)

(** The first loop of [linear_spectrum] and [cyclic_spectrum]: the cumulative
    masses of the peptide. *)
Definition prefix_inner (peptide : Peptide) (mt : mass_table) (i : nat)
    (prefix_mass : list Z) (symbol : ascii) : res (list Z) :=
  c ← py_index peptide (Z.of_nat i);
  if decide (symbol = c) then
    pm_i ← py_index prefix_mass (Z.of_nat i);
    m ← dict_get mt symbol;
    Ok (prefix_mass ++ [pm_i + m])
  else Ok prefix_mass.

Definition prefix_masses (peptide : Peptide) (mt : mass_table) : res (list Z) :=
  let alphabet := dict_keys mt in
  for_each (py_range 0 (length peptide)) (λ prefix_mass i,
    for_each alphabet (prefix_inner peptide mt i) prefix_mass) [0].

Definition linear_spectrum (peptide : Peptide) (mt : mass_table) : res (list Z) :=
  prefix_mass ← prefix_masses peptide mt;
  let n := length peptide in
  linear_spectrum ←
    for_each (py_range 0 n) (λ spec i,
      for_each (py_range (i + 1) (n + 1)) (λ spec j,
        pj ← py_index prefix_mass (Z.of_nat j);
        pi ← py_index prefix_mass (Z.of_nat i);
        Ok (spec ++ [pj - pi])) spec) [0];
  Ok (sorted linear_spectrum).

(** [peptide_mass], also the second loop of [cyclic_spectrum]. *)
Definition peptide_mass (peptide : Peptide) (mt : mass_table) : res Z :=
  for_each peptide (λ mass ele, m ← dict_get mt ele; Ok (mass + m)) 0.

Definition cyclic_spectrum (peptide : Peptide) (mt : mass_table) : res (list Z) :=
  prefix_mass ← prefix_masses peptide mt;
  peptide_mass ← peptide_mass peptide mt;
  let n := length peptide in
  cyclic_spectrum ←
    for_each (py_range 0 n) (λ spec i,
      for_each (py_range (i + 1) (n + 1)) (λ spec j,
        pj ← py_index prefix_mass (Z.of_nat j);
        pi ← py_index prefix_mass (Z.of_nat i);
        let spec := spec ++ [pj - pi] in
        if bool_decide (0 < i)%nat && bool_decide (j < n)%nat then
          pj ← py_index prefix_mass (Z.of_nat j);
          pi ← py_index prefix_mass (Z.of_nat i);
          Ok (spec ++ [peptide_mass - (pj - pi)])
        else Ok spec) spec) [0];
  Ok (sorted cyclic_spectrum).

(** ** Scoring *)

(** The body of [for weight in spectrum_to_compare], on the score and on
    [spectrum_copy]. *)
Definition score_weight (st : Z * list Z) (weight : Z) : res (Z * list Z) :=
  let '(score, spectrum_copy) := st in
  if decide (weight ∈ spectrum_copy) then
    spectrum_copy ← list_remove weight spectrum_copy;
    Ok (score + 1, spectrum_copy)
  else Ok (score, spectrum_copy).

Definition cyclopeptide_scoring (peptide : Peptide) (spectrum : list Z)
    (cyclic : bool) (mt : mass_table) : res Z :=
  spectrum_to_compare ←
    (if cyclic then cyclic_spectrum peptide mt
     else linear_spectrum peptide mt);
  '(score, _) ← for_each spectrum_to_compare score_weight (0, spectrum);
  Ok score.

(** ** Trimming the leaderboard *)

(** [dict.fromkeys(l)]: every element of [l] once, in the order of its first
    occurrence. *)
Definition dict_fromkeys (l : list Peptide) : list Peptide :=
  foldl (λ d k, if decide (k ∈ d) then d else d ++ [k]) [] l.

(** [linear_scores] is built by [dict.fromkeys] and then every value is
    overwritten, in key order, by the linear score of its key; the dict is
    modelled after that loop, as the list of its items. *)
Definition trim (leader_board : list Peptide) (spectrum : list Z) (n : Z)
    (mt : mass_table) : res (list Peptide) :=
  if Z.of_nat (length leader_board) <? n then Ok leader_board
  else
    linear_scores ←
      for_each (dict_fromkeys leader_board) (λ items key,
        score ← cyclopeptide_scoring key spectrum false mt;
        Ok (items ++ [(key, score)])) [];
    let scores := sorted_reverse (linear_scores.*2) in
    minimum_score ← py_index scores (n - 1);
    for_each linear_scores (λ final_leader_board '(key, value),
      if bool_decide (minimum_score ≤ value) then Ok (final_leader_board ++ [key])
      else Ok final_leader_board) [].

(** ** The sequencer *)

Record search_state : Type := SearchState {
  leader_board : list Peptide;
  leader_peptide : Peptide;
  leader_peptide_score : Z
}.

(** [[ele + aa for aa in amino_acids for ele in leader_board]] *)
Definition expand (amino_acids : list ascii) (leader_board : list Peptide)
    : list Peptide :=
  concat (map (λ aa, map (λ ele, ele ++ [aa]) leader_board) amino_acids).

(** The body of [for peptide in leader_board], on the leader, its score and
    [peptides_to_remove]. *)
Definition scan_candidate (spectrum : list Z) (mt : mass_table)
    (st : Peptide * Z * list Peptide) (peptide : Peptide)
    : res (Peptide * Z * list Peptide) :=
  let '(leader_peptide, leader_peptide_score, peptides_to_remove) := st in
  mass ← peptide_mass peptide mt;
  mx ← py_max spectrum;
  if bool_decide (mass = mx) then
    score ← cyclopeptide_scoring peptide spectrum true mt;
    if bool_decide (leader_peptide_score < score) then
      Ok (peptide, score, peptides_to_remove)
    else Ok (leader_peptide, leader_peptide_score, peptides_to_remove)
  else
    mx ← py_max spectrum;
    if bool_decide (mx < mass) then
      Ok (leader_peptide, leader_peptide_score, peptides_to_remove ++ [peptide])
    else Ok (leader_peptide, leader_peptide_score, peptides_to_remove).

(** The second [for] loop of a round: every peptide marked for removal is
    removed from the board. *)
Definition remove_candidates (peptides_to_remove leader_board : list Peptide)
    : res (list Peptide) :=
  for_each (py_range 0 (length peptides_to_remove)) (λ leader_board i,
    x ← py_index peptides_to_remove (Z.of_nat i);
    list_remove x leader_board) leader_board.

(** The two [for] loops of a round: candidates of the target mass are scored
    against the leader, heavier ones are removed from the board. *)
Definition mass_filter (spectrum : list Z) (mt : mass_table)
    (leader : Peptide) (score : Z) (board : list Peptide)
    : res (Peptide * Z * list Peptide) :=
  '(leader, score, peptides_to_remove) ←
    for_each board (scan_candidate spectrum mt) (leader, score, []);
  board ← remove_candidates peptides_to_remove board;
  Ok (leader, score, board).

(** One pass through the body of [while leader_board]; the flag is [false]
    when the body ends in [break]. *)
Definition loop_body (spectrum : list Z) (n : Z) (mt : mass_table)
    (st : search_state) : res (search_state * bool) :=
  let amino_acids := dict_keys mt in
  let board := expand amino_acids (leader_board st) in
  '(leader, score, board) ←
    mass_filter spectrum mt (leader_peptide st) (leader_peptide_score st) board;
  if bool_decide (0 < length board)%nat then
    board ← trim board spectrum n mt;
    Ok (SearchState board leader score, true)
  else Ok (SearchState board leader score, false).

Fixpoint sequencing_loop (fuel : nat) (spectrum : list Z) (n : Z)
    (mt : mass_table) (st : search_state) : option (res search_state) :=
  match fuel with
  | O => None
  | S fuel' =>
      match leader_board st with
      | [] => Some (Ok st)
      | _ :: _ =>
          match loop_body spectrum n mt st with
          | Raise e => Some (Raise e)
          | Ok (st', true) => sequencing_loop fuel' spectrum n mt st'
          | Ok (st', false) => Some (Ok st')
          end
      end
  end.

Definition initial_state : search_state :=
  {| leader_board := [[]]; leader_peptide := []; leader_peptide_score := 0 |}.

Definition leaderboard_peptide_sequencing (fuel : nat) (spectrum : list Z)
    (n : Z) (mt : mass_table) : option (res Peptide) :=
  match sequencing_loop fuel spectrum n mt initial_state with
  | Some (Ok st) => Some (Ok (leader_peptide st))
  | Some (Raise e) => Some (Raise e)
  | None => None
  end.

(** ** Auxiliary notions used in the statements *)

(** [l.count(x)] *)
Definition py_count (x : Z) (l : list Z) : nat := count_occ Z.eq_dec l x.

(** The mass the table gives to a symbol (0 for a symbol it lacks). *)
(** ** The consistency check *)

(** [for mass in lin_spectrum], returning [False] at the first mass that
    occurs more often in [lin_spectrum] than in [spectrum]. *)
Fixpoint consistent_loop (lin_spectrum spectrum rest : list Z) : bool :=
  match rest with
  | [] => true
  | mass :: rest' =>
      if (py_count mass spectrum <? py_count mass lin_spectrum)%nat then false
      else consistent_loop lin_spectrum spectrum rest'
  end.

Definition consistent_spectrum (peptide : Peptide) (spectrum : list Z)
    (mt : mass_table) : res bool :=
  lin_spectrum ← linear_spectrum peptide mt;
  Ok (consistent_loop lin_spectrum spectrum lin_spectrum).

(** Size of the multiset intersection of two spectra: the sum, over the mass
    values that occur, of the smaller of the two multiplicities. *)
Definition multiset_intersection_size (theoretical target : list Z) : Z :=
  Z.of_nat
    (sum_list_with (λ v, Nat.min (py_count v theoretical) (py_count v target))
       (remove_dups (theoretical ++ target))).

(** What holds of the board at the head of the loop after [k] rounds: its
    peptides are pairwise distinct, of length [k], over the table's symbols. *)
Definition board_inv (mt : mass_table) (k : nat) (lb : list Peptide) : Prop :=
  NoDup lb ∧ Forall (λ p, covered mt p ∧ length p = k) lb.

(** [q] has the mass of the heaviest peak of [spectrum] and cyclic score [s]:
    the candidates the sequencer compares with its leader. *)
Definition full_mass_score (spectrum : list Z) (mt : mass_table)
    (q : Peptide) (s : Z) : Prop :=
  ∃ mx, py_max spectrum = Ok mx ∧ peptide_mass q mt = Ok mx ∧
        cyclopeptide_scoring q spectrum true mt = Ok s.

(** How a scan of the candidates [cs], in order, turns the leader [(lp, ls)]
    into [(lp', ls')]: either no candidate of the target mass beats [ls] and
    the leader stays, or [lp'] is the first of the best-scoring candidates of
    the target mass, and beats [ls]. *)
Definition first_best (spectrum : list Z) (mt : mass_table)
    (cs : list Peptide) (lp : Peptide) (ls : Z) (lp' : Peptide) (ls' : Z)
    : Prop :=
  (lp' = lp ∧ ls' = ls ∧
   ∀ q s, q ∈ cs → full_mass_score spectrum mt q s → s ≤ ls) ∨
  (∃ pre post,
     cs = pre ++ lp' :: post ∧
     full_mass_score spectrum mt lp' ls' ∧ ls < ls' ∧
     (∀ q s, q ∈ pre → full_mass_score spectrum mt q s → s < ls') ∧
     (∀ q s, q ∈ post → full_mass_score spectrum mt q s → s ≤ ls')).

(** The states at the head of the [while] loop, by number of rounds run. *)
Inductive round_state (spectrum : list Z) (n : Z) (mt : mass_table)
    : nat → search_state → Prop :=
  | round_first : round_state spectrum n mt 0 initial_state
  | round_next k st st' :
      round_state spectrum n mt k st →
      loop_body spectrum n mt st = Ok (st', true) →
      round_state spectrum n mt (S k) st'.

(** The score of a peptide as a total function (0 where scoring raises). *)
Definition score_of (spectrum : list Z) (mt : mass_table) (cyclic : bool)
    (p : Peptide) : Z :=
  match cyclopeptide_scoring p spectrum cyclic mt with
  | Ok s => s
  | Raise _ => 0
  end.

Definition mass_of (mt : mass_table) (c : ascii) : Z :=
  match dict_get mt c with
  | Ok v => v
  | Raise _ => 0
  end.

Definition total (l : list Z) : Z := foldr Z.add 0 l.

(** Cumulative mass of the first [k] residues. *)
Definition prefix_sum (mt : mass_table) (p : Peptide) (k : nat) : Z :=
  total (mass_of mt <$> take k p).

Definition total_mass (mt : mass_table) (p : Peptide) : Z :=
  total (mass_of mt <$> p).

(** The masses [linear_spectrum] collects before sorting, written over the
    cumulative masses [P 0 .. P n]. *)
Definition linear_fragments (P : nat → Z) (n i : nat) : list Z :=
  (λ j, P j - P i) <$> py_range (i + 1) (n + 1).

Definition linear_masses (P : nat → Z) (n : nat) : list Z :=
  0 :: concat (linear_fragments P n <$> py_range 0 n).

(** The same for [cyclic_spectrum], [T] being the mass of the peptide. *)
Definition cyclic_pair (P : nat → Z) (T : Z) (n i j : nat) : list Z :=
  (P j - P i) ::
  (if bool_decide (0 < i)%nat && bool_decide (j < n)%nat
   then [T - (P j - P i)] else []).

Definition cyclic_fragments (P : nat → Z) (T : Z) (n i : nat) : list Z :=
  concat (cyclic_pair P T n i <$> py_range (i + 1) (n + 1)).

Definition cyclic_masses (P : nat → Z) (T : Z) (n : nat) : list Z :=
  0 :: concat (cyclic_fragments P T n <$> py_range 0 n).

(** What holds at the head of the loop after [k] rounds when [trim] never
    had to drop a candidate: the board holds every peptide of length [k] over
    the table's symbols that is not heavier than [mx], and the leader's score
    bounds the score of every full-mass peptide of length 1 to [k]. *)
Definition exhaustive_inv (spectrum : list Z) (mt : mass_table) (mx : Z)
    (k : nat) (st : search_state) : Prop :=
  board_inv mt k (leader_board st) ∧
  (length (leader_board st) ≤ length mt ^ k)%nat ∧
  (∀ q, covered mt q → length q = k →
        k = 0%nat ∨ total_mass mt q ≤ mx → q ∈ leader_board st) ∧
  (∀ q s, full_mass_score spectrum mt q s → (1 ≤ length q ≤ k)%nat →
          s ≤ leader_peptide_score st).

(** ** Sub-peptides

    The notebook computes every fragment mass as a difference of prefix
    masses.  The definitions below are not part of it: they name the pieces
    of a peptide directly, so that the spectra can be compared with the
    masses of those pieces. *)

(** [p[i:j]] *)
Definition subpeptide (p : Peptide) (i j : nat) : Peptide :=
  take (j - i) (drop i p).

(** The [l] residues of the cyclic peptide [p] from position [s] on, going
    round its end. *)
Definition cyclic_subpeptide (p : Peptide) (s l : nat) : Peptide :=
  take l (drop s (p ++ p)).

(** 0 and the mass of every non-empty contiguous sub-peptide. *)
Definition subpeptide_masses (mt : mass_table) (p : Peptide) : list Z :=
  0 :: concat ((λ i, (λ j, total_mass mt (subpeptide p i j))
                       <$> py_range (i + 1) (length p + 1))
                 <$> py_range 0 (length p)).

(** 0, the mass of the whole peptide, and the mass of every cyclic
    sub-peptide of 1 to [len(p) - 1] residues, from every start. *)
Definition cyclic_subpeptide_masses (mt : mass_table) (p : Peptide) : list Z :=
  0 :: total_mass mt p ::
  concat ((λ s, (λ l, total_mass mt (cyclic_subpeptide p s l))
                  <$> py_range 1 (length p))
            <$> py_range 0 (length p)).

(** Sum of the first [k] entries. *)
Definition prefix_total (ms : list Z) (k : nat) : Z := total (take k ms).

(** Sum of [l] entries of [ms] from position [s] on, going round its end. *)
Definition window (ms : list Z) (s l : nat) : Z :=
  total (take l (drop s (ms ++ ms))).

(** ** Example inputs *)

(** The table and peptide of the worked example. *)
Definition table_AC : mass_table := [("A"%char, 71); ("C"%char, 103)].
Definition peptide_ACA : Peptide := pep "ACA".

(** A small run: table [{A: 1, B: 3}], spectrum [[0, 1, 1, 2, 4]], [n = 1]. *)
Definition table_AB : mass_table := [("A"%char, 1); ("B"%char, 3)].
Definition spectrum_AB : list Z := [0; 1; 1; 2; 4].
Definition round1_AB : search_state := SearchState [pep "A"] [] 0.
Definition round2_AB : search_state := SearchState [pep "AA"] (pep "AB") 3.

(** * Properties *)

(** ** Loops and indexing *)

Lemma bind_Ok {A B} (a : A) (k : A → res B) : (Ok a ≫= k) = k a.
Proof. reflexivity. Qed.

Lemma for_each_app {A S} (l1 l2 : list A) (body : S → A → res S) (s : S) :
  for_each (l1 ++ l2) body s = (for_each l1 body s ≫= for_each l2 body).
Proof.
  revert s. induction l1 as [|a l1 IH]; intros s; simpl; [done|].
  destruct (body s a) as [s'|e]; simpl; [apply IH|done].
Qed.

(** A loop whose body only appends to its accumulator. *)
Lemma for_each_append {A B} (l : list A) (body : list B → A → res (list B))
    (f : A → list B) :
  (∀ s a, a ∈ l → body s a = Ok (s ++ f a)) →
  ∀ s, for_each l body s = Ok (s ++ concat (f <$> l)).
Proof.
  induction l as [|a l IH]; intros Hbody s; simpl.
  - by rewrite app_nil_r.
  - rewrite Hbody by left. simpl. rewrite IH.
    + by rewrite <- app_assoc.
    + intros s' a' Ha'. apply Hbody. by right.
Qed.

Lemma py_index_nat {A} (l : list A) (i : nat) :
  py_index l (Z.of_nat i) =
  match l !! i with Some x => Ok x | None => Raise IndexError end.
Proof.
  unfold py_index.
  destruct (Z.ltb_spec (Z.of_nat i) 0) as [?|_]; [lia|].
  destruct (Z.leb_spec 0 (Z.of_nat i)) as [_|?]; [|lia].
  rewrite Nat2Z.id. simpl.
  destruct (Z.ltb_spec (Z.of_nat i) (Z.of_nat (length l))) as [?|Hge]; [done|].
  rewrite lookup_ge_None_2; [done|lia].
Qed.

Lemma py_index_lookup {A} (l : list A) (i : nat) (x : A) :
  l !! i = Some x → py_index l (Z.of_nat i) = Ok x.
Proof. intros H. by rewrite py_index_nat, H. Qed.

(** ** The residue table *)

Lemma dict_get_covered (mt : mass_table) (c : ascii) :
  c ∈ dict_keys mt → dict_get mt c = Ok (mass_of mt c).
Proof.
  unfold mass_of. induction mt as [|[k v] mt IH]; simpl.
  - by intros ?%elem_of_nil.
  - intros [->|Hin]%elem_of_cons.
    + by rewrite decide_True.
    + destruct (decide (k = c)); [done|]. by apply IH.
Qed.

Lemma mass_of_positive (mt : mass_table) (c : ascii) :
  positive_masses mt → c ∈ dict_keys mt → 0 < mass_of mt c.
Proof.
  unfold mass_of, positive_masses. induction mt as [|[k v] mt IH]; simpl.
  - by intros _ ?%elem_of_nil.
  - intros [Hv Hmt]%Forall_cons [->|Hin]%elem_of_cons.
    + by rewrite decide_True.
    + destruct (decide (k = c)); [done|]. by apply IH.
Qed.

Lemma total_nil : total [] = 0.
Proof. reflexivity. Qed.

Lemma total_cons (x : Z) (l : list Z) : total (x :: l) = x + total l.
Proof. reflexivity. Qed.

Lemma total_app (l1 l2 : list Z) : total (l1 ++ l2) = total l1 + total l2.
Proof. unfold total. induction l1; simpl; lia. Qed.

Lemma prefix_sum_0 (mt : mass_table) (p : Peptide) : prefix_sum mt p 0 = 0.
Proof. reflexivity. Qed.

Lemma prefix_sum_S (mt : mass_table) (p : Peptide) (k : nat) (c : ascii) :
  p !! k = Some c → prefix_sum mt p (S k) = prefix_sum mt p k + mass_of mt c.
Proof.
  intros H. unfold prefix_sum. rewrite (take_S_r _ _ _ H), fmap_app, total_app.
  simpl. lia.
Qed.

Lemma prefix_sum_length (mt : mass_table) (p : Peptide) :
  prefix_sum mt p (length p) = total_mass mt p.
Proof. unfold prefix_sum, total_mass. by rewrite firstn_all. Qed.

Lemma peptide_mass_covered (mt : mass_table) (p : Peptide) :
  covered mt p → peptide_mass p mt = Ok (total_mass mt p).
Proof.
  unfold peptide_mass, total_mass, covered.
  assert (∀ acc, Forall (λ c, c ∈ dict_keys mt) p →
    for_each p (λ mass ele, m ← dict_get mt ele; Ok (mass + m)) acc
    = Ok (acc + total (mass_of mt <$> p))) as H.
  { induction p as [|c p IH]; intros acc Hc; cbn [for_each].
    - f_equal. rewrite fmap_nil, total_nil. lia.
    - apply Forall_cons in Hc as [Hc Hp].
      rewrite (dict_get_covered _ _ Hc), bind_Ok, bind_Ok, (IH _ Hp).
      f_equal. rewrite fmap_cons, total_cons. lia. }
  intros Hc. by rewrite H.
Qed.

(** ** The cumulative masses *)

Section prefix_masses.
Variable mt : mass_table.
Variable p : Peptide.
Hypothesis Hwf : dict_wf mt.
Hypothesis Hcov : covered mt p.

Lemma prefix_inner_unfold (i : nat) (c k : ascii) (pm : list Z) :
  p !! i = Some c →
  prefix_inner p mt i pm k =
  if decide (k = c) then
    pm_i ← py_index pm (Z.of_nat i);
    m ← dict_get mt k;
    Ok (pm ++ [pm_i + m])
  else Ok pm.
Proof.
  intros Hi. unfold prefix_inner. by rewrite (py_index_lookup _ _ _ Hi).
Qed.

Lemma prefix_inner_absent (i : nat) (c : ascii) (ks : list ascii) (pm : list Z) :
  p !! i = Some c → c ∉ ks → for_each ks (prefix_inner p mt i) pm = Ok pm.
Proof.
  intros Hi. revert pm. induction ks as [|k ks IH]; intros pm Hc; [done|].
  apply not_elem_of_cons in Hc as [Hne Hc].
  cbn [for_each]. rewrite (prefix_inner_unfold i c) by done.
  rewrite decide_False by congruence. rewrite bind_Ok. by apply IH.
Qed.

Lemma prefix_inner_present (i : nat) (c : ascii) (ks : list ascii)
    (pm : list Z) (v : Z) :
  p !! i = Some c → pm !! i = Some v → NoDup ks → c ∈ ks →
  c ∈ dict_keys mt →
  for_each ks (prefix_inner p mt i) pm = Ok (pm ++ [v + mass_of mt c]).
Proof.
  intros Hi Hv Hnd Hc Hkey. revert pm Hv.
  induction ks as [|k ks IH]; intros pm Hv; [by apply elem_of_nil in Hc|].
  apply NoDup_cons in Hnd as [Hk Hnd].
  cbn [for_each]. rewrite (prefix_inner_unfold i c) by done.
  destruct (decide (k = c)) as [->|Hne].
  - rewrite (py_index_lookup _ _ _ Hv), bind_Ok.
    rewrite (dict_get_covered _ _ Hkey), !bind_Ok.
    by apply (prefix_inner_absent i c).
  - rewrite bind_Ok. apply IH; [done| |done].
    apply elem_of_cons in Hc as [?|?]; [congruence|done].
Qed.

Lemma prefix_masses_prefix (k : nat) :
  (k ≤ length p)%nat →
  for_each (seq 0 k) (λ pm i, for_each (dict_keys mt) (prefix_inner p mt i) pm) [0]
  = Ok (prefix_sum mt p <$> seq 0 (S k)).
Proof.
  induction k as [|k IH]; intros Hk; [done|].
  rewrite seq_S, for_each_app, IH by lia. rewrite bind_Ok.
  cbn [for_each Nat.add].
  destruct (lookup_lt_is_Some_2 p k) as [c Hc]; [lia|].
  assert (c ∈ dict_keys mt) as Hkey.
  { unfold covered in Hcov. rewrite Forall_forall in Hcov.
    apply Hcov. by eapply list_elem_of_lookup_2. }
  rewrite (prefix_inner_present k c _ _ (prefix_sum mt p k)); try done.
  - rewrite bind_Ok. f_equal.
    rewrite (seq_S (S k)), fmap_app. cbn [Nat.add fmap list_fmap].
    by rewrite (prefix_sum_S _ _ _ _ Hc).
  - rewrite list_lookup_fmap, lookup_seq_lt by lia. done.
Qed.

Lemma prefix_masses_covered :
  prefix_masses p mt = Ok (prefix_sum mt p <$> seq 0 (S (length p))).
Proof.
  unfold prefix_masses, py_range. rewrite Nat.sub_0_r.
  by apply prefix_masses_prefix.
Qed.

Lemma prefix_lookup (j : nat) :
  (j ≤ length p)%nat →
  py_index (prefix_sum mt p <$> seq 0 (S (length p))) (Z.of_nat j)
  = Ok (prefix_sum mt p j).
Proof.
  intros Hj. apply py_index_lookup.
  rewrite list_lookup_fmap, lookup_seq_lt by lia. done.
Qed.
End prefix_masses.

(** ** The spectra before sorting *)

Lemma concat_singletons {A B} (g : A → B) (l : list A) :
  concat ((λ a, [g a]) <$> l) = g <$> l.
Proof.
  induction l as [|a l IH]; [done|].
  rewrite !fmap_cons. cbn [concat app]. by rewrite IH.
Qed.

Lemma elem_of_py_range (a b i : nat) :
  i ∈ py_range a b ↔ (a ≤ i < b)%nat.
Proof. unfold py_range. rewrite elem_of_seq. lia. Qed.

Lemma linear_spectrum_covered (mt : mass_table) (p : Peptide) :
  dict_wf mt → covered mt p →
  linear_spectrum p mt
  = Ok (sorted (linear_masses (prefix_sum mt p) (length p))).
Proof.
  intros Hwf Hcov. unfold linear_spectrum.
  rewrite prefix_masses_covered, bind_Ok by done.
  rewrite (for_each_append _ _ (linear_fragments (prefix_sum mt p) (length p))).
  { by rewrite bind_Ok. }
  intros s i [_ Hi]%elem_of_py_range.
  rewrite (for_each_append _ _ (λ j, [prefix_sum mt p j - prefix_sum mt p i])).
  { by rewrite concat_singletons. }
  intros s' j [_ Hj]%elem_of_py_range.
  by rewrite !prefix_lookup, !bind_Ok by lia.
Qed.

Lemma cyclic_spectrum_covered (mt : mass_table) (p : Peptide) :
  dict_wf mt → covered mt p →
  cyclic_spectrum p mt
  = Ok (sorted (cyclic_masses (prefix_sum mt p) (total_mass mt p) (length p))).
Proof.
  intros Hwf Hcov. unfold cyclic_spectrum.
  rewrite prefix_masses_covered, bind_Ok by done.
  rewrite peptide_mass_covered, bind_Ok by done.
  rewrite (for_each_append _ _
    (cyclic_fragments (prefix_sum mt p) (total_mass mt p) (length p))).
  { by rewrite bind_Ok. }
  intros s i [_ Hi]%elem_of_py_range.
  rewrite (for_each_append _ _
    (cyclic_pair (prefix_sum mt p) (total_mass mt p) (length p) i)); [done|].
  intros s' j [_ Hj]%elem_of_py_range.
  rewrite !prefix_lookup, !bind_Ok by lia. unfold cyclic_pair.
  destruct (bool_decide (0 < i)%nat && bool_decide (j < length p)%nat).
  - by rewrite <- app_assoc.
  - done.
Qed.

(** ** Sorting *)

Lemma sorted_Permutation (l : list Z) : sorted l ≡ₚ l.
Proof. apply merge_sort_Permutation. Qed.

Lemma sorted_StronglySorted (l : list Z) : StronglySorted Z.le (sorted l).
Proof. apply StronglySorted_merge_sort; apply _. Qed.

Lemma sorted_length (l : list Z) : length (sorted l) = length l.
Proof. by rewrite sorted_Permutation. Qed.

Lemma sorted_count (x : Z) (l : list Z) : py_count x (sorted l) = py_count x l.
Proof.
  unfold py_count. revert x. apply Permutation_count_occ, sorted_Permutation.
Qed.

Lemma sorted_reverse_Permutation (l : list Z) : sorted_reverse l ≡ₚ l.
Proof. apply merge_sort_Permutation. Qed.

#[local] Instance flip_le_total : Total (flip Z.le).
Proof. intros x y. unfold flip. lia. Qed.

#[local] Instance flip_le_trans : Transitive (flip Z.le).
Proof. intros x y z. unfold flip. lia. Qed.

Lemma sorted_reverse_StronglySorted (l : list Z) :
  StronglySorted (flip Z.le) (sorted_reverse l).
Proof. apply StronglySorted_merge_sort; apply _. Qed.

(** The head of an ascending list is its least element, the last one its
    greatest. *)
Lemma sorted_head (l : list Z) (x : Z) :
  StronglySorted Z.le l → x ∈ l → (∀ y, y ∈ l → x ≤ y) → head l = Some x.
Proof.
  intros Hs Hx Hmin. destruct l as [|a l]; [by apply elem_of_nil in Hx|].
  simpl. f_equal. apply StronglySorted_cons in Hs as [Ha _].
  rewrite Forall_forall in Ha.
  assert (x ≤ a) by (apply Hmin; left).
  apply elem_of_cons in Hx as [->|Hx]; [done|]. specialize (Ha _ Hx). lia.
Qed.

Lemma sorted_last (l : list Z) (x : Z) :
  StronglySorted Z.le l → x ∈ l → (∀ y, y ∈ l → y ≤ x) → last l = Some x.
Proof.
  intros Hs Hx Hmax. destruct l as [|a l _] using rev_ind;
    [by apply elem_of_nil in Hx|].
  rewrite last_snoc. f_equal.
  apply StronglySorted_app in Hs as (Hle & _ & _).
  assert (a ≤ x) by (apply Hmax, elem_of_app; right; left).
  apply elem_of_app in Hx as [Hx|Hx%list_elem_of_singleton]; [|done].
  specialize (Hle x a Hx ltac:(left)). lia.
Qed.

(** ** Size and content of the collected masses *)

Lemma Forall_concat_fmap {A B} (Q : B → Prop) (f : A → list B) (l : list A) :
  (∀ a, a ∈ l → Forall Q (f a)) → Forall Q (concat (f <$> l)).
Proof.
  induction l as [|a l IH]; intros H; [constructor|].
  rewrite fmap_cons. cbn [concat]. apply Forall_app. split.
  - apply H. left.
  - apply IH. intros a' Ha'. apply H. by right.
Qed.

Lemma length_concat_fmap_const {A B} (c : nat) (f : A → list B) (l : list A) :
  (∀ a, a ∈ l → length (f a) = c) →
  length (concat (f <$> l)) = (c * length l)%nat.
Proof.
  induction l as [|a l IH]; intros H; [simpl; lia|].
  rewrite fmap_cons. cbn [concat length]. rewrite length_app, IH, H.
  - lia.
  - left.
  - intros a' Ha'. apply H. by right.
Qed.

(** 2 * (k + (k-1) + ... + 1) = k (k + 1) *)
Lemma length_concat_triangle {B} (F : nat → list B) (k m : nat) :
  (∀ i, (m ≤ i < m + k)%nat → length (F i) = (m + k - i)%nat) →
  (2 * length (concat (F <$> seq m k)) = k * (k + 1))%nat.
Proof.
  revert m. induction k as [|k IH]; intros m H; [done|].
  cbn [seq]. rewrite fmap_cons. cbn [concat]. rewrite length_app.
  rewrite (H m) by lia.
  specialize (IH (S m)). rewrite Nat.mul_add_distr_l, IH; [lia|].
  intros i Hi. rewrite H by lia. lia.
Qed.

(** (2k - 1) + (2k - 3) + ... + 1 = k * k *)
Lemma length_concat_odds {B} (F : nat → list B) (k m : nat) :
  (∀ i, (m ≤ i < m + k)%nat → length (F i) = (2 * (m + k - i) - 1)%nat) →
  length (concat (F <$> seq m k)) = (k * k)%nat.
Proof.
  revert m. induction k as [|k IH]; intros m H; [done|].
  cbn [seq]. rewrite fmap_cons. cbn [concat]. rewrite length_app.
  rewrite (H m) by lia.
  rewrite (IH (S m)); [lia|].
  intros i Hi. rewrite H by lia. f_equal. lia.
Qed.

Lemma py_count_app (x : Z) (l1 l2 : list Z) :
  py_count x (l1 ++ l2) = (py_count x l1 + py_count x l2)%nat.
Proof. apply count_occ_app. Qed.

Lemma py_count_absent (x : Z) (l : list Z) :
  Forall (λ y, y ≠ x) l → py_count x l = 0%nat.
Proof.
  unfold py_count. induction 1 as [|y l Hy _ IH]; [done|].
  by rewrite count_occ_cons_neq.
Qed.

Lemma linear_fragments_length (P : nat → Z) (n i : nat) :
  length (linear_fragments P n i) = (n - i)%nat.
Proof.
  unfold linear_fragments, py_range. rewrite length_fmap, length_seq. lia.
Qed.

Lemma linear_masses_length (P : nat → Z) (n : nat) :
  length (linear_masses P n) = (n * (n + 1) / 2 + 1)%nat.
Proof.
  unfold linear_masses, py_range. cbn [length]. rewrite Nat.sub_0_r.
  pose proof (length_concat_triangle (linear_fragments P n) n 0) as H.
  rewrite Nat.add_1_r. f_equal.
  apply (Nat.div_unique _ 2 _ 0); [lia|].
  rewrite Nat.add_0_r. symmetry. apply H.
  intros i _. rewrite linear_fragments_length. lia.
Qed.

Lemma cyclic_fragments_length (P : nat → Z) (T : Z) (n i : nat) :
  (i < n)%nat →
  length (cyclic_fragments P T n i)
  = if decide (i = 0%nat) then n else (2 * (n - i) - 1)%nat.
Proof.
  intros Hi. unfold cyclic_fragments, py_range.
  replace (n + 1 - (i + 1))%nat with (S (n - i - 1)) by lia.
  rewrite seq_S. replace (i + 1 + (n - i - 1))%nat with n by lia.
  rewrite fmap_app, concat_app, length_app.
  destruct (decide (i = 0%nat)) as [->|Hne].
  - rewrite (length_concat_fmap_const 1).
    + rewrite length_seq. simpl. lia.
    + intros j _. unfold cyclic_pair. by rewrite bool_decide_false by lia.
  - rewrite (length_concat_fmap_const 2).
    + rewrite length_seq. cbn [fmap list_fmap]. unfold cyclic_pair.
      rewrite (bool_decide_false (n < n)%nat) by lia.
      rewrite andb_false_r. simpl. lia.
    + intros j [_ Hj]%elem_of_seq. unfold cyclic_pair.
      by rewrite !bool_decide_true by lia.
Qed.

Lemma cyclic_masses_length (P : nat → Z) (T : Z) (n : nat) :
  (1 ≤ n)%nat → length (cyclic_masses P T n) = (n * (n - 1) + 2)%nat.
Proof.
  intros Hn. unfold cyclic_masses, py_range. rewrite Nat.sub_0_r.
  destruct n as [|n]; [lia|].
  cbn [seq length]. rewrite fmap_cons. cbn [concat].
  rewrite length_app, cyclic_fragments_length by lia.
  rewrite decide_True by done.
  rewrite (length_concat_odds _ n 1); [lia|].
  intros i Hi. rewrite cyclic_fragments_length by lia.
  rewrite decide_False by lia. lia.
Qed.

Lemma elem_of_concat_fmap {A B} (f : A → list B) (l : list A) (a : A) (x : B) :
  a ∈ l → x ∈ f a → x ∈ concat (f <$> l).
Proof.
  induction l as [|a' l IH]; intros Ha Hx; [by apply elem_of_nil in Ha|].
  rewrite fmap_cons. cbn [concat]. apply elem_of_app.
  apply elem_of_cons in Ha as [->|Ha]; [by left|right; by apply IH].
Qed.

Lemma seq_head (m k : nat) : (1 ≤ k)%nat → seq m k = m :: seq (S m) (k - 1).
Proof. destruct k; [lia|]. intros _. simpl. by rewrite Nat.sub_0_r. Qed.

Lemma seq_last (m k : nat) :
  (1 ≤ k)%nat → seq m k = seq m (k - 1) ++ [(m + k - 1)%nat].
Proof.
  destruct k; [lia|]. intros _. rewrite seq_S. simpl. rewrite Nat.sub_0_r.
  do 2 f_equal. lia.
Qed.

(** Facts that only need the cumulative masses [P 0 < P 1 < ... < P n]. *)
Section increasing_prefix.
Variable P : nat → Z.
Variable T : Z.
Variable n : nat.
Hypothesis HP0 : P 0%nat = 0.
Hypothesis HPn : P n = T.
Hypothesis Hincr : ∀ i j, (i < j ≤ n)%nat → P i < P j.

Lemma prefix_le (i j : nat) : (i ≤ j ≤ n)%nat → P i ≤ P j.
Proof.
  intros Hij. destruct (decide (i = j)) as [->|Hne]; [lia|].
  apply Z.lt_le_incl, Hincr. lia.
Qed.

Lemma linear_masses_bounds : Forall (λ x, 0 ≤ x ≤ T) (linear_masses P n).
Proof.
  unfold linear_masses. constructor.
  { pose proof (prefix_le 0 n). lia. }
  apply Forall_concat_fmap. intros i [_ Hi]%elem_of_py_range.
  unfold linear_fragments. apply Forall_fmap, Forall_forall.
  intros j [Hj1 Hj2]%elem_of_py_range. simpl.
  pose proof (Hincr i j). pose proof (prefix_le j n). pose proof (prefix_le 0 i).
  lia.
Qed.

Lemma linear_masses_zero : 0 ∈ linear_masses P n.
Proof. unfold linear_masses. left. Qed.

Lemma linear_masses_total : T ∈ linear_masses P n.
Proof.
  unfold linear_masses. destruct (decide (n = 0%nat)) as [Hn|Hn].
  - subst n. rewrite <- HPn, HP0. left.
  - right. apply (elem_of_concat_fmap _ _ 0%nat).
    + apply elem_of_py_range. lia.
    + unfold linear_fragments. apply list_elem_of_fmap. exists n. split.
      * lia.
      * apply elem_of_py_range. lia.
Qed.

Lemma cyclic_pair_inner (i j : nat) :
  (i < j ≤ n)%nat → (0 < i ∨ j < n)%nat →
  Forall (λ x, 0 < x < T) (cyclic_pair P T n i j).
Proof.
  intros Hij Hin.
  assert (0 < P j - P i < T) as Hfrag.
  { pose proof (Hincr i j). pose proof (prefix_le j n). pose proof (prefix_le 0 i).
    destruct Hin.
    - pose proof (Hincr 0%nat i). lia.
    - pose proof (Hincr j n). lia. }
  unfold cyclic_pair. constructor; [done|].
  destruct (_ && _); constructor; [lia|constructor].
Qed.

Lemma cyclic_fragments_inner (i : nat) :
  (0 < i < n)%nat → Forall (λ x, 0 < x < T) (cyclic_fragments P T n i).
Proof.
  intros Hi. unfold cyclic_fragments. apply Forall_concat_fmap.
  intros j Hj%elem_of_py_range. apply cyclic_pair_inner; lia.
Qed.

(** For a non-empty peptide the collected masses are 0, the total mass, and
    masses strictly between the two. *)
Lemma cyclic_masses_split :
  (1 ≤ n)%nat →
  ∃ A B, cyclic_masses P T n = 0 :: (A ++ [T]) ++ B ∧
         Forall (λ x, 0 < x < T) A ∧ Forall (λ x, 0 < x < T) B.
Proof.
  intros Hn.
  exists (concat (cyclic_pair P T n 0 <$> seq 1 (n - 1))),
         (concat (cyclic_fragments P T n <$> seq 1 (n - 1))).
  split; [|split].
  - unfold cyclic_masses, py_range. rewrite Nat.sub_0_r. f_equal.
    rewrite (seq_head 0 n) by done. rewrite fmap_cons. cbn [concat]. f_equal.
    unfold cyclic_fragments, py_range.
    replace (n + 1 - (0 + 1))%nat with n by lia.
    rewrite (seq_last (0 + 1) n) by done.
    rewrite fmap_app, concat_app. f_equal.
    replace (0 + 1 + n - 1)%nat with n by lia.
    cbn [fmap list_fmap concat]. unfold cyclic_pair.
    rewrite bool_decide_false by lia. simpl. rewrite HP0, HPn. f_equal. lia.
  - apply Forall_concat_fmap. intros j Hj%elem_of_seq.
    apply cyclic_pair_inner; lia.
  - apply Forall_concat_fmap. intros i Hi%elem_of_seq.
    apply cyclic_fragments_inner. lia.
Qed.

Lemma cyclic_masses_count_total :
  (1 ≤ n)%nat → py_count T (cyclic_masses P T n) = 1%nat.
Proof.
  intros Hn. destruct (cyclic_masses_split Hn) as (A & B & -> & HA & HB).
  assert (0 < T) by (rewrite <- HPn, <- HP0; apply Hincr; lia).
  change (0 :: (A ++ [T]) ++ B) with ([0] ++ (A ++ [T]) ++ B).
  rewrite !py_count_app.
  rewrite (py_count_absent T [0]) by (repeat constructor; lia).
  rewrite (py_count_absent T A), (py_count_absent T B).
  - unfold py_count. simpl. by destruct (Z.eq_dec T T).
  - eapply Forall_impl; [exact HB|]. simpl. lia.
  - eapply Forall_impl; [exact HA|]. simpl. lia.
Qed.

Lemma cyclic_masses_count_zero :
  (1 ≤ n)%nat → py_count 0 (cyclic_masses P T n) = 1%nat.
Proof.
  intros Hn. destruct (cyclic_masses_split Hn) as (A & B & -> & HA & HB).
  assert (0 < T) by (rewrite <- HPn, <- HP0; apply Hincr; lia).
  change (0 :: (A ++ [T]) ++ B) with ([0] ++ (A ++ [T]) ++ B).
  rewrite !py_count_app.
  rewrite (py_count_absent 0 [T]) by (repeat constructor; lia).
  rewrite (py_count_absent 0 A), (py_count_absent 0 B).
  - done.
  - eapply Forall_impl; [exact HB|]. simpl. lia.
  - eapply Forall_impl; [exact HA|]. simpl. lia.
Qed.
End increasing_prefix.

(** The cumulative masses of a covered peptide over a table of positive
    masses increase strictly. *)
Lemma prefix_sum_increasing (mt : mass_table) (p : Peptide) (i j : nat) :
  positive_masses mt → covered mt p →
  (i < j ≤ length p)%nat → prefix_sum mt p i < prefix_sum mt p j.
Proof.
  intros Hpos Hcov. induction j as [|j IH]; intros Hij; [lia|].
  destruct (lookup_lt_is_Some_2 p j) as [c Hc]; [lia|].
  rewrite (prefix_sum_S _ _ _ _ Hc).
  assert (0 < mass_of mt c).
  { apply mass_of_positive; [done|]. unfold covered in Hcov.
    rewrite Forall_forall in Hcov. apply Hcov. by eapply list_elem_of_lookup_2. }
  destruct (decide (i = j)) as [->|Hne]; [lia|].
  assert (prefix_sum mt p i < prefix_sum mt p j) by (apply IH; lia). lia.
Qed.

(** ** Scoring is a multiset intersection *)

Lemma sum_list_with_ext (f g : Z → nat) (D : list Z) :
  (∀ v, v ∈ D → f v = g v) → sum_list_with f D = sum_list_with g D.
Proof.
  induction D as [|a D IH]; intros H; [done|]. simpl.
  rewrite (H a) by left. rewrite IH; [done|]. intros v Hv. apply H. by right.
Qed.

Lemma sum_list_with_zero (f : Z → nat) (D : list Z) :
  (∀ v, v ∈ D → f v = 0%nat) → sum_list_with f D = 0%nat.
Proof.
  induction D as [|a D IH]; intros H; [done|]. simpl.
  rewrite (H a) by left. rewrite IH; [done|]. intros v Hv. apply H. by right.
Qed.

(** Raising the summand at exactly one point of a duplicate-free index list
    raises the sum by one. *)
Lemma sum_list_with_succ (f g : Z → nat) (D : list Z) (x : Z) :
  NoDup D → x ∈ D → (∀ v, v ≠ x → f v = g v) → f x = S (g x) →
  sum_list_with f D = S (sum_list_with g D).
Proof.
  intros Hnd Hx Hne Heq. induction D as [|a D IH]; [by apply elem_of_nil in Hx|].
  apply NoDup_cons in Hnd as [Ha Hnd]. simpl.
  destruct (decide (a = x)) as [->|Hax].
  - rewrite Heq. rewrite (sum_list_with_ext f g D); [lia|].
    intros v Hv. apply Hne. intros ->. done.
  - rewrite (Hne a Hax). apply elem_of_cons in Hx as [?|Hx]; [congruence|].
    rewrite IH by done. lia.
Qed.

Lemma py_count_zero_iff (x : Z) (l : list Z) : py_count x l = 0%nat ↔ x ∉ l.
Proof.
  unfold py_count. rewrite <- count_occ_not_In. by rewrite list_elem_of_In.
Qed.

Lemma list_remove_count (x : Z) (l : list Z) :
  x ∈ l →
  ∃ l', list_remove x l = Ok l' ∧
        py_count x l = S (py_count x l') ∧
        ∀ v, v ≠ x → py_count v l = py_count v l'.
Proof.
  unfold py_count. induction l as [|y l IH]; [by intros ?%elem_of_nil|].
  intros Hx. cbn [list_remove]. destruct (decide (x = y)) as [->|Hne].
  - exists l. split; [done|]. split.
    + by rewrite count_occ_cons_eq.
    + intros v Hv. by rewrite count_occ_cons_neq.
  - apply elem_of_cons in Hx as [?|Hx]; [done|].
    destruct (IH Hx) as (l' & -> & Hc & Ho). exists (y :: l').
    split; [done|]. split.
    + by rewrite !count_occ_cons_neq.
    + intros v Hv. destruct (decide (y = v)) as [->|Hyv].
      * rewrite !count_occ_cons_eq by done. f_equal. by apply Ho.
      * rewrite !count_occ_cons_neq by done. by apply Ho.
Qed.

Lemma score_weight_present (score x : Z) (copy : list Z) :
  x ∈ copy →
  score_weight (score, copy) x
  = (copy' ← list_remove x copy; Ok (score + 1, copy')).
Proof. intros H. unfold score_weight. by rewrite decide_True. Qed.

Lemma score_weight_absent (score x : Z) (copy : list Z) :
  x ∉ copy → score_weight (score, copy) x = Ok (score, copy).
Proof. intros H. unfold score_weight. by rewrite decide_False. Qed.

Lemma scoring_loop (t : list Z) (D : list Z) :
  NoDup D → (∀ v, v ∈ t → v ∈ D) →
  ∀ score copy, ∃ copy',
    for_each t score_weight (score, copy)
    = Ok (score + Z.of_nat
            (sum_list_with (λ v, Nat.min (py_count v t) (py_count v copy)) D),
          copy').
Proof.
  intros Hnd. induction t as [|x t IH]; intros Hsub score copy.
  - exists copy. cbn [for_each]. rewrite sum_list_with_zero; [|done].
    do 2 f_equal. lia.
  - cbn [for_each].
    assert (∀ v, v ∈ t → v ∈ D) as Hsub' by (intros v Hv; apply Hsub; by right).
    assert (x ∈ D) as HxD by (apply Hsub; left).
    destruct (decide (x ∈ copy)) as [Hx|Hx].
    + rewrite score_weight_present by done.
      destruct (list_remove_count x copy Hx) as (copy1 & -> & Hc & Ho).
      rewrite !bind_Ok.
      destruct (IH Hsub' (score + 1) copy1) as [copy' ->].
      exists copy'. do 2 f_equal.
      rewrite (sum_list_with_succ
        (λ v, Nat.min (py_count v (x :: t)) (py_count v copy))
        (λ v, Nat.min (py_count v t) (py_count v copy1)) D x); try done.
      * lia.
      * intros v Hv. unfold py_count at 1. rewrite count_occ_cons_neq by done.
        fold (py_count v t). by rewrite (Ho v Hv).
      * unfold py_count at 1. rewrite count_occ_cons_eq by done.
        fold (py_count x t). rewrite Hc. lia.
    + rewrite score_weight_absent, bind_Ok by done.
      destruct (IH Hsub' score copy) as [copy' ->].
      exists copy'.
      rewrite (sum_list_with_ext
        (λ v, Nat.min (py_count v (x :: t)) (py_count v copy))
        (λ v, Nat.min (py_count v t) (py_count v copy)) D); [done|].
      intros v _. destruct (decide (x = v)) as [->|Hne].
      * apply py_count_zero_iff in Hx. rewrite Hx. lia.
      * unfold py_count at 1. by rewrite count_occ_cons_neq.
Qed.

Lemma scoring_intersection (t spectrum : list Z) :
  (for_each t score_weight (0, spectrum) ≫= λ '(score, _), Ok score)
  = Ok (multiset_intersection_size t spectrum).
Proof.
  destruct (scoring_loop t (remove_dups (t ++ spectrum))
              (NoDup_remove_dups _)
              (λ v Hv, proj2 (elem_of_remove_dups _ _)
                               (proj2 (elem_of_app _ _ _) (or_introl Hv)))
              0 spectrum) as [copy' ->].
  rewrite bind_Ok. unfold multiset_intersection_size. f_equal.
Qed.

Lemma cyclopeptide_scoring_covered (mt : mass_table) (p : Peptide)
    (spectrum : list Z) (cyclic : bool) :
  dict_wf mt → covered mt p →
  ∃ theoretical,
    (if cyclic then cyclic_spectrum p mt else linear_spectrum p mt)
    = Ok theoretical ∧
    cyclopeptide_scoring p spectrum cyclic mt
    = Ok (multiset_intersection_size theoretical spectrum).
Proof.
  intros Hwf Hcov. unfold cyclopeptide_scoring. destruct cyclic.
  - rewrite cyclic_spectrum_covered by done. eexists. split; [done|].
    rewrite bind_Ok. apply scoring_intersection.
  - rewrite linear_spectrum_covered by done. eexists. split; [done|].
    rewrite bind_Ok. apply scoring_intersection.
Qed.

Lemma score_of_covered (mt : mass_table) (p : Peptide) (spectrum : list Z)
    (cyclic : bool) :
  dict_wf mt → covered mt p →
  cyclopeptide_scoring p spectrum cyclic mt = Ok (score_of spectrum mt cyclic p).
Proof.
  intros Hwf Hcov. unfold score_of.
  destruct (cyclopeptide_scoring_covered mt p spectrum cyclic Hwf Hcov)
    as (t & _ & ->). done.
Qed.

(** ** Trimming *)

Lemma dict_fromkeys_NoDup (l : list Peptide) : NoDup l → dict_fromkeys l = l.
Proof.
  unfold dict_fromkeys.
  assert (∀ acc, NoDup (acc ++ l) →
    foldl (λ d k, if decide (k ∈ d) then d else d ++ [k]) acc l = acc ++ l) as H.
  { induction l as [|x l IH]; intros acc Hnd; simpl.
    - by rewrite app_nil_r.
    - rewrite decide_False.
      + rewrite IH; rewrite <- app_assoc; done.
      + apply NoDup_app in Hnd as (_ & Hdis & _). intros Hx.
        apply (Hdis x Hx). left. }
  intros Hnd. by apply (H []).
Qed.

Section trim.
Variable mt : mass_table.
Variable spectrum : list Z.
Hypothesis Hwf : dict_wf mt.

Local Abbreviation score := (score_of spectrum mt false).

Lemma trim_fill (keys : list Peptide) :
  Forall (covered mt) keys →
  for_each keys (λ items key,
    score ← cyclopeptide_scoring key spectrum false mt;
    Ok (items ++ [(key, score)])) []
  = Ok ((λ k, (k, score k)) <$> keys).
Proof.
  intros Hcov.
  rewrite (for_each_append _ _ (λ k, [(k, score k)])).
  - by rewrite concat_singletons.
  - intros s k Hk. rewrite Forall_forall in Hcov.
    by rewrite score_of_covered by auto.
Qed.

Lemma trim_select (thr : Z) (keys : list Peptide) :
  for_each ((λ k, (k, score k)) <$> keys)
    (λ final_leader_board '(key, value),
      if bool_decide (thr ≤ value) then Ok (final_leader_board ++ [key])
      else Ok final_leader_board) []
  = Ok (filter (λ k, thr ≤ score k) keys).
Proof.
  rewrite (for_each_append _ _
    (λ '(key, value), if bool_decide (thr ≤ value) then [key] else [])).
  - f_equal. rewrite app_nil_l. induction keys as [|k keys IH]; [done|].
    rewrite !fmap_cons. cbn [concat]. rewrite filter_cons, IH.
    destruct (decide (thr ≤ score k)) as [H|H].
    + by rewrite bool_decide_true.
    + by rewrite bool_decide_false.
  - intros s [k v] _. destruct (bool_decide (thr ≤ v)); [done|].
    by rewrite app_nil_r.
Qed.

(** Below the retention count the board is returned as it is. *)
Lemma trim_small (lb : list Peptide) (n : Z) :
  Z.of_nat (length lb) < n → trim lb spectrum n mt = Ok lb.
Proof.
  intros H. unfold trim.
  destruct (Z.ltb_spec (Z.of_nat (length lb)) n); [done|lia].
Qed.

(** Otherwise it is filtered by the score found at index [n - 1] of the
    scores in descending order. *)
Lemma trim_large (lb : list Peptide) (n : Z) :
  NoDup lb → Forall (covered mt) lb → n ≤ Z.of_nat (length lb) →
  trim lb spectrum n mt
  = (thr ← py_index (sorted_reverse (score <$> lb)) (n - 1);
     Ok (filter (λ k, thr ≤ score k) lb)).
Proof.
  intros Hnd Hcov Hn. unfold trim.
  destruct (Z.ltb_spec (Z.of_nat (length lb)) n); [lia|].
  rewrite dict_fromkeys_NoDup, trim_fill, bind_Ok by done.
  rewrite <- list_fmap_compose.
  replace (snd ∘ (λ k, (k, score k))) with score by done.
  destruct (py_index _ _) as [thr|e]; [|done].
  rewrite !bind_Ok. apply trim_select.
Qed.
End trim.

(** ** The score at rank [n] *)

Lemma py_index_in_range {A} (l : list A) (i : Z) :
  - Z.of_nat (length l) ≤ i < Z.of_nat (length l) → ∃ x, py_index l i = Ok x.
Proof.
  intros Hi. unfold py_index.
  destruct (Z.ltb_spec i 0).
  - destruct (Z.leb_spec 0 (i + Z.of_nat (length l))); [|lia].
    destruct (Z.ltb_spec (i + Z.of_nat (length l)) (Z.of_nat (length l))); [|lia].
    simpl. destruct (lookup_lt_is_Some_2 l (Z.to_nat (i + Z.of_nat (length l))))
      as [x ->]; [lia|]. by exists x.
  - destruct (Z.leb_spec 0 i); [|lia].
    destruct (Z.ltb_spec i (Z.of_nat (length l))); [|lia].
    simpl. destruct (lookup_lt_is_Some_2 l (Z.to_nat i)) as [x ->]; [lia|].
    by exists x.
Qed.

Lemma filter_Forall_id {A} (Q : A → Prop) `{∀ x, Decision (Q x)} (l : list A) :
  Forall Q l → filter Q l = l.
Proof.
  induction 1 as [|x l Hx _ IH]; [done|]. by rewrite filter_cons_True, IH.
Qed.

Lemma filter_fmap_length {A B} (f : A → B) (Q : B → Prop)
    `{∀ y, Decision (Q y)} (l : list A) :
  length (filter (λ a, Q (f a)) l) = length (filter Q (f <$> l)).
Proof.
  induction l as [|a l IH]; [done|].
  rewrite fmap_cons, !filter_cons. destruct (decide (Q (f a))); simpl; lia.
Qed.

(** In a descending list everything up to index [i] is at least the element
    at index [i]. *)
Lemma descending_prefix (l : list Z) (i : nat) (thr : Z) :
  StronglySorted (flip Z.le) l → l !! i = Some thr →
  Forall (λ x, thr ≤ x) (take (S i) l).
Proof.
  intros Hs Hi. rewrite (take_S_r _ _ _ Hi).
  rewrite <- (take_drop_middle _ _ _ Hi) in Hs.
  apply StronglySorted_app in Hs as (Hle & _ & _).
  apply Forall_app. split; [|repeat constructor; lia].
  apply Forall_forall. intros x Hx. apply (Hle x thr Hx). left.
Qed.

Lemma filter_prefix_length {A} (Q : A → Prop) `{∀ x, Decision (Q x)}
    (l : list A) (k : nat) :
  (k ≤ length l)%nat → Forall Q (take k l) → (k ≤ length (filter Q l))%nat.
Proof.
  intros Hk HQ. rewrite <- (take_drop k l), filter_app, length_app.
  rewrite (filter_Forall_id _ _ HQ), length_take_le by done. lia.
Qed.

(** The score at rank [n] is reached by at least [n] of the scores. *)
Lemma rank_threshold (scores : list Z) (n : Z) :
  1 ≤ n ≤ Z.of_nat (length scores) →
  ∃ thr,
    sorted_reverse scores !! Z.to_nat (n - 1) = Some thr ∧
    py_index (sorted_reverse scores) (n - 1) = Ok thr ∧
    n ≤ Z.of_nat (length (filter (λ x, thr ≤ x) scores)) ∧
    (Z.of_nat (length scores) = n → Forall (λ x, thr ≤ x) scores).
Proof.
  intros Hn.
  assert (length (sorted_reverse scores) = length scores) as Hlen
    by by rewrite sorted_reverse_Permutation.
  destruct (lookup_lt_is_Some_2 (sorted_reverse scores) (Z.to_nat (n - 1)))
    as [thr Hthr]; [lia|].
  exists thr. split; [done|]. split; [|split].
  - replace (n - 1) with (Z.of_nat (Z.to_nat (n - 1))) by lia.
    by apply py_index_lookup.
  - pose proof (descending_prefix _ _ _
      (sorted_reverse_StronglySorted scores) Hthr) as Hpre.
    rewrite <- (sorted_reverse_Permutation scores) at 1.
    apply (filter_prefix_length (λ x, thr ≤ x)) in Hpre; lia.
  - intros Heq.
    pose proof (descending_prefix _ _ _
      (sorted_reverse_StronglySorted scores) Hthr) as Hpre.
    rewrite take_ge in Hpre by lia.
    by rewrite <- (sorted_reverse_Permutation scores).
Qed.

(** ** Expansion *)

Lemma elem_of_expand (keys : list ascii) (lb : list Peptide) (x : Peptide) :
  x ∈ expand keys lb ↔ ∃ aa ele, x = ele ++ [aa] ∧ aa ∈ keys ∧ ele ∈ lb.
Proof.
  unfold expand. induction keys as [|k keys IH]; simpl.
  - split; [by intros ?%elem_of_nil|]. intros (aa & ele & _ & ?%elem_of_nil & _).
    done.
  - rewrite elem_of_app, IH. split.
    + intros [Hx|(aa & ele & -> & Haa & Hele)].
      * apply list_elem_of_fmap in Hx as (ele & -> & Hele).
        exists k, ele. split; [done|]. split; [left|done].
      * exists aa, ele. split; [done|]. split; [by right|done].
    + intros (aa & ele & -> & Haa & Hele).
      apply elem_of_cons in Haa as [->|Haa].
      * left. apply list_elem_of_fmap. by exists ele.
      * right. by exists aa, ele.
Qed.

Lemma expand_NoDup (keys : list ascii) (lb : list Peptide) :
  NoDup keys → NoDup lb → NoDup (expand keys lb).
Proof.
  intros Hk Hlb. unfold expand. induction Hk as [|k keys Hk _ IH]; simpl.
  - constructor.
  - apply NoDup_app. split; [|split; [|done]].
    + apply NoDup_fmap_2; [|done]. intros x y Hxy. by apply app_inv_tail in Hxy.
    + intros x Hx Hx'. apply list_elem_of_fmap in Hx as (ele & -> & _).
      apply (elem_of_expand keys lb) in Hx' as (aa & ele' & Heq & Haa & _).
      apply app_inj_tail in Heq as [_ ->]. done.
Qed.

Lemma expand_board_inv (mt : mass_table) (k : nat) (lb : list Peptide) :
  dict_wf mt → board_inv mt k lb →
  board_inv mt (S k) (expand (dict_keys mt) lb).
Proof.
  intros Hwf [Hnd Hall]. split; [by apply expand_NoDup|].
  apply Forall_forall. intros x (aa & ele & -> & Haa & Hele)%elem_of_expand.
  rewrite Forall_forall in Hall. destruct (Hall _ Hele) as [Hcov Hlen]. split.
  - apply Forall_app. split; [done|]. by repeat constructor.
  - rewrite length_app. simpl. lia.
Qed.

Lemma total_mass_length (mt : mass_table) (p : Peptide) :
  positive_masses mt → covered mt p → Z.of_nat (length p) ≤ total_mass mt p.
Proof.
  intros Hpos. unfold total_mass. induction 1 as [|c p Hc _ IH].
  - by rewrite fmap_nil, total_nil.
  - rewrite fmap_cons, total_cons. cbn [length].
    pose proof (mass_of_positive mt c Hpos Hc). lia.
Qed.

(** ** The two loops of the mass filter *)

Section mass_filter.
Variable mt : mass_table.
Variable spectrum : list Z.
Variable mx : Z.
Hypothesis Hwf : dict_wf mt.
Hypothesis Hmx : py_max spectrum = Ok mx.

Lemma scan_candidate_covered (lp : Peptide) (ls : Z) (rm : list Peptide)
    (p : Peptide) :
  covered mt p →
  scan_candidate spectrum mt (lp, ls, rm) p
  = Ok (if bool_decide (total_mass mt p = mx) then
          if bool_decide (ls < score_of spectrum mt true p)
          then (p, score_of spectrum mt true p, rm) else (lp, ls, rm)
        else if bool_decide (mx < total_mass mt p)
             then (lp, ls, rm ++ [p]) else (lp, ls, rm)).
Proof.
  intros Hcov. unfold scan_candidate.
  rewrite peptide_mass_covered, bind_Ok, Hmx, bind_Ok by done.
  destruct (bool_decide (total_mass mt p = mx)).
  - rewrite score_of_covered, bind_Ok by done.
    by destruct (bool_decide (ls < _)).
  - rewrite bind_Ok. by destruct (bool_decide (mx < _)).
Qed.

Lemma scan_board (board : list Peptide) :
  Forall (covered mt) board →
  ∀ lp ls rm, ∃ lp' ls',
    for_each board (scan_candidate spectrum mt) (lp, ls, rm)
    = Ok (lp', ls', rm ++ filter (λ p, mx < total_mass mt p) board).
Proof.
  induction 1 as [|p board Hp _ IH]; intros lp ls rm.
  - exists lp, ls. by rewrite filter_nil, app_nil_r.
  - cbn [for_each]. rewrite scan_candidate_covered, bind_Ok by done.
    rewrite filter_cons.
    destruct (bool_decide (total_mass mt p = mx)) eqn:Heq.
    + apply bool_decide_eq_true in Heq.
      rewrite decide_False by lia.
      destruct (bool_decide (ls < _)); apply IH.
    + destruct (decide (mx < total_mass mt p)) as [Hlt|Hlt].
      * rewrite bool_decide_true by done.
        destruct (IH lp ls (rm ++ [p])) as (lp' & ls' & ->).
        exists lp', ls'. by rewrite <- app_assoc.
      * rewrite bool_decide_false by done. apply IH.
Qed.
End mass_filter.

Lemma for_each_indices {A S} (l : list A) (body : S → A → res S) (s : S) :
  for_each (py_range 0 (length l))
    (λ s i, x ← py_index l (Z.of_nat i); body s x) s
  = for_each l body s.
Proof.
  unfold py_range. rewrite Nat.sub_0_r.
  assert (∀ pre s,
    for_each (seq (length pre) (length l))
      (λ s i, x ← py_index (pre ++ l) (Z.of_nat i); body s x) s
    = for_each l body s) as H.
  { clear s. induction l as [|a l IH]; intros pre s; [done|].
    cbn [length seq for_each].
    rewrite (py_index_lookup _ _ a) by (by apply list_lookup_middle).
    rewrite bind_Ok. destruct (body s a) as [s'|e]; [|done].
    rewrite !bind_Ok. specialize (IH (pre ++ [a]) s').
    rewrite length_app, <- app_assoc in IH. simpl in IH.
    by rewrite Nat.add_1_r in IH. }
  apply (H [] s).
Qed.

Lemma filter_ext_in {A} (Q1 Q2 : A → Prop) `{∀ x, Decision (Q1 x)}
    `{∀ x, Decision (Q2 x)} (l : list A) :
  (∀ x, x ∈ l → Q1 x ↔ Q2 x) → filter Q1 l = filter Q2 l.
Proof.
  induction l as [|a l IH]; intros Hext; [done|].
  rewrite !filter_cons, IH by (intros x Hx; apply Hext; by right).
  destruct (decide (Q1 a)) as [H1|H1], (decide (Q2 a)) as [H2|H2]; try done.
  - by apply (Hext a ltac:(left)) in H1.
  - by apply (Hext a ltac:(left)) in H2.
Qed.

Lemma list_remove_NoDup {A} `{EqDecision A} (x : A) (l : list A) :
  NoDup l → x ∈ l → list_remove x l = Ok (filter (λ y, y ≠ x) l).
Proof.
  induction 1 as [|y l Hy Hnd IH]; intros Hx; [by apply elem_of_nil in Hx|].
  cbn [list_remove]. destruct (decide (x = y)) as [->|Hne].
  - rewrite filter_cons_False by (intros H; by apply H).
    rewrite filter_Forall_id; [done|].
    apply Forall_forall. intros z Hz ->. done.
  - apply elem_of_cons in Hx as [?|Hx]; [done|].
    rewrite IH, bind_Ok by done. by rewrite filter_cons_True by congruence.
Qed.

Lemma remove_each {A} `{EqDecision A} (rm l : list A) :
  NoDup rm → NoDup l → (∀ x, x ∈ rm → x ∈ l) →
  for_each rm (λ l x, list_remove x l) l = Ok (filter (λ y, y ∉ rm) l).
Proof.
  intros Hrm. revert l. induction Hrm as [|x rm Hx Hrm IH]; intros l Hl Hsub.
  - cbn [for_each]. rewrite filter_Forall_id; [done|].
    apply Forall_forall. intros y _. apply not_elem_of_nil.
  - cbn [for_each]. rewrite list_remove_NoDup, bind_Ok by (try done; apply Hsub; left).
    rewrite IH.
    + f_equal. rewrite list_filter_filter. apply filter_ext_in.
      intros y _. rewrite not_elem_of_cons. tauto.
    + by apply NoDup_filter.
    + intros y Hy. apply list_elem_of_filter. split.
      * intros ->. done.
      * apply Hsub. by right.
Qed.

Lemma remove_candidates_filter (Q : Peptide → Prop) `{∀ p, Decision (Q p)}
    (board : list Peptide) :
  NoDup board →
  remove_candidates (filter Q board) board = Ok (filter (λ p, ¬ Q p) board).
Proof.
  intros Hnd. unfold remove_candidates.
  rewrite (for_each_indices (filter Q board) (λ l x, list_remove x l)).
  rewrite remove_each.
  - f_equal. apply filter_ext_in. intros p Hp. rewrite list_elem_of_filter. tauto.
  - by apply NoDup_filter.
  - done.
  - intros p Hp. by apply list_elem_of_filter in Hp as [_ ?].
Qed.

Lemma mass_filter_covered (mt : mass_table) (spectrum : list Z) (mx : Z)
    (lp : Peptide) (ls : Z) (board : list Peptide) :
  dict_wf mt → py_max spectrum = Ok mx →
  NoDup board → Forall (covered mt) board →
  ∃ lp' ls',
    mass_filter spectrum mt lp ls board
    = Ok (lp', ls', filter (λ p, total_mass mt p ≤ mx) board).
Proof.
  intros Hwf Hmx Hnd Hcov. unfold mass_filter.
  destruct (scan_board mt spectrum mx Hwf Hmx board Hcov lp ls [])
    as (lp' & ls' & ->).
  exists lp', ls'. rewrite bind_Ok, app_nil_l.
  rewrite remove_candidates_filter, bind_Ok by done.
  do 2 f_equal. apply filter_ext_in. intros p _. lia.
Qed.

(** ** One round, and the rounds it takes *)

Lemma board_inv_sublist (mt : mass_table) (k : nat) (lb lb' : list Peptide) :
  lb' `sublist_of` lb → board_inv mt k lb → board_inv mt k lb'.
Proof.
  intros Hsub [Hnd Hall]. split; [by eapply sublist_NoDup|].
  rewrite Forall_forall in *. intros p Hp. apply Hall.
  by eapply elem_of_sublist.
Qed.

Lemma board_inv_covered (mt : mass_table) (k : nat) (lb : list Peptide) :
  board_inv mt k lb → Forall (covered mt) lb.
Proof. intros [_ Hall]. eapply Forall_impl; [exact Hall|]. by intros p [? _]. Qed.

Lemma trim_total (mt : mass_table) (spectrum : list Z) (lb : list Peptide)
    (n : Z) :
  dict_wf mt → 0 ≤ n → lb ≠ [] → NoDup lb → Forall (covered mt) lb →
  ∃ kept, trim lb spectrum n mt = Ok kept ∧ kept `sublist_of` lb.
Proof.
  intros Hwf Hn Hne Hnd Hcov.
  destruct (decide (Z.of_nat (length lb) < n)) as [Hlt|Hge].
  - exists lb. split; [by apply trim_small|done].
  - rewrite trim_large by (try done; lia).
    assert (0 < length lb)%nat by (destruct lb; [done|simpl; lia]).
    destruct (py_index_in_range
      (sorted_reverse (score_of spectrum mt false <$> lb)) (n - 1)) as [thr ->].
    { rewrite sorted_reverse_Permutation, length_fmap. lia. }
    rewrite bind_Ok. eexists. split; [done|]. apply sublist_filter.
Qed.

Section rounds.
Variable mt : mass_table.
Variable spectrum : list Z.
Variable n : Z.
Variable mx : Z.
Hypothesis Hwf : dict_wf mt.
Hypothesis Hpos : positive_masses mt.
Hypothesis Hmx : py_max spectrum = Ok mx.
Hypothesis Hn : 0 ≤ n.

Lemma loop_body_round (k : nat) (st : search_state) :
  board_inv mt k (leader_board st) →
  ∃ st' flag,
    loop_body spectrum n mt st = Ok (st', flag) ∧
    if flag : bool
    then board_inv mt (S k) (leader_board st') ∧ Z.of_nat (S k) ≤ mx
    else leader_board st' = [].
Proof.
  intros Hinv. unfold loop_body.
  pose proof (expand_board_inv mt k _ Hwf Hinv) as HE.
  set (E := expand (dict_keys mt) (leader_board st)) in *.
  destruct (mass_filter_covered mt spectrum mx (leader_peptide st)
              (leader_peptide_score st) E Hwf Hmx (proj1 HE)
              (board_inv_covered _ _ _ HE)) as (lp' & ls' & ->).
  rewrite bind_Ok.
  set (F := filter (λ p, total_mass mt p ≤ mx) E).
  assert (board_inv mt (S k) F) as HF
    by (eapply board_inv_sublist; [apply sublist_filter|done]).
  destruct F as [|p F'] eqn:EF.
  - rewrite bool_decide_false by (simpl; lia). by eexists _, false.
  - rewrite bool_decide_true by (simpl; lia).
    destruct (trim_total mt spectrum (p :: F') n) as (kept & -> & Hsub);
      try done; [apply HF|by eapply board_inv_covered|].
    rewrite bind_Ok. eexists _, true. split; [done|]. cbn [leader_board].
    split; [by eapply board_inv_sublist|].
    assert (p ∈ filter (λ p, total_mass mt p ≤ mx) E) as Hp
      by (fold F; rewrite EF; left).
    apply list_elem_of_filter in Hp as [Hmass HpE].
    destruct HE as [_ HE]. rewrite Forall_forall in HE.
    destruct (HE p HpE) as [Hcov Hlen].
    pose proof (total_mass_length mt p Hpos Hcov). lia.
Qed.

Lemma sequencing_loop_rounds (d : nat) :
  ∀ k st, board_inv mt k (leader_board st) → mx ≤ Z.of_nat (k + d) →
  ∃ st', leader_board st' = [] ∧
    ∀ fuel, (d + 1 ≤ fuel)%nat →
      sequencing_loop fuel spectrum n mt st = Some (Ok st').
Proof.
  induction d as [|d IH]; intros k st Hinv Hk;
    destruct (loop_body_round k st Hinv) as (st' & flag & Hbody & Hflag);
    destruct (leader_board st) as [|p lb] eqn:Hlb.
  - exists st. split; [done|]. intros [|fuel] Hf; [lia|]. simpl.
    by rewrite Hlb.
  - destruct flag; [destruct Hflag as [_ ?]; lia|].
    exists st'. split; [done|]. intros [|fuel] Hf; [lia|]. simpl.
    by rewrite Hlb, Hbody.
  - exists st. split; [done|]. intros [|fuel] Hf; [lia|]. simpl.
    by rewrite Hlb.
  - destruct flag.
    + destruct Hflag as [Hinv' _].
      destruct (IH (S k) st' Hinv') as (st'' & Hnil & Hrun); [lia|].
      exists st''. split; [done|]. intros [|fuel] Hf; [lia|]. simpl.
      rewrite Hlb, Hbody. apply Hrun. lia.
    + exists st'. split; [done|]. intros [|fuel] Hf; [lia|]. simpl.
      by rewrite Hlb, Hbody.
Qed.
End rounds.

Lemma initial_board_inv (mt : mass_table) :
  board_inv mt 0 (leader_board initial_state).
Proof.
  split; [apply NoDup_singleton|]. repeat constructor.
Qed.

(** ** The leader *)

Lemma bind_Ok_inv {A B} (m : res A) (k : A → res B) (b : B) :
  (m ≫= k) = Ok b → ∃ a, m = Ok a ∧ k a = Ok b.
Proof. destruct m as [a|e]; [|done]. intros H. by exists a. Qed.

Lemma scan_candidate_leader (spectrum : list Z) (mt : mass_table)
    (lp : Peptide) (ls : Z) (rm : list Peptide) (p : Peptide)
    (lp' : Peptide) (ls' : Z) (rm' : list Peptide) :
  scan_candidate spectrum mt (lp, ls, rm) p = Ok (lp', ls', rm') →
  (lp' = lp ∧ ls' = ls ∧ ∀ s, full_mass_score spectrum mt p s → s ≤ ls) ∨
  (lp' = p ∧ full_mass_score spectrum mt p ls' ∧ ls < ls').
Proof.
  unfold scan_candidate.
  intros (mass & Hmass & H)%bind_Ok_inv.
  apply bind_Ok_inv in H as (mx & Hmx & H).
  destruct (bool_decide (mass = mx)) eqn:Heq.
  - apply bool_decide_eq_true in Heq as ->.
    apply bind_Ok_inv in H as (score & Hscore & H).
    destruct (bool_decide (ls < score)) eqn:Hlt; inversion H; subst.
    + apply bool_decide_eq_true in Hlt. right.
      split; [done|]. split; [|done]. by exists mx.
    + apply bool_decide_eq_false in Hlt. left.
      split; [done|]. split; [done|].
      intros s (mx' & _ & _ & Hs). rewrite Hscore in Hs.
      inversion Hs. lia.
  - apply bool_decide_eq_false in Heq.
    apply bind_Ok_inv in H as (mx2 & Hmx2 & H).
    left. assert (lp' = lp ∧ ls' = ls) as [-> ->]
      by (destruct (bool_decide (mx2 < mass)); by inversion H).
    split; [done|]. split; [done|].
    intros s (mx' & Hmx' & Hmass' & _). congruence.
Qed.

Lemma first_best_le (spectrum : list Z) (mt : mass_table) (cs : list Peptide)
    (lp : Peptide) (ls : Z) (lp' : Peptide) (ls' : Z) :
  first_best spectrum mt cs lp ls lp' ls' → ls ≤ ls'.
Proof. intros [(_ & -> & _)|(pre & post & _ & _ & ? & _)]; lia. Qed.

Lemma scan_board_leader (spectrum : list Z) (mt : mass_table)
    (cs : list Peptide) :
  ∀ lp ls rm lp' ls' rm',
    for_each cs (scan_candidate spectrum mt) (lp, ls, rm) = Ok (lp', ls', rm') →
    first_best spectrum mt cs lp ls lp' ls'.
Proof.
  induction cs as [|c cs IH]; intros lp ls rm lp' ls' rm' Hrun.
  - inversion Hrun; subst. left. split; [done|]. split; [done|].
    by intros q s ?%elem_of_nil.
  - cbn [for_each] in Hrun.
    apply bind_Ok_inv in Hrun as ([[lp1 ls1] rm1] & Hstep & Hrest).
    apply scan_candidate_leader in Hstep. apply IH in Hrest.
    destruct Hstep as [(-> & -> & Hc)|(-> & Hc & Hlt)].
    + destruct Hrest as [(-> & -> & Hcs)|(pre & post & -> & Hbest & Hlt & Hpre & Hpost)].
      * left. split; [done|]. split; [done|].
        intros q s [->|Hq]%elem_of_cons; [by apply Hc|by eapply Hcs].
      * right. exists (c :: pre), post. split; [done|]. split; [done|].
        split; [done|]. split; [|done].
        intros q s [->|Hq]%elem_of_cons Hs; [|by eapply Hpre].
        specialize (Hc s Hs). lia.
    + right.
      destruct Hrest as [(-> & -> & Hcs)|(pre & post & -> & Hbest & Hlt' & Hpre & Hpost)].
      * exists [], cs. split; [done|]. split; [done|]. split; [done|].
        split; [by intros q s ?%elem_of_nil|done].
      * exists (c :: pre), post. split; [done|]. split; [done|].
        split; [lia|]. split; [|done].
        intros q s [->|Hq]%elem_of_cons Hs; [|by eapply Hpre].
        destruct Hc as (mx & _ & _ & Hc), Hs as (mx' & _ & _ & Hs).
        rewrite Hc in Hs. inversion Hs. lia.
Qed.

(** The leader of a round comes from scanning that round's candidates. *)
Lemma loop_body_leader (spectrum : list Z) (n : Z) (mt : mass_table)
    (st st' : search_state) (flag : bool) :
  loop_body spectrum n mt st = Ok (st', flag) →
  first_best spectrum mt (expand (dict_keys mt) (leader_board st))
    (leader_peptide st) (leader_peptide_score st)
    (leader_peptide st') (leader_peptide_score st').
Proof.
  unfold loop_body, mass_filter.
  intros ([[lp ls] F] & Hfilter & H)%bind_Ok_inv.
  apply bind_Ok_inv in Hfilter as ([[lp1 ls1] rm] & Hscan & Hremove).
  apply bind_Ok_inv in Hremove as (F' & _ & Heq). inversion Heq; subst.
  apply scan_board_leader in Hscan.
  destruct (bool_decide (0 < length F)%nat).
  - apply bind_Ok_inv in H as (kept & _ & H). by inversion H; subst.
  - by inversion H; subst.
Qed.

Lemma sequencing_loop_leader (spectrum : list Z) (n : Z) (mt : mass_table)
    (fuel : nat) :
  ∀ st st', sequencing_loop fuel spectrum n mt st = Some (Ok st') →
    (leader_peptide st' = leader_peptide st ∧
     leader_peptide_score st' = leader_peptide_score st) ∨
    (full_mass_score spectrum mt (leader_peptide st') (leader_peptide_score st') ∧
     leader_peptide_score st < leader_peptide_score st').
Proof.
  induction fuel as [|fuel IH]; intros st st' Hrun; [done|].
  cbn [sequencing_loop] in Hrun.
  destruct (leader_board st) as [|p lb]; [left; by inversion Hrun|].
  destruct (loop_body spectrum n mt st) as [[st1 flag]|e] eqn:Hbody; [|done].
  apply loop_body_leader in Hbody.
  assert ((leader_peptide st1 = leader_peptide st ∧
           leader_peptide_score st1 = leader_peptide_score st) ∨
          (full_mass_score spectrum mt (leader_peptide st1)
             (leader_peptide_score st1) ∧
           leader_peptide_score st < leader_peptide_score st1)) as Hone.
  { destruct Hbody as [(? & ? & _)|(pre & post & _ & ? & ? & _)];
      [by left|by right]. }
  destruct flag; [|by inversion Hrun; subst].
  apply IH in Hrun. destruct Hone as [[E1 E2]|[H1 H2]], Hrun as [[E3 E4]|[H3 H4]].
  - left. split; congruence.
  - right. split; [done|]. lia.
  - right. rewrite E3, E4. done.
  - right. split; [done|]. lia.
Qed.

(** ** What the mass filter removes *)

Lemma scan_candidate_removed (spectrum : list Z) (mt : mass_table) (mx : Z)
    (lp : Peptide) (ls : Z) (rm : list Peptide) (p : Peptide)
    (lp' : Peptide) (ls' : Z) (rm' : list Peptide) :
  py_max spectrum = Ok mx →
  scan_candidate spectrum mt (lp, ls, rm) p = Ok (lp', ls', rm') →
  rm' = rm ∨ (rm' = rm ++ [p] ∧ ∃ m, peptide_mass p mt = Ok m ∧ mx < m).
Proof.
  intros Hmx. unfold scan_candidate. rewrite Hmx.
  intros (mass & Hmass & H)%bind_Ok_inv. rewrite bind_Ok in H.
  destruct (bool_decide (mass = mx)).
  - apply bind_Ok_inv in H as (score & _ & H).
    left. destruct (bool_decide (ls < score)); by inversion H.
  - rewrite bind_Ok in H. destruct (bool_decide (mx < mass)) eqn:Hlt.
    + apply bool_decide_eq_true in Hlt. right. inversion H; subst.
      split; [done|]. by exists mass.
    + left. by inversion H.
Qed.

Lemma scan_board_removed (spectrum : list Z) (mt : mass_table) (mx : Z)
    (cs : list Peptide) :
  py_max spectrum = Ok mx →
  ∀ lp ls rm lp' ls' rm',
    for_each cs (scan_candidate spectrum mt) (lp, ls, rm) = Ok (lp', ls', rm') →
    ∀ x, x ∈ rm' → x ∈ rm ∨ ∃ m, peptide_mass x mt = Ok m ∧ mx < m.
Proof.
  intros Hmx. induction cs as [|c cs IH]; intros lp ls rm lp' ls' rm' Hrun x Hx.
  - inversion Hrun; subst. by left.
  - cbn [for_each] in Hrun.
    apply bind_Ok_inv in Hrun as ([[lp1 ls1] rm1] & Hstep & Hrest).
    destruct (IH _ _ _ _ _ _ Hrest x Hx) as [Hx1|?]; [|by right].
    destruct (scan_candidate_removed _ _ _ _ _ _ _ _ _ _ Hmx Hstep)
      as [->|[-> Hm]]; [by left|].
    apply elem_of_app in Hx1 as [?|Hx1]; [by left|].
    apply list_elem_of_singleton in Hx1 as ->. by right.
Qed.

Lemma list_remove_other {A} `{EqDecision A} (x q : A) (l l' : list A) :
  list_remove x l = Ok l' → q ∈ l → q ≠ x → q ∈ l'.
Proof.
  revert l'. induction l as [|y l IH]; intros l' Hrm Hq Hne; [done|].
  cbn [list_remove] in Hrm. destruct (decide (x = y)) as [->|Hxy].
  - inversion Hrm; subst. apply elem_of_cons in Hq as [?|?]; done.
  - apply bind_Ok_inv in Hrm as (l1 & Hl1 & Heq). inversion Heq; subst.
    apply elem_of_cons in Hq as [->|Hq]; [left|right; by eapply IH].
Qed.

Lemma remove_candidates_keeps (rm board F : list Peptide) (q : Peptide) :
  remove_candidates rm board = Ok F → q ∈ board → q ∉ rm → q ∈ F.
Proof.
  unfold remove_candidates.
  rewrite (for_each_indices rm (λ l x, list_remove x l)).
  revert board. induction rm as [|x rm IH]; intros board Hrun Hq Hnot.
  - by inversion Hrun; subst.
  - cbn [for_each] in Hrun. apply bind_Ok_inv in Hrun as (l1 & Hl1 & Hrest).
    apply not_elem_of_cons in Hnot as [Hne Hnot].
    apply (IH l1); [done| |done]. by eapply list_remove_other.
Qed.

(** A candidate that is not heavier than the heaviest peak stays on the
    board. *)
Lemma mass_filter_keeps (spectrum : list Z) (mt : mass_table) (mx : Z)
    (lp : Peptide) (ls : Z) (board : list Peptide)
    (lp' : Peptide) (ls' : Z) (F : list Peptide) (q : Peptide) (m : Z) :
  py_max spectrum = Ok mx →
  mass_filter spectrum mt lp ls board = Ok (lp', ls', F) →
  q ∈ board → peptide_mass q mt = Ok m → m ≤ mx → q ∈ F.
Proof.
  intros Hmx Hrun Hq Hm Hle. unfold mass_filter in Hrun.
  apply bind_Ok_inv in Hrun as ([[lp1 ls1] rm] & Hscan & Hrest).
  apply bind_Ok_inv in Hrest as (F' & Hremove & Heq). inversion Heq; subst.
  eapply remove_candidates_keeps; [done|done|].
  intros Hrm.
  destruct (scan_board_removed _ _ _ _ Hmx _ _ _ _ _ _ Hscan q Hrm)
    as [?%elem_of_nil|(m' & Hm' & Hlt)]; [done|].
  rewrite Hm in Hm'. inversion Hm'. lia.
Qed.

(** ** An empty target spectrum *)

Lemma scan_candidate_empty_spectrum (mt : mass_table)
    (st : Peptide * Z * list Peptide) (p : Peptide) (m : Z) :
  peptide_mass p mt = Ok m → scan_candidate [] mt st p = Raise ValueError.
Proof.
  destruct st as [[lp ls] rm]. unfold scan_candidate. by intros ->.
Qed.

Lemma loop_body_empty_spectrum (n : Z) (k : ascii) (v : Z) (mt : mass_table) :
  loop_body [] n ((k, v) :: mt) initial_state = Raise ValueError.
Proof.
  unfold loop_body, mass_filter.
  change (expand (dict_keys ((k, v) :: mt)) (leader_board initial_state))
    with ([k] :: expand (dict_keys mt) [[]]).
  cbn [for_each].
  rewrite (scan_candidate_empty_spectrum _ _ _ (0 + v)); [done|].
  unfold peptide_mass. cbn [for_each dict_get]. by rewrite decide_True.
Qed.

(** * The claims *)

Ltac table_facts := unfold dict_wf, covered, positive_masses; compute_done.

(** The cumulative masses start at 0, end at the total mass and increase. *)
Ltac prefix_facts :=
  first [ apply prefix_sum_0
        | apply prefix_sum_length
        | intros ? ?; by apply prefix_sum_increasing ].

(** C1. For a peptide over the table's symbols, any target spectrum and
    either mode, [cyclopeptide_scoring] returns the size of the multiset
    intersection of the peptide's theoretical spectrum (of that mode) and the
    target: the sum over the mass values of the smaller multiplicity. *)
Theorem scoring_is_multiset_intersection (mt : mass_table) (p : Peptide)
    (spectrum : list Z) (cyclic : bool) :
  dict_wf mt → covered mt p →
  ∃ theoretical,
    (if cyclic then cyclic_spectrum p mt else linear_spectrum p mt)
    = Ok theoretical ∧
    cyclopeptide_scoring p spectrum cyclic mt
    = Ok (Z.of_nat
            (sum_list_with
               (λ v, Nat.min (py_count v theoretical) (py_count v spectrum))
               (remove_dups (theoretical ++ spectrum)))).
Proof. apply cyclopeptide_scoring_covered. Qed.

Lemma scoring_is_multiset_intersection_witness :
  ∃ theoretical,
    cyclic_spectrum peptide_ACA table_AC = Ok theoretical ∧
    cyclopeptide_scoring peptide_ACA [0; 71; 71; 103; 5] true table_AC
    = Ok (Z.of_nat
            (sum_list_with
               (λ v, Nat.min (py_count v theoretical)
                             (py_count v [0; 71; 71; 103; 5]))
               (remove_dups (theoretical ++ [0; 71; 71; 103; 5])))).
Proof.
  apply (scoring_is_multiset_intersection table_AC peptide_ACA
           [0; 71; 71; 103; 5] true); table_facts.
Defined.

(** A mass that occurs twice in both spectra is credited twice. *)
Example scoring_counts_duplicates :
  cyclopeptide_scoring peptide_ACA [71; 71] false table_AC = Ok 2.
Proof. reflexivity. Qed.

(** C3. For a peptide of length [n] over a table of positive masses,
    [linear_spectrum] returns [n (n + 1) / 2 + 1] masses in ascending order,
    the least being 0 and the greatest the mass of the peptide. *)
Theorem linear_spectrum_shape (mt : mass_table) (p : Peptide) :
  dict_wf mt → positive_masses mt → covered mt p →
  ∃ s T,
    linear_spectrum p mt = Ok s ∧ peptide_mass p mt = Ok T ∧
    length s = (length p * (length p + 1) / 2 + 1)%nat ∧
    StronglySorted Z.le s ∧
    head s = Some 0 ∧ last s = Some T.
Proof.
  intros Hwf Hpos Hcov.
  exists (sorted (linear_masses (prefix_sum mt p) (length p))), (total_mass mt p).
  split; [by apply linear_spectrum_covered|].
  split; [by apply peptide_mass_covered|].
  split; [by rewrite sorted_length, linear_masses_length|].
  split; [apply sorted_StronglySorted|].
  assert (Forall (λ x, 0 ≤ x ≤ total_mass mt p)
            (linear_masses (prefix_sum mt p) (length p))) as Hb
    by (apply linear_masses_bounds; prefix_facts).
  rewrite Forall_forall in Hb.
  split.
  - apply sorted_head; [apply sorted_StronglySorted| |].
    + rewrite sorted_Permutation. apply linear_masses_zero.
    + intros y Hy. rewrite sorted_Permutation in Hy. by apply Hb.
  - apply sorted_last; [apply sorted_StronglySorted| |].
    + rewrite sorted_Permutation. apply linear_masses_total; prefix_facts.
    + intros y Hy. rewrite sorted_Permutation in Hy. by apply Hb.
Qed.

Lemma linear_spectrum_shape_witness :
  ∃ s T,
    linear_spectrum peptide_ACA table_AC = Ok s ∧
    peptide_mass peptide_ACA table_AC = Ok T ∧
    length s = (length peptide_ACA * (length peptide_ACA + 1) / 2 + 1)%nat ∧
    StronglySorted Z.le s ∧
    head s = Some 0 ∧ last s = Some T.
Proof. apply (linear_spectrum_shape table_AC peptide_ACA); table_facts. Defined.

(** C4. For a peptide of length [n ≥ 1] over a table of positive masses,
    [cyclic_spectrum] returns [n (n - 1) + 2] masses in ascending order; for
    [n ≥ 2] the mass of the peptide and 0 each occur exactly once; the empty
    peptide yields [[0]]. *)
Theorem cyclic_spectrum_shape (mt : mass_table) (p : Peptide) :
  dict_wf mt → positive_masses mt → covered mt p →
  cyclic_spectrum [] mt = Ok [0] ∧
  ((1 ≤ length p)%nat →
   ∃ s T,
     cyclic_spectrum p mt = Ok s ∧ peptide_mass p mt = Ok T ∧
     length s = (length p * (length p - 1) + 2)%nat ∧
     StronglySorted Z.le s ∧
     ((2 ≤ length p)%nat → py_count T s = 1%nat ∧ py_count 0 s = 1%nat)).
Proof.
  intros Hwf Hpos Hcov. split; [done|]. intros Hn.
  exists (sorted (cyclic_masses (prefix_sum mt p) (total_mass mt p) (length p))),
         (total_mass mt p).
  split; [by apply cyclic_spectrum_covered|].
  split; [by apply peptide_mass_covered|].
  split; [by rewrite sorted_length, cyclic_masses_length|].
  split; [apply sorted_StronglySorted|].
  intros _. rewrite !sorted_count. split.
  - apply cyclic_masses_count_total; first [done|prefix_facts].
  - apply cyclic_masses_count_zero; first [done|prefix_facts].
Qed.

Lemma cyclic_spectrum_shape_witness :
  cyclic_spectrum [] table_AC = Ok [0] ∧
  ((1 ≤ length peptide_ACA)%nat →
   ∃ s T,
     cyclic_spectrum peptide_ACA table_AC = Ok s ∧
     peptide_mass peptide_ACA table_AC = Ok T ∧
     length s = (length peptide_ACA * (length peptide_ACA - 1) + 2)%nat ∧
     StronglySorted Z.le s ∧
     ((2 ≤ length peptide_ACA)%nat →
      py_count T s = 1%nat ∧ py_count 0 s = 1%nat)).
Proof. apply (cyclic_spectrum_shape table_AC peptide_ACA); table_facts. Defined.

(** C6 as stated fails: the linear spectrum of ["ACA"] over [{A: 71, C: 103}]
    is not [[0, 71, 71, 103, 103, 174, 174, 245]], which has a second 103 and
    eight entries where [3 * 4 / 2 + 1 = 7] are due. *)
Lemma linear_spectrum_ACA_not_eight :
  linear_spectrum peptide_ACA table_AC
  ≠ Ok [0; 71; 71; 103; 103; 174; 174; 245].
Proof. intros H. vm_compute in H. discriminate H. Qed.

(** C6, amended. Over [{A: 71, C: 103}] the peptide ["ACA"] has mass 245 and
    [linear_spectrum] returns [[0, 71, 71, 103, 174, 174, 245]]: the one
    residue C gives a single 103. *)
Theorem linear_spectrum_ACA :
  peptide_mass peptide_ACA table_AC = Ok 245 ∧
  linear_spectrum peptide_ACA table_AC = Ok [0; 71; 71; 103; 174; 174; 245].
Proof. split; reflexivity. Qed.

(** C2 as stated fails at the boundary [len(leader_board) = n]: the guard of
    [trim] is [len(leader_board) < n], so a board of exactly [n] peptides is
    ranked, and for the empty board with [n = 0] the rank index [n - 1] is out
    of range. *)
Lemma trim_empty_board_raises :
  Z.of_nat (length (@nil Peptide)) ≤ 0 ∧
  trim [] spectrum_AB 0 table_AB = Raise IndexError ∧
  trim [] spectrum_AB 0 table_AB ≠ Ok [].
Proof. split; [done|]. split; [reflexivity|discriminate]. Qed.

(** The same happens at the boundary when the board repeats a peptide:
    [dict.fromkeys] keeps one score for the two entries. *)
Example trim_repeated_peptide_raises :
  trim [pep "A"; pep "A"] spectrum_AB 2 table_AB = Raise IndexError.
Proof. reflexivity. Qed.

(** C2, amended. [trim] returns the board unchanged when it has fewer than
    [n] peptides, and also when it has exactly [n ≥ 1] pairwise distinct
    peptides over the table's symbols; on such boards it is idempotent. *)
Theorem trim_unchanged (mt : mass_table) (spectrum : list Z)
    (lb : list Peptide) (n : Z) :
  dict_wf mt →
  Z.of_nat (length lb) ≤ n →
  (Z.of_nat (length lb) = n → 1 ≤ n ∧ NoDup lb ∧ Forall (covered mt) lb) →
  trim lb spectrum n mt = Ok lb ∧
  (trim lb spectrum n mt ≫= λ lb', trim lb' spectrum n mt)
  = trim lb spectrum n mt.
Proof.
  intros Hwf Hle Hedge.
  assert (trim lb spectrum n mt = Ok lb) as Htrim.
  { destruct (decide (Z.of_nat (length lb) < n)) as [Hlt|Hge];
      [by apply trim_small|].
    destruct Hedge as (Hn & Hnd & Hcov); [lia|].
    rewrite trim_large by (try done; lia).
    destruct (rank_threshold (score_of spectrum mt false <$> lb) n)
      as (thr & _ & -> & _ & Hall); [rewrite length_fmap; lia|].
    rewrite bind_Ok. f_equal. apply filter_Forall_id.
    rewrite length_fmap in Hall.
    apply (Forall_fmap (score_of spectrum mt false) (λ x, thr ≤ x)), Hall.
    lia. }
  split; [done|]. by rewrite Htrim, bind_Ok.
Qed.

Lemma trim_unchanged_witness :
  trim [pep "A"; pep "B"] spectrum_AB 2 table_AB = Ok [pep "A"; pep "B"] ∧
  (trim [pep "A"; pep "B"] spectrum_AB 2 table_AB
     ≫= λ lb', trim lb' spectrum_AB 2 table_AB)
  = trim [pep "A"; pep "B"] spectrum_AB 2 table_AB.
Proof.
  apply (trim_unchanged table_AB spectrum_AB [pep "A"; pep "B"] 2).
  - table_facts.
  - simpl. lia.
  - intros _. split; [lia|]. split; [compute_done|]. unfold covered.
    compute_done.
Defined.

(** C5. On a board of pairwise distinct peptides with at least [n ≥ 1]
    entries, [trim] keeps every candidate whose linear score is at least the
    [n]-th highest linear score, ties included, and at least [n] candidates
    in all. *)
Theorem trim_keeps_ties (mt : mass_table) (spectrum : list Z)
    (lb : list Peptide) (n : Z) :
  dict_wf mt → NoDup lb → Forall (covered mt) lb →
  1 ≤ n ≤ Z.of_nat (length lb) →
  ∃ thr kept,
    (∀ p, p ∈ lb →
       cyclopeptide_scoring p spectrum false mt
       = Ok (score_of spectrum mt false p)) ∧
    sorted_reverse (score_of spectrum mt false <$> lb) !! Z.to_nat (n - 1)
    = Some thr ∧
    trim lb spectrum n mt = Ok kept ∧
    (∀ p, p ∈ kept ↔ p ∈ lb ∧ thr ≤ score_of spectrum mt false p) ∧
    n ≤ Z.of_nat (length kept).
Proof.
  intros Hwf Hnd Hcov Hn.
  destruct (rank_threshold (score_of spectrum mt false <$> lb) n)
    as (thr & Hthr & Hidx & Hcount & _); [by rewrite length_fmap|].
  exists thr, (filter (λ p, thr ≤ score_of spectrum mt false p) lb).
  split; [|split; [done|split; [|split]]].
  - intros p Hp. rewrite Forall_forall in Hcov. by apply score_of_covered, Hcov.
  - by rewrite trim_large, Hidx by (try done; lia).
  - intros p. rewrite list_elem_of_filter. tauto.
  - by rewrite (filter_fmap_length (score_of spectrum mt false) (λ x, thr ≤ x)).
Qed.

Lemma trim_keeps_ties_witness :
  ∃ thr kept,
    (∀ p, p ∈ [pep "AA"; pep "BA"; pep "AB"] →
       cyclopeptide_scoring p spectrum_AB false table_AB
       = Ok (score_of spectrum_AB table_AB false p)) ∧
    sorted_reverse (score_of spectrum_AB table_AB false
                      <$> [pep "AA"; pep "BA"; pep "AB"]) !! Z.to_nat (2 - 1)
    = Some thr ∧
    trim [pep "AA"; pep "BA"; pep "AB"] spectrum_AB 2 table_AB = Ok kept ∧
    (∀ p, p ∈ kept ↔
          p ∈ [pep "AA"; pep "BA"; pep "AB"] ∧
          thr ≤ score_of spectrum_AB table_AB false p) ∧
    2 ≤ Z.of_nat (length kept).
Proof.
  apply (trim_keeps_ties table_AB spectrum_AB
           [pep "AA"; pep "BA"; pep "AB"] 2).
  - table_facts.
  - compute_done.
  - unfold covered. compute_done.
  - simpl. lia.
Defined.

(** The two full-mass candidates tie for rank 2 and are both kept. *)
Example trim_keeps_both_tied :
  trim [pep "AA"; pep "BA"; pep "AB"] spectrum_AB 2 table_AB
  = Ok [pep "AA"; pep "BA"; pep "AB"].
Proof. reflexivity. Qed.

(** C7. The leader is replaced only by a candidate that has the mass of the
    heaviest peak and a cyclic score strictly above the leader's score.  This
    holds of every candidate scanned, so in every round the new leader is the
    first of that round's best full-mass candidates in generation order (a
    later candidate of equal score does not displace it), and over a whole
    run the leader either stays or ends with a strictly higher score. *)
Theorem leader_only_improves (spectrum : list Z) (n : Z) (mt : mass_table) :
  (∀ lp ls rm p lp' ls' rm',
     scan_candidate spectrum mt (lp, ls, rm) p = Ok (lp', ls', rm') →
     (lp' = lp ∧ ls' = ls ∧ ∀ s, full_mass_score spectrum mt p s → s ≤ ls) ∨
     (lp' = p ∧ full_mass_score spectrum mt p ls' ∧ ls < ls')) ∧
  (∀ st st' flag,
     loop_body spectrum n mt st = Ok (st', flag) →
     first_best spectrum mt (expand (dict_keys mt) (leader_board st))
       (leader_peptide st) (leader_peptide_score st)
       (leader_peptide st') (leader_peptide_score st')) ∧
  (∀ fuel st st',
     sequencing_loop fuel spectrum n mt st = Some (Ok st') →
     (leader_peptide st' = leader_peptide st ∧
      leader_peptide_score st' = leader_peptide_score st) ∨
     (full_mass_score spectrum mt (leader_peptide st')
        (leader_peptide_score st') ∧
      leader_peptide_score st < leader_peptide_score st')).
Proof.
  split; [|split].
  - intros lp ls rm p lp' ls' rm'. apply scan_candidate_leader.
  - intros st st' flag. apply loop_body_leader.
  - intros fuel st st'. apply sequencing_loop_leader.
Qed.

Lemma leader_only_improves_witness :
  first_best spectrum_AB table_AB
    (expand (dict_keys table_AB) (leader_board round1_AB))
    (leader_peptide round1_AB) (leader_peptide_score round1_AB)
    (leader_peptide round2_AB) (leader_peptide_score round2_AB).
Proof.
  apply (proj1 (proj2 (leader_only_improves spectrum_AB 1 table_AB))
           round1_AB round2_AB true).
  reflexivity.
Defined.

(** C8. On an empty target spectrum and a non-empty table the sequencer
    raises in its first round ([max] of an empty sequence, a [ValueError])
    and returns no peptide. *)
Theorem empty_spectrum_raises (n : Z) (mt : mass_table) (fuel : nat) :
  mt ≠ [] →
  leaderboard_peptide_sequencing (S fuel) [] n mt = Some (Raise ValueError).
Proof.
  destruct mt as [|[k v] mt]; [done|]. intros _.
  unfold leaderboard_peptide_sequencing. cbn [sequencing_loop].
  change (leader_board initial_state) with [@nil ascii].
  by rewrite loop_body_empty_spectrum.
Qed.

Lemma empty_spectrum_raises_witness :
  leaderboard_peptide_sequencing 1 [] 1 table_AB = Some (Raise ValueError).
Proof. apply (empty_spectrum_raises 1 table_AB 0). discriminate. Defined.

(** C9. On a non-empty target spectrum and a table of positive masses (and a
    retention count [n ≥ 0]) the sequencer terminates: after at most
    [max(spectrum) + 1] rounds the leaderboard is empty and the leader is
    returned. *)
Theorem sequencing_terminates (spectrum : list Z) (n : Z) (mt : mass_table) :
  spectrum ≠ [] → dict_wf mt → positive_masses mt → 0 ≤ n →
  ∃ mx st,
    py_max spectrum = Ok mx ∧ leader_board st = [] ∧
    ∀ fuel, (Z.to_nat mx + 1 ≤ fuel)%nat →
      sequencing_loop fuel spectrum n mt initial_state = Some (Ok st) ∧
      leaderboard_peptide_sequencing fuel spectrum n mt
      = Some (Ok (leader_peptide st)).
Proof.
  intros Hs Hwf Hpos Hn.
  destruct spectrum as [|x spectrum]; [done|].
  set (mx := foldl Z.max x spectrum).
  destruct (sequencing_loop_rounds mt (x :: spectrum) n mx Hwf Hpos eq_refl Hn
              (Z.to_nat mx) 0 initial_state (initial_board_inv mt))
    as (st & Hnil & Hrun); [lia|].
  exists mx, st. split; [done|]. split; [done|]. intros fuel Hfuel.
  unfold leaderboard_peptide_sequencing. rewrite (Hrun fuel Hfuel). done.
Qed.

Lemma sequencing_terminates_witness :
  ∃ mx st,
    py_max spectrum_AB = Ok mx ∧ leader_board st = [] ∧
    ∀ fuel, (Z.to_nat mx + 1 ≤ fuel)%nat →
      sequencing_loop fuel spectrum_AB 1 table_AB initial_state = Some (Ok st) ∧
      leaderboard_peptide_sequencing fuel spectrum_AB 1 table_AB
      = Some (Ok (leader_peptide st)).
Proof.
  apply (sequencing_terminates spectrum_AB 1 table_AB).
  - discriminate.
  - table_facts.
  - table_facts.
  - lia.
Defined.

(** The run of the example returns ["AAAA"]. *)
Example sequencing_AB :
  leaderboard_peptide_sequencing 5 spectrum_AB 1 table_AB = Some (Ok (pep "AAAA")).
Proof. reflexivity. Qed.

(** C9 as stated fails for a negative retention count.  With the spectrum
    [[3]], the table [{A: 1, B: 3}] (non-empty, masses positive) and
    [n = -5], the first round leaves ["A"] and ["B"] on the board; in [trim]
    the guard [2 < -5] is false and [scores[n - 1]] is [scores[-6]] on a list
    of two scores, so the call raises [IndexError] in its first round and
    returns no peptide, whatever the number of rounds allowed. *)
Lemma sequencing_negative_count :
  [3] ≠ [] ∧ table_AB ≠ [] ∧ dict_wf table_AB ∧ positive_masses table_AB ∧
  leaderboard_peptide_sequencing 5 [3] (-5) table_AB = Some (Raise IndexError) ∧
  (∀ fuel, (1 ≤ fuel)%nat →
     leaderboard_peptide_sequencing fuel [3] (-5) table_AB
     = Some (Raise IndexError)) ∧
  (∀ fuel p,
     leaderboard_peptide_sequencing fuel [3] (-5) table_AB ≠ Some (Ok p)).
Proof.
  assert (loop_body [3] (-5) table_AB initial_state = Raise IndexError)
    as Hbody by reflexivity.
  assert (∀ fuel, leaderboard_peptide_sequencing (S fuel) [3] (-5) table_AB
                  = Some (Raise IndexError)) as Hrun.
  { intros fuel. unfold leaderboard_peptide_sequencing.
    cbn [sequencing_loop]. by rewrite Hbody. }
  split; [done|]. split; [done|].
  split; [table_facts|]. split; [table_facts|].
  split; [reflexivity|]. split.
  - intros [|fuel] Hf; [lia|]. apply Hrun.
  - intros [|fuel] p; [done|]. by rewrite Hrun.
Qed.

(** C10 as stated fails: a candidate of exactly the maximal mass passes the
    mass filter, but in the trim step it can be dropped, and then it is not
    expanded in the next round.  In round 2 of the example run ["AB"] has mass
    [4 = max(spectrum)] and becomes the leader, yet [trim] keeps only ["AA"]. *)
Lemma full_mass_candidate_trimmed :
  round_state spectrum_AB 1 table_AB 1 round1_AB ∧
  pep "AB" ∈ expand (dict_keys table_AB) (leader_board round1_AB) ∧
  peptide_mass (pep "AB") table_AB = Ok 4 ∧ py_max spectrum_AB = Ok 4 ∧
  loop_body spectrum_AB 1 table_AB round1_AB = Ok (round2_AB, true) ∧
  (pep "AB" ∉ leader_board round2_AB) ∧
  ∀ aa, (pep "AB" ++ [aa])
        ∉ expand (dict_keys table_AB) (leader_board round2_AB).
Proof.
  split; [|split; [|split; [|split; [|split; [|split]]]]].
  - apply (round_next _ _ _ 0 initial_state); [constructor|reflexivity].
  - compute_done.
  - reflexivity.
  - reflexivity.
  - reflexivity.
  - compute_done.
  - intros aa (a & ele & Heq & _ & Hele)%elem_of_expand.
    apply list_elem_of_singleton in Hele as ->. discriminate Heq.
Qed.

(** C10, amended. In every round a candidate whose mass equals the heaviest
    peak is not removed by the mass filter, which removes only strictly
    heavier candidates: it is on the board handed to [trim], the round does
    not break, and if it survives the trim (as it does whenever that board has
    fewer than [n] peptides) each of its one-symbol extensions is among the
    candidates of the following round. *)
Theorem full_mass_candidate_retained (spectrum : list Z) (n : Z)
    (mt : mass_table) (st st' : search_state) (flag : bool)
    (mx : Z) (p : Peptide) :
  loop_body spectrum n mt st = Ok (st', flag) →
  py_max spectrum = Ok mx →
  p ∈ expand (dict_keys mt) (leader_board st) →
  peptide_mass p mt = Ok mx →
  ∃ leader score board,
    mass_filter spectrum mt (leader_peptide st) (leader_peptide_score st)
      (expand (dict_keys mt) (leader_board st)) = Ok (leader, score, board) ∧
    (∀ q m, q ∈ expand (dict_keys mt) (leader_board st) →
            peptide_mass q mt = Ok m → m ≤ mx → q ∈ board) ∧
    p ∈ board ∧
    flag = true ∧
    trim board spectrum n mt = Ok (leader_board st') ∧
    (Z.of_nat (length board) < n → p ∈ leader_board st') ∧
    (p ∈ leader_board st' →
     ∀ aa, aa ∈ dict_keys mt →
       (p ++ [aa]) ∈ expand (dict_keys mt) (leader_board st')).
Proof.
  intros Hbody Hmx Hp Hmass. unfold loop_body in Hbody.
  apply bind_Ok_inv in Hbody as ([[leader score] board] & Hfilter & Hrest).
  exists leader, score, board. split; [done|].
  assert (∀ q m, q ∈ expand (dict_keys mt) (leader_board st) →
            peptide_mass q mt = Ok m → m ≤ mx → q ∈ board) as Hkeep
    by (intros q m; by eapply mass_filter_keeps).
  assert (p ∈ board) as Hpb by (apply (Hkeep p mx); [done|done|lia]).
  split; [done|]. split; [done|].
  rewrite bool_decide_true in Hrest
    by (destruct board; [by apply elem_of_nil in Hpb|simpl; lia]).
  apply bind_Ok_inv in Hrest as (kept & Htrim & Heq).
  inversion Heq; subst. cbn [leader_board].
  split; [done|]. split; [done|]. split.
  - intros Hlt. rewrite trim_small in Htrim by done. by inversion Htrim; subst.
  - intros Hkept aa Haa. apply elem_of_expand. by exists aa, p.
Qed.

Lemma full_mass_candidate_retained_witness :
  ∃ leader score board,
    mass_filter spectrum_AB table_AB (leader_peptide round1_AB)
      (leader_peptide_score round1_AB)
      (expand (dict_keys table_AB) (leader_board round1_AB))
    = Ok (leader, score, board) ∧
    (∀ q m, q ∈ expand (dict_keys table_AB) (leader_board round1_AB) →
            peptide_mass q table_AB = Ok m → m ≤ 4 → q ∈ board) ∧
    pep "AB" ∈ board ∧
    true = true ∧
    trim board spectrum_AB 1 table_AB = Ok (leader_board round2_AB) ∧
    (Z.of_nat (length board) < 1 → pep "AB" ∈ leader_board round2_AB) ∧
    (pep "AB" ∈ leader_board round2_AB →
     ∀ aa, aa ∈ dict_keys table_AB →
       (pep "AB" ++ [aa])
       ∈ expand (dict_keys table_AB) (leader_board round2_AB)).
Proof.
  apply (full_mass_candidate_retained spectrum_AB 1 table_AB
           round1_AB round2_AB true 4 (pep "AB")).
  - reflexivity.
  - reflexivity.
  - compute_done.
  - reflexivity.
Defined.

(** * Further properties of the code *)

(** ** A symbol the table lacks *)

Lemma dict_get_absent (mt : mass_table) (c : ascii) :
  c ∉ dict_keys mt → dict_get mt c = Raise KeyError.
Proof.
  induction mt as [|[k v] mt IH]; [done|]. cbn [dict_keys fmap list_fmap fst].
  intros [Hne Hc]%not_elem_of_cons. cbn [dict_get].
  rewrite decide_False by congruence. by apply IH.
Qed.

Lemma not_covered_split (mt : mass_table) (p : Peptide) :
  ¬ covered mt p →
  ∃ pre c post, p = pre ++ c :: post ∧ covered mt pre ∧ c ∉ dict_keys mt.
Proof.
  unfold covered. induction p as [|a p IH]; intros Hnot.
  - destruct Hnot. constructor.
  - destruct (decide (a ∈ dict_keys mt)) as [Ha|Ha].
    + destruct IH as (pre & c & post & -> & Hpre & Hc).
      { intros Hp. apply Hnot. by constructor. }
      exists (a :: pre), c, post. split; [done|]. split; [by constructor|done].
    + exists [], a, p. split; [done|]. split; [constructor|done].
Qed.

Lemma covered_split_absent (mt : mass_table) (pre post : Peptide) (c : ascii) :
  c ∉ dict_keys mt → ¬ covered mt (pre ++ c :: post).
Proof.
  intros Hc Hcov. unfold covered in Hcov. rewrite Forall_forall in Hcov.
  apply Hc, Hcov, elem_of_app. right. left.
Qed.

Lemma peptide_mass_not_covered (mt : mass_table) (p : Peptide) :
  ¬ covered mt p → peptide_mass p mt = Raise KeyError.
Proof.
  intros (pre & c & post & -> & Hpre & Hc)%not_covered_split.
  unfold peptide_mass. rewrite for_each_app.
  fold (peptide_mass pre mt). rewrite peptide_mass_covered, bind_Ok by done.
  cbn [for_each]. by rewrite dict_get_absent.
Qed.

(** X1. [peptide_mass] returns the sum of the residue masses when every
    symbol of the peptide is a key of the table, and raises [KeyError]
    otherwise. *)
Theorem peptide_mass_total_or_KeyError (mt : mass_table) (p : Peptide) :
  (covered mt p → peptide_mass p mt = Ok (total (mass_of mt <$> p))) ∧
  (¬ covered mt p → peptide_mass p mt = Raise KeyError).
Proof.
  split; [apply peptide_mass_covered|apply peptide_mass_not_covered].
Qed.

Lemma peptide_mass_total_or_KeyError_witness :
  peptide_mass (pep "AXA") table_AC = Raise KeyError.
Proof.
  apply (proj2 (peptide_mass_total_or_KeyError table_AC (pep "AXA"))).
  unfold covered. compute_done.
Defined.

Lemma py_index_short {A} (l : list A) (i : nat) :
  (length l ≤ i)%nat → py_index l (Z.of_nat i) = Raise IndexError.
Proof. intros H. by rewrite py_index_nat, lookup_ge_None_2. Qed.

Lemma prefix_inner_short (mt : mass_table) (p : Peptide) (i : nat) (c : ascii)
    (ks : list ascii) (pm : list Z) :
  p !! i = Some c → c ∈ ks → (length pm ≤ i)%nat →
  for_each ks (prefix_inner p mt i) pm = Raise IndexError.
Proof.
  intros Hi Hc Hlen. induction ks as [|k ks IH]; [by apply elem_of_nil in Hc|].
  cbn [for_each]. rewrite (prefix_inner_unfold mt p i c) by done.
  destruct (decide (k = c)) as [->|Hne].
  - rewrite py_index_short by lia. done.
  - rewrite bind_Ok. apply IH.
    apply elem_of_cons in Hc as [?|?]; [congruence|done].
Qed.

(** The first loop on a peptide whose first foreign symbol is [c]: the list
    of cumulative masses stops growing at [c], and the next symbol that is a
    key of the table reads past its end. *)
Lemma prefix_loop_not_covered (mt : mass_table) (pre post : Peptide) (c : ascii) :
  dict_wf mt → covered mt pre → c ∉ dict_keys mt →
  ∀ k, (k ≤ length (pre ++ c :: post))%nat →
    let r := for_each (seq 0 k)
               (λ pm i, for_each (dict_keys mt)
                          (prefix_inner (pre ++ c :: post) mt i) pm) [0] in
    ((k ≤ length pre)%nat → ∃ pm, r = Ok pm ∧ length pm = S k) ∧
    ((length pre < k)%nat →
     if decide (Exists (λ a, a ∈ dict_keys mt) (take (k - S (length pre)) post))
     then r = Raise IndexError
     else ∃ pm, r = Ok pm ∧ length pm = S (length pre)).
Proof.
  intros Hwf Hpre Hc. set (p := pre ++ c :: post).
  induction k as [|k IH]; intros Hk; cbn zeta.
  { split; [|lia]. intros _. by exists [0]. }
  specialize (IH ltac:(lia)). cbn zeta in IH. destruct IH as [IH1 IH2].
  rewrite seq_S, for_each_app. cbn [Nat.add for_each].
  destruct (lookup_lt_is_Some_2 p k) as [a Ha]; [lia|].
  split.
  - intros Hle. destruct IH1 as (pm & -> & Hlen); [lia|]. rewrite bind_Ok.
    assert (a ∈ dict_keys mt) as Hkey.
    { unfold covered in Hpre. rewrite Forall_forall in Hpre. apply Hpre.
      apply (list_elem_of_lookup_2 _ k). unfold p in Ha.
      by rewrite lookup_app_l in Ha by lia. }
    destruct (lookup_lt_is_Some_2 pm k) as [v Hv]; [lia|].
    rewrite (prefix_inner_present mt p k a _ _ v) by done.
    rewrite bind_Ok. eexists. split; [done|]. rewrite length_app. simpl. lia.
  - intros Hlt. destruct (decide (k = length pre)) as [->|Hne].
    + destruct IH1 as (pm & -> & Hlen); [lia|]. rewrite bind_Ok.
      replace (S (length pre) - S (length pre))%nat with 0%nat by lia.
      rewrite take_0. rewrite decide_False by (by intros ?%Exists_nil).
      unfold p in Ha. rewrite list_lookup_middle in Ha by done.
      inversion Ha; subst a.
      rewrite (prefix_inner_absent mt p (length pre) c), bind_Ok;
        [by exists pm| |done].
      unfold p. by apply list_lookup_middle.
    + specialize (IH2 ltac:(lia)).
      assert (post !! (k - S (length pre))%nat = Some a) as Hpost.
      { unfold p in Ha. rewrite lookup_app_r in Ha by lia.
        replace (k - length pre)%nat with (S (k - S (length pre))) in Ha by lia.
        done. }
      replace (S k - S (length pre))%nat with (S (k - S (length pre))) by lia.
      rewrite (take_S_r _ _ _ Hpost).
      destruct (decide (Exists _ (take (k - S (length pre)) post))) as [Hex|Hex].
      * rewrite IH2. rewrite decide_True; [done|]. apply Exists_app. by left.
      * destruct IH2 as (pm & -> & Hlen). rewrite bind_Ok.
        destruct (decide (a ∈ dict_keys mt)) as [Hkey|Hkey].
        -- rewrite decide_True by (apply Exists_app; right; by constructor).
           by rewrite (prefix_inner_short mt p k a) by (try done; lia).
        -- rewrite decide_False.
           ++ rewrite (prefix_inner_absent mt p k a), bind_Ok by done.
              by exists pm.
           ++ intros [?|Hex']%Exists_app; [done|].
              apply Exists_cons in Hex' as [?|?%Exists_nil]; done.
Qed.

(** The second loop on a list of cumulative masses that is too short. *)
Lemma fragments_inner_short (pm : list Z) (first : res Z) (y : Z) :
  first = Ok y →
  ∀ m a spec, (a ≤ length pm < a + m)%nat →
    for_each (seq a m) (λ spec j,
      pj ← py_index pm (Z.of_nat j);
      pi ← first;
      Ok (spec ++ [pj - pi])) spec = Raise IndexError.
Proof.
  intros ->. induction m as [|m IH]; intros a spec Ha; [lia|].
  cbn [seq for_each]. destruct (decide (a = length pm)) as [->|Hne].
  - rewrite (py_index_short pm (length pm)) by lia. done.
  - destruct (lookup_lt_is_Some_2 pm a) as [x Hx]; [lia|].
    rewrite (py_index_lookup _ _ _ Hx), !bind_Ok.
    apply IH. lia.
Qed.

(** X2. A peptide with a symbol the table lacks makes [linear_spectrum]
    raise [IndexError] (never [KeyError]): the list of cumulative masses
    is one entry short at the first such symbol.  [cyclic_spectrum] raises
    [IndexError] too when a later symbol is a key of the table, and
    [KeyError], from its own mass loop, when none is. *)
Theorem spectrum_of_foreign_symbol (mt : mass_table) (pre post : Peptide)
    (c : ascii) :
  dict_wf mt → covered mt pre → c ∉ dict_keys mt →
  linear_spectrum (pre ++ c :: post) mt = Raise IndexError ∧
  cyclic_spectrum (pre ++ c :: post) mt
  = Raise (if decide (Exists (λ a, a ∈ dict_keys mt) post)
           then IndexError else KeyError).
Proof.
  intros Hwf Hpre Hc.
  pose proof (prefix_loop_not_covered mt pre post c Hwf Hpre Hc
                (length (pre ++ c :: post)) ltac:(done)) as [_ Hloop].
  pose proof (covered_split_absent mt pre post c Hc) as Hnot.
  assert (length (pre ++ c :: post) = S (length pre + length post)) as Hlen
    by (rewrite length_app; simpl; lia).
  remember (pre ++ c :: post) as p eqn:Hp.
  specialize (Hloop ltac:(lia)).
  rewrite take_ge in Hloop by lia.
  unfold linear_spectrum, cyclic_spectrum, prefix_masses, py_range.
  rewrite !Nat.sub_0_r.
  destruct (decide (Exists _ post)) as [Hex|Hex].
  - by rewrite Hloop.
  - destruct Hloop as (pm & -> & Hpm). rewrite !bind_Ok. split.
    + rewrite (seq_head 0 (length p)) by lia. cbn [for_each].
      replace (length p + 1 - (0 + 1))%nat with (length p) by lia.
      change (0 + 1)%nat with 1%nat.
      destruct (lookup_lt_is_Some_2 pm 0) as [y Hy]; [lia|].
      by rewrite (fragments_inner_short pm _ y (py_index_lookup _ _ _ Hy)
                    (length p) 1 [0]) by lia.
    + by rewrite peptide_mass_not_covered.
Qed.

Lemma spectrum_of_foreign_symbol_witness :
  linear_spectrum (pep "AXA") table_AC = Raise IndexError ∧
  cyclic_spectrum (pep "AXA") table_AC = Raise IndexError.
Proof.
  apply (spectrum_of_foreign_symbol table_AC (pep "A") (pep "A") "X"%char);
    table_facts.
Defined.

(** With the foreign symbol last, only the mass loop of [cyclic_spectrum]
    meets it. *)
Example cyclic_spectrum_foreign_last :
  cyclic_spectrum (pep "AX") table_AC = Raise KeyError.
Proof. reflexivity. Qed.

(** ** More on scoring *)

Lemma sum_list_with_le (f g : Z → nat) (D : list Z) :
  (∀ v, v ∈ D → (f v ≤ g v)%nat) →
  (sum_list_with f D ≤ sum_list_with g D)%nat.
Proof.
  induction D as [|a D IH]; intros H; [done|]. simpl.
  specialize (H a ltac:(left)) as Ha.
  assert (sum_list_with f D ≤ sum_list_with g D)%nat
    by (apply IH; intros v Hv; apply H; by right).
  lia.
Qed.

(** Summing the multiplicities of the values of [D] in [l] counts the
    entries of [l] that lie in [D]. *)
Lemma sum_count_le_length (l D : list Z) :
  NoDup D → (sum_list_with (λ v, py_count v l) D ≤ length l)%nat.
Proof.
  intros HD. induction l as [|x l IH].
  - rewrite sum_list_with_zero; [done|]. by intros v _.
  - cbn [length]. destruct (decide (x ∈ D)) as [Hx|Hx].
    + rewrite (sum_list_with_succ (λ v, py_count v (x :: l))
                 (λ v, py_count v l) D x); [lia|done|done| |].
      * intros v Hv. unfold py_count. by rewrite count_occ_cons_neq.
      * unfold py_count. by rewrite count_occ_cons_eq.
    + rewrite (sum_list_with_ext (λ v, py_count v (x :: l))
                 (λ v, py_count v l) D); [lia|].
      intros v Hv. unfold py_count. rewrite count_occ_cons_neq; [done|].
      by intros ->.
Qed.

Lemma sum_count_length (l D : list Z) :
  NoDup D → (∀ v, v ∈ l → v ∈ D) →
  sum_list_with (λ v, py_count v l) D = length l.
Proof.
  intros HD. induction l as [|x l IH]; intros Hsub.
  - rewrite sum_list_with_zero; [done|]. by intros v _.
  - cbn [length].
    rewrite (sum_list_with_succ (λ v, py_count v (x :: l))
               (λ v, py_count v l) D x); try done.
    + rewrite IH; [done|]. intros v Hv. apply Hsub. by right.
    + apply Hsub. left.
    + intros v Hv. unfold py_count. by rewrite count_occ_cons_neq.
    + unfold py_count. by rewrite count_occ_cons_eq.
Qed.

Lemma py_count_Permutation (x : Z) (l1 l2 : list Z) :
  l1 ≡ₚ l2 → py_count x l1 = py_count x l2.
Proof. intros H. unfold py_count. revert x. by apply Permutation_count_occ. Qed.

(** The values summed over may be any duplicate-free list that holds the
    theoretical masses. *)
Lemma intersection_size_index (t s D : list Z) :
  NoDup D → (∀ v, v ∈ t → v ∈ D) →
  multiset_intersection_size t s
  = Z.of_nat (sum_list_with (λ v, Nat.min (py_count v t) (py_count v s)) D).
Proof.
  intros HD Hsub. pose proof (scoring_intersection t s) as H.
  destruct (scoring_loop t D HD Hsub 0 s) as [copy' Hloop].
  rewrite Hloop, bind_Ok in H. by inversion H.
Qed.

Lemma intersection_size_own (t s : list Z) :
  multiset_intersection_size t s
  = Z.of_nat (sum_list_with (λ v, Nat.min (py_count v t) (py_count v s))
                (remove_dups t)).
Proof.
  apply intersection_size_index; [apply NoDup_remove_dups|].
  intros v Hv. by apply elem_of_remove_dups.
Qed.

Lemma intersection_size_bounds (t s : list Z) :
  0 ≤ multiset_intersection_size t s ≤ Z.of_nat (length t) ∧
  multiset_intersection_size t s ≤ Z.of_nat (length s).
Proof.
  rewrite intersection_size_own.
  pose proof (sum_count_le_length t (remove_dups t) (NoDup_remove_dups _)).
  pose proof (sum_count_le_length s (remove_dups t) (NoDup_remove_dups _)).
  pose proof (sum_list_with_le
    (λ v, Nat.min (py_count v t) (py_count v s)) (λ v, py_count v t)
    (remove_dups t) ltac:(intros; simpl; lia)).
  pose proof (sum_list_with_le
    (λ v, Nat.min (py_count v t) (py_count v s)) (λ v, py_count v s)
    (remove_dups t) ltac:(intros; simpl; lia)).
  lia.
Qed.

(** The intersection is the whole theoretical spectrum exactly when no mass
    occurs more often in it than in the target. *)
Lemma intersection_size_full (t s : list Z) :
  multiset_intersection_size t s = Z.of_nat (length t) ↔
  ∀ v, (py_count v t ≤ py_count v s)%nat.
Proof.
  rewrite intersection_size_own.
  rewrite <- (sum_count_length t (remove_dups t));
    [|apply NoDup_remove_dups|by intros v ?%elem_of_remove_dups].
  assert (∀ D : list Z,
    sum_list_with (λ v, Nat.min (py_count v t) (py_count v s)) D
    = sum_list_with (λ v, py_count v t) D ↔
    ∀ v, v ∈ D → (py_count v t ≤ py_count v s)%nat) as Hsum.
  { induction D as [|a D IH].
    - split; [by intros _ v ?%elem_of_nil|done].
    - cbn [sum_list_with].
      pose proof (sum_list_with_le
        (λ v, Nat.min (py_count v t) (py_count v s)) (λ v, py_count v t) D
        ltac:(intros; simpl; lia)).
      split.
      + intros Heq v [->|Hv]%elem_of_cons; [lia|]. apply IH; [lia|done].
      + intros Hall.
        assert (sum_list_with (λ v, Nat.min (py_count v t) (py_count v s)) D
                = sum_list_with (λ v, py_count v t) D) as ->
          by (apply IH; intros v Hv; apply Hall; by right).
        specialize (Hall a ltac:(left)). lia. }
  split.
  - intros Heq%Nat2Z.inj v. destruct (decide (v ∈ t)) as [Hv|Hv].
    + apply (proj1 (Hsum _) Heq v). by apply elem_of_remove_dups.
    + apply py_count_zero_iff in Hv. lia.
  - intros Hall. f_equal. apply Hsum. auto.
Qed.

Lemma score_of_intersection (mt : mass_table) (p : Peptide)
    (spectrum : list Z) (cyclic : bool) :
  dict_wf mt → covered mt p →
  score_of spectrum mt cyclic p
  = multiset_intersection_size
      (sorted (if cyclic
               then cyclic_masses (prefix_sum mt p) (total_mass mt p) (length p)
               else linear_masses (prefix_sum mt p) (length p)))
      spectrum.
Proof.
  intros Hwf Hcov.
  destruct (cyclopeptide_scoring_covered mt p spectrum cyclic Hwf Hcov)
    as (t & Ht & Hs).
  rewrite score_of_covered in Hs by done. inversion Hs as [Hs'].
  destruct cyclic.
  - rewrite cyclic_spectrum_covered in Ht by done. inversion Ht; subst t. done.
  - rewrite linear_spectrum_covered in Ht by done. inversion Ht; subst t. done.
Qed.

(** X3. The score of a peptide over the table's symbols lies between 0 and
    the number of peaks of the target, and is at most the number of masses
    of the peptide's theoretical spectrum. *)
Theorem score_bounds (mt : mass_table) (p : Peptide) (spectrum : list Z)
    (cyclic : bool) :
  dict_wf mt → covered mt p →
  ∃ theoretical score,
    (if cyclic then cyclic_spectrum p mt else linear_spectrum p mt)
    = Ok theoretical ∧
    cyclopeptide_scoring p spectrum cyclic mt = Ok score ∧
    0 ≤ score ≤ Z.of_nat (length spectrum) ∧
    score ≤ Z.of_nat (length theoretical).
Proof.
  intros Hwf Hcov.
  destruct (cyclopeptide_scoring_covered mt p spectrum cyclic Hwf Hcov)
    as (t & Ht & Hs).
  exists t, (multiset_intersection_size t spectrum).
  pose proof (intersection_size_bounds t spectrum). repeat split; try done; lia.
Qed.

Lemma score_bounds_witness :
  ∃ theoretical score,
    cyclic_spectrum peptide_ACA table_AC = Ok theoretical ∧
    cyclopeptide_scoring peptide_ACA [71; 71; 9] true table_AC = Ok score ∧
    0 ≤ score ≤ Z.of_nat (length [71; 71; 9]) ∧
    score ≤ Z.of_nat (length theoretical).
Proof.
  apply (score_bounds table_AC peptide_ACA [71; 71; 9] true); table_facts.
Defined.

(** X4. Scored against its own theoretical spectrum a peptide gets the full
    score, the number of masses of that spectrum; and against any target it
    gets the full score exactly when no mass occurs more often in the
    theoretical spectrum than in the target. *)
Theorem full_score_iff (mt : mass_table) (p : Peptide) (cyclic : bool) :
  dict_wf mt → covered mt p →
  ∃ theoretical,
    (if cyclic then cyclic_spectrum p mt else linear_spectrum p mt)
    = Ok theoretical ∧
    cyclopeptide_scoring p theoretical cyclic mt
    = Ok (Z.of_nat (length theoretical)) ∧
    ∀ spectrum,
      cyclopeptide_scoring p spectrum cyclic mt
      = Ok (Z.of_nat (length theoretical)) ↔
      ∀ v, (py_count v theoretical ≤ py_count v spectrum)%nat.
Proof.
  intros Hwf Hcov.
  destruct (cyclopeptide_scoring_covered mt p [] cyclic Hwf Hcov)
    as (t & Ht & _).
  exists t. split; [done|].
  assert (∀ spectrum,
    cyclopeptide_scoring p spectrum cyclic mt
    = Ok (multiset_intersection_size t spectrum)) as Hscore.
  { intros spectrum.
    destruct (cyclopeptide_scoring_covered mt p spectrum cyclic Hwf Hcov)
      as (t' & Ht' & Hs). rewrite Ht in Ht'. by inversion Ht'; subst. }
  split.
  - rewrite Hscore. f_equal. by apply intersection_size_full.
  - intros spectrum. rewrite Hscore, <- intersection_size_full.
    split; [by intros [=]|by intros ->].
Qed.

Lemma full_score_iff_witness :
  ∃ theoretical,
    cyclic_spectrum peptide_ACA table_AC = Ok theoretical ∧
    cyclopeptide_scoring peptide_ACA theoretical true table_AC
    = Ok (Z.of_nat (length theoretical)) ∧
    ∀ spectrum,
      cyclopeptide_scoring peptide_ACA spectrum true table_AC
      = Ok (Z.of_nat (length theoretical)) ↔
      ∀ v, (py_count v theoretical ≤ py_count v spectrum)%nat.
Proof. apply (full_score_iff table_AC peptide_ACA true); table_facts. Defined.

(** X5. The order of the peaks in the target spectrum does not matter:
    scoring against a permutation of the target gives the same result (the
    same score, or the same exception). *)
Theorem score_permutation_invariant (mt : mass_table) (p : Peptide)
    (spectrum spectrum' : list Z) (cyclic : bool) :
  spectrum ≡ₚ spectrum' →
  cyclopeptide_scoring p spectrum cyclic mt
  = cyclopeptide_scoring p spectrum' cyclic mt.
Proof.
  intros Hperm. unfold cyclopeptide_scoring.
  destruct (if cyclic then cyclic_spectrum p mt else linear_spectrum p mt)
    as [t|e]; [|done].
  rewrite !bind_Ok, !scoring_intersection. f_equal.
  rewrite !intersection_size_own. f_equal. apply sum_list_with_ext.
  intros v _. by rewrite (py_count_Permutation v _ _ Hperm).
Qed.

Lemma score_permutation_invariant_witness :
  cyclopeptide_scoring peptide_ACA [71; 103; 71] true table_AC
  = cyclopeptide_scoring peptide_ACA [103; 71; 71] true table_AC.
Proof.
  apply (score_permutation_invariant table_AC peptide_ACA
           [71; 103; 71] [103; 71; 71] true).
  apply (Permutation_swap 103 71 [71]).
Defined.

(** X6. Peaks added to the target never lower a score. *)
Theorem score_monotone_in_target (mt : mass_table) (p : Peptide)
    (spectrum extra : list Z) (cyclic : bool) :
  dict_wf mt → covered mt p →
  ∃ score score',
    cyclopeptide_scoring p spectrum cyclic mt = Ok score ∧
    cyclopeptide_scoring p (spectrum ++ extra) cyclic mt = Ok score' ∧
    score ≤ score'.
Proof.
  intros Hwf Hcov.
  destruct (cyclopeptide_scoring_covered mt p spectrum cyclic Hwf Hcov)
    as (t & Ht & Hs).
  destruct (cyclopeptide_scoring_covered mt p (spectrum ++ extra) cyclic
              Hwf Hcov) as (t' & Ht' & Hs').
  rewrite Ht in Ht'. inversion Ht'; subst t'.
  eexists _, _. split; [done|]. split; [done|].
  rewrite !intersection_size_own. apply inj_le, sum_list_with_le.
  intros v _. rewrite py_count_app. lia.
Qed.

Lemma score_monotone_in_target_witness :
  ∃ score score',
    cyclopeptide_scoring peptide_ACA [71] false table_AC = Ok score ∧
    cyclopeptide_scoring peptide_ACA ([71] ++ [71; 5]) false table_AC
    = Ok score' ∧
    score ≤ score'.
Proof.
  apply (score_monotone_in_target table_AC peptide_ACA [71] [71; 5] false);
    table_facts.
Defined.

Lemma py_count_concat_fmap_le {A} (v : Z) (f g : A → list Z) (l : list A) :
  (∀ a, a ∈ l → (py_count v (f a) ≤ py_count v (g a))%nat) →
  (py_count v (concat (f <$> l)) ≤ py_count v (concat (g <$> l)))%nat.
Proof.
  induction l as [|a l IH]; intros H; [done|].
  rewrite !fmap_cons. cbn [concat]. rewrite !py_count_app.
  specialize (H a ltac:(left)) as Ha.
  assert (py_count v (concat (f <$> l)) ≤ py_count v (concat (g <$> l)))%nat
    by (apply IH; intros a' Ha'; apply H; by right).
  lia.
Qed.

(** Every mass of the linear spectrum is a mass of the cyclic spectrum, with
    at least the same multiplicity. *)
Lemma linear_in_cyclic_masses (P : nat → Z) (T : Z) (n : nat) (v : Z) :
  (py_count v (linear_masses P n) ≤ py_count v (cyclic_masses P T n))%nat.
Proof.
  unfold linear_masses, cyclic_masses.
  change (?x :: ?l) with ([x] ++ l). rewrite !py_count_app.
  apply Nat.add_le_mono_l, py_count_concat_fmap_le. intros i _.
  unfold linear_fragments, cyclic_fragments.
  rewrite <- (concat_singletons (λ j, P j - P i)).
  apply py_count_concat_fmap_le. intros j _. unfold cyclic_pair.
  change (py_count v ([(P j - P i)%Z] ++ [])
          ≤ py_count v ([(P j - P i)%Z] ++
              (if bool_decide (0 < i)%nat && bool_decide (j < n)%nat
               then [(T - (P j - P i))%Z] else [])))%nat.
  rewrite !py_count_app. unfold py_count at 2. simpl. lia.
Qed.

(** X7. The cyclic score of a peptide is never below its linear score. *)
Theorem linear_score_le_cyclic (mt : mass_table) (p : Peptide)
    (spectrum : list Z) :
  dict_wf mt → covered mt p →
  ∃ linear cyclic,
    cyclopeptide_scoring p spectrum false mt = Ok linear ∧
    cyclopeptide_scoring p spectrum true mt = Ok cyclic ∧
    linear ≤ cyclic.
Proof.
  intros Hwf Hcov. exists (score_of spectrum mt false p),
    (score_of spectrum mt true p).
  split; [by apply score_of_covered|]. split; [by apply score_of_covered|].
  rewrite !score_of_intersection by done.
  set (lin := sorted (linear_masses _ _)). set (cyc := sorted (cyclic_masses _ _ _)).
  assert (∀ v, (py_count v lin ≤ py_count v cyc)%nat) as Hle.
  { intros v. unfold lin, cyc. rewrite !sorted_count.
    apply linear_in_cyclic_masses. }
  rewrite (intersection_size_index lin spectrum (remove_dups cyc)),
          (intersection_size_index cyc spectrum (remove_dups cyc)).
  - apply inj_le, sum_list_with_le. intros v _. specialize (Hle v). lia.
  - apply NoDup_remove_dups.
  - by intros v ?%elem_of_remove_dups.
  - apply NoDup_remove_dups.
  - intros v Hv. apply elem_of_remove_dups.
    destruct (decide (v ∈ cyc)) as [|Hn]; [done|].
    apply py_count_zero_iff in Hn. specialize (Hle v).
    assert (py_count v lin = 0%nat) as Hz by lia.
    by apply py_count_zero_iff in Hz.
Qed.

Lemma linear_score_le_cyclic_witness :
  ∃ linear cyclic,
    cyclopeptide_scoring peptide_ACA [0; 71; 142] false table_AC = Ok linear ∧
    cyclopeptide_scoring peptide_ACA [0; 71; 142] true table_AC = Ok cyclic ∧
    linear ≤ cyclic.
Proof.
  apply (linear_score_le_cyclic table_AC peptide_ACA [0; 71; 142]); table_facts.
Defined.

(** ** The consistency check *)

Lemma consistent_loop_true (lin spectrum rest : list Z) :
  consistent_loop lin spectrum rest = true ↔
  ∀ v, v ∈ rest → (py_count v lin ≤ py_count v spectrum)%nat.
Proof.
  induction rest as [|x rest IH]; cbn [consistent_loop].
  - split; [by intros _ v ?%elem_of_nil|done].
  - destruct (Nat.ltb_spec (py_count x spectrum) (py_count x lin)) as [Hlt|Hge].
    + split; [done|]. intros H. specialize (H x ltac:(left)). lia.
    + rewrite IH. split.
      * intros H v [->|Hv]%elem_of_cons; [done|by apply H].
      * intros H v Hv. apply H. by right.
Qed.

Lemma consistent_loop_all (lin spectrum : list Z) :
  consistent_loop lin spectrum lin = true ↔
  ∀ v, (py_count v lin ≤ py_count v spectrum)%nat.
Proof.
  rewrite consistent_loop_true. split; [|by auto].
  intros H v. destruct (decide (v ∈ lin)) as [Hv|Hv]; [by apply H|].
  apply py_count_zero_iff in Hv. lia.
Qed.

(** X8. On a peptide over the table's symbols [consistent_spectrum] answers
    [True] exactly when every mass occurs in the target at least as often as
    in the peptide's linear spectrum, which is exactly when the peptide's
    linear score is the full size of its linear spectrum. *)
Theorem consistent_iff_full_linear_score (mt : mass_table) (p : Peptide)
    (spectrum : list Z) :
  dict_wf mt → covered mt p →
  ∃ lin b,
    linear_spectrum p mt = Ok lin ∧
    consistent_spectrum p spectrum mt = Ok b ∧
    (b = true ↔ ∀ v, (py_count v lin ≤ py_count v spectrum)%nat) ∧
    (b = true ↔
     cyclopeptide_scoring p spectrum false mt = Ok (Z.of_nat (length lin))).
Proof.
  intros Hwf Hcov.
  destruct (cyclopeptide_scoring_covered mt p spectrum false Hwf Hcov)
    as (lin & Hlin & Hs).
  exists lin, (consistent_loop lin spectrum lin).
  split; [done|]. split; [unfold consistent_spectrum; by rewrite Hlin|].
  split; [apply consistent_loop_all|].
  rewrite consistent_loop_all, <- intersection_size_full, Hs.
  split; [by intros ->|by intros [=]].
Qed.

Lemma consistent_iff_full_linear_score_witness :
  ∃ lin b,
    linear_spectrum peptide_ACA table_AC = Ok lin ∧
    consistent_spectrum peptide_ACA [0; 71; 71; 103] table_AC = Ok b ∧
    (b = true ↔
     ∀ v, (py_count v lin ≤ py_count v [0; 71; 71; 103]%Z)%nat) ∧
    (b = true ↔
     cyclopeptide_scoring peptide_ACA [0; 71; 71; 103] false table_AC
     = Ok (Z.of_nat (length lin))).
Proof.
  apply (consistent_iff_full_linear_score table_AC peptide_ACA
           [0; 71; 71; 103]); table_facts.
Defined.

Lemma consistent_spectrum_covered (mt : mass_table) (p : Peptide)
    (spectrum : list Z) :
  dict_wf mt → covered mt p →
  consistent_spectrum p spectrum mt = Ok true ↔
  ∀ v, (py_count v (linear_masses (prefix_sum mt p) (length p))
        ≤ py_count v spectrum)%nat.
Proof.
  intros Hwf Hcov. unfold consistent_spectrum.
  rewrite linear_spectrum_covered, bind_Ok by done.
  split.
  - intros [= H]. intros v.
    pose proof (proj1 (consistent_loop_all _ _) H v) as Hv.
    by rewrite sorted_count in Hv.
  - intros H. f_equal. apply consistent_loop_all. intros v.
    by rewrite sorted_count.
Qed.

Lemma prefix_sum_app_l (mt : mass_table) (p q : Peptide) (k : nat) :
  (k ≤ length p)%nat → prefix_sum mt (p ++ q) k = prefix_sum mt p k.
Proof. intros Hk. unfold prefix_sum. by rewrite take_app_le. Qed.

(** The linear spectrum of a peptide is contained, with multiplicities, in
    that of the peptide extended by one symbol. *)
Lemma linear_masses_extend (P P' : nat → Z) (n : nat) (v : Z) :
  (∀ k, (k ≤ n)%nat → P' k = P k) →
  (py_count v (linear_masses P n) ≤ py_count v (linear_masses P' (S n)))%nat.
Proof.
  intros Heq. unfold linear_masses, py_range. rewrite !Nat.sub_0_r.
  change (?x :: ?l) with ([x] ++ l). rewrite !py_count_app.
  apply Nat.add_le_mono_l. rewrite seq_S, fmap_app, concat_app, py_count_app.
  etrans; [|apply Nat.le_add_r].
  assert (∀ l, (∀ i, i ∈ l → (i < n)%nat) →
    concat (linear_fragments P n <$> l)
    = concat ((λ i, (λ j, P' j - P' i) <$> seq (i + 1) (n - i)) <$> l)) as Hsame.
  { induction l as [|i l IH]; intros Hl; [done|].
    rewrite !fmap_cons. cbn [concat]. rewrite IH
      by (intros i' Hi'; apply Hl; by right).
    f_equal. unfold linear_fragments, py_range.
    replace (n + 1 - (i + 1))%nat with (n - i)%nat by lia.
    apply list_fmap_ext. intros k j Hj.
    apply lookup_seq in Hj as [-> Hj].
    specialize (Hl i ltac:(left)). by rewrite !Heq by lia. }
  rewrite Hsame by (intros i Hi%elem_of_seq; lia).
  apply py_count_concat_fmap_le. intros i [_ Hi]%elem_of_seq.
  unfold linear_fragments, py_range.
  replace (S n + 1 - (i + 1))%nat with (S (n - i)) by lia.
  rewrite seq_S, fmap_app, py_count_app. lia.
Qed.

Lemma consistent_prefix_step (mt : mass_table) (p : Peptide) (a : ascii)
    (spectrum : list Z) :
  dict_wf mt → covered mt (p ++ [a]) →
  consistent_spectrum (p ++ [a]) spectrum mt = Ok true →
  consistent_spectrum p spectrum mt = Ok true.
Proof.
  intros Hwf Hcov.
  assert (covered mt p) as Hp by (by apply Forall_app in Hcov as [? _]).
  rewrite !consistent_spectrum_covered by done.
  intros H v. etrans; [|apply (H v)].
  rewrite length_app. cbn [length]. rewrite Nat.add_1_r.
  apply linear_masses_extend. intros k Hk. by apply prefix_sum_app_l.
Qed.

(** X9. Consistency is inherited by prefixes: if a peptide over the table's
    symbols is consistent with the target, so is each peptide it was grown
    from by appending symbols. *)
Theorem consistent_prefix (mt : mass_table) (p q : Peptide)
    (spectrum : list Z) :
  dict_wf mt → covered mt (p ++ q) →
  consistent_spectrum (p ++ q) spectrum mt = Ok true →
  consistent_spectrum p spectrum mt = Ok true.
Proof.
  intros Hwf. induction q as [|a q IH] using rev_ind.
  - by rewrite app_nil_r.
  - rewrite app_assoc. intros Hcov Hc. apply IH.
    + by apply Forall_app in Hcov as [? _].
    + by eapply consistent_prefix_step.
Qed.

Lemma consistent_prefix_witness :
  consistent_spectrum (pep "AC") [0; 71; 71; 103; 174; 174; 245] table_AC
  = Ok true.
Proof.
  apply (consistent_prefix table_AC (pep "AC") (pep "A")
           [0; 71; 71; 103; 174; 174; 245]).
  - table_facts.
  - unfold covered. compute_done.
  - reflexivity.
Defined.

Lemma linear_masses_has_total (P : nat → Z) (n : nat) :
  P 0%nat = 0 → P n ∈ linear_masses P n.
Proof.
  intros HP0. unfold linear_masses. destruct (decide (n = 0%nat)) as [->|Hn].
  - rewrite HP0. left.
  - right. apply (elem_of_concat_fmap _ _ 0%nat).
    + apply elem_of_py_range. lia.
    + unfold linear_fragments. apply list_elem_of_fmap. exists n. split.
      * lia.
      * apply elem_of_py_range. lia.
Qed.

(** X10. A peptide can only be consistent with a target that has the peak 0
    and a peak at the peptide's own mass. *)
Theorem consistent_needs_endpoints (mt : mass_table) (p : Peptide)
    (spectrum : list Z) :
  dict_wf mt → covered mt p →
  consistent_spectrum p spectrum mt = Ok true →
  ∃ T, peptide_mass p mt = Ok T ∧ 0 ∈ spectrum ∧ T ∈ spectrum.
Proof.
  intros Hwf Hcov Hc. exists (total_mass mt p).
  split; [by apply peptide_mass_covered|].
  rewrite consistent_spectrum_covered in Hc by done.
  assert (∀ v, v ∈ linear_masses (prefix_sum mt p) (length p) → v ∈ spectrum)
    as Hin.
  { intros v Hv. destruct (decide (v ∈ spectrum)) as [|Hn]; [done|].
    apply py_count_zero_iff in Hn. specialize (Hc v).
    assert (py_count v (linear_masses (prefix_sum mt p) (length p)) = 0%nat)
      as Hz by lia.
    by apply py_count_zero_iff in Hz. }
  split.
  - apply Hin. unfold linear_masses. left.
  - apply Hin. rewrite <- prefix_sum_length.
    apply linear_masses_has_total, prefix_sum_0.
Qed.

Lemma consistent_needs_endpoints_witness :
  ∃ T, peptide_mass peptide_ACA table_AC = Ok T ∧
       0 ∈ [0; 71; 71; 103; 174; 174; 245] ∧
       T ∈ [0; 71; 71; 103; 174; 174; 245].
Proof.
  apply (consistent_needs_endpoints table_AC peptide_ACA
           [0; 71; 71; 103; 174; 174; 245]).
  - table_facts.
  - table_facts.
  - reflexivity.
Defined.

(** ** The mass of a grown peptide *)

Lemma total_mass_app (mt : mass_table) (p q : Peptide) :
  total_mass mt (p ++ q) = total_mass mt p + total_mass mt q.
Proof. unfold total_mass. by rewrite fmap_app, total_app. Qed.

Lemma total_mass_positive (mt : mass_table) (q : Peptide) :
  positive_masses mt → covered mt q → q ≠ [] → 0 < total_mass mt q.
Proof.
  intros Hpos Hcov Hq. pose proof (total_mass_length mt q Hpos Hcov).
  destruct q; [done|]. simpl in *. lia.
Qed.

(** X11. The mass of a concatenation is the sum of the masses of its parts;
    over positive residue masses a peptide grown by at least one symbol is
    strictly heavier, so a candidate pruned for its mass could not have
    come back under the bound. *)
Theorem peptide_mass_app (mt : mass_table) (p q : Peptide) :
  covered mt (p ++ q) →
  ∃ a b,
    peptide_mass p mt = Ok a ∧ peptide_mass q mt = Ok b ∧
    peptide_mass (p ++ q) mt = Ok (a + b) ∧
    (positive_masses mt → q ≠ [] → a < a + b).
Proof.
  intros Hcov. pose proof Hcov as [Hp Hq]%Forall_app.
  exists (total_mass mt p), (total_mass mt q).
  split; [by apply peptide_mass_covered|].
  split; [by apply peptide_mass_covered|].
  split; [by rewrite peptide_mass_covered, total_mass_app|].
  intros Hpos Hne. pose proof (total_mass_positive mt q Hpos Hq Hne). lia.
Qed.

Lemma peptide_mass_app_witness :
  ∃ a b,
    peptide_mass (pep "AC") table_AC = Ok a ∧
    peptide_mass (pep "A") table_AC = Ok b ∧
    peptide_mass (pep "AC" ++ pep "A") table_AC = Ok (a + b) ∧
    (positive_masses table_AC → pep "A" ≠ [] → a < a + b).
Proof.
  apply (peptide_mass_app table_AC (pep "AC") (pep "A")).
  unfold covered. compute_done.
Defined.

(** ** More on trimming *)

Lemma py_index_from_end {A} (l : list A) (i : Z) :
  i < 0 → 0 ≤ i + Z.of_nat (length l) →
  py_index l i = py_index l (i + Z.of_nat (length l)).
Proof.
  intros Hneg Hpos. unfold py_index.
  destruct (Z.ltb_spec i 0); [|lia].
  destruct (Z.ltb_spec (i + Z.of_nat (length l)) 0); [lia|]. done.
Qed.

Lemma py_index_before_start {A} (l : list A) (i : Z) :
  i + Z.of_nat (length l) < 0 → py_index l i = Raise IndexError.
Proof.
  intros Hneg. unfold py_index.
  destruct (Z.ltb_spec i 0); [|lia].
  by destruct (Z.leb_spec 0 (i + Z.of_nat (length l))); [lia|].
Qed.

Lemma trim_whole_board (mt : mass_table) (spectrum : list Z)
    (lb : list Peptide) :
  dict_wf mt → NoDup lb → Forall (covered mt) lb → lb ≠ [] →
  trim lb spectrum (Z.of_nat (length lb)) mt = Ok lb.
Proof.
  intros Hwf Hnd Hcov Hne. rewrite trim_large by (try done; lia).
  assert (1 ≤ Z.of_nat (length lb)) by (destruct lb; [done|simpl; lia]).
  destruct (rank_threshold (score_of spectrum mt false <$> lb)
              (Z.of_nat (length lb))) as (thr & _ & -> & _ & Hall);
    [rewrite length_fmap; lia|].
  rewrite bind_Ok. f_equal. apply filter_Forall_id.
  rewrite length_fmap in Hall.
  by apply (Forall_fmap (score_of spectrum mt false) (λ x, thr ≤ x)), Hall.
Qed.

(** X12. A retention count [n ≤ 0] is not "keep nothing": on a board of [L]
    pairwise distinct peptides the rank index [n - 1] counts from the end of
    the sorted scores, so [trim] behaves as for the count [n + L]; with
    [n = 0] it keeps the whole board, and with [n ≤ -L] it raises
    [IndexError]. *)
Theorem trim_nonpositive_count (mt : mass_table) (spectrum : list Z)
    (lb : list Peptide) (n : Z) :
  dict_wf mt → NoDup lb → Forall (covered mt) lb → n ≤ 0 →
  (n ≤ - Z.of_nat (length lb) → trim lb spectrum n mt = Raise IndexError) ∧
  (- Z.of_nat (length lb) < n →
   trim lb spectrum n mt = trim lb spectrum (n + Z.of_nat (length lb)) mt) ∧
  (n = 0 → lb ≠ [] → trim lb spectrum n mt = Ok lb).
Proof.
  intros Hwf Hnd Hcov Hn.
  assert (length (sorted_reverse (score_of spectrum mt false <$> lb))
          = length lb) as Hlen
    by by rewrite sorted_reverse_Permutation, length_fmap.
  assert (- Z.of_nat (length lb) < n →
    trim lb spectrum n mt = trim lb spectrum (n + Z.of_nat (length lb)) mt)
    as Hshift.
  { intros Hlo. rewrite !trim_large by (try done; lia).
    rewrite py_index_from_end by (rewrite ?Hlen; lia).
    rewrite Hlen. do 2 f_equal. lia. }
  split; [|split; [done|]].
  - intros Hlo. rewrite trim_large by (try done; lia).
    by rewrite py_index_before_start by (rewrite Hlen; lia).
  - intros -> Hne. rewrite Hshift by (destruct lb; [done|simpl; lia]).
    rewrite Z.add_0_l. by apply trim_whole_board.
Qed.

Lemma trim_nonpositive_count_witness :
  (0 ≤ - Z.of_nat (length [pep "AA"; pep "AB"]) →
   trim [pep "AA"; pep "AB"] spectrum_AB 0 table_AB = Raise IndexError) ∧
  (- Z.of_nat (length [pep "AA"; pep "AB"]) < 0 →
   trim [pep "AA"; pep "AB"] spectrum_AB 0 table_AB
   = trim [pep "AA"; pep "AB"] spectrum_AB
       (0 + Z.of_nat (length [pep "AA"; pep "AB"])) table_AB) ∧
  (0 = 0 → [pep "AA"; pep "AB"] ≠ [] →
   trim [pep "AA"; pep "AB"] spectrum_AB 0 table_AB
   = Ok [pep "AA"; pep "AB"]).
Proof.
  apply (trim_nonpositive_count table_AB spectrum_AB [pep "AA"; pep "AB"] 0).
  - table_facts.
  - compute_done.
  - unfold covered. compute_done.
  - lia.
Defined.

Lemma dict_fromkeys_sublist (l : list Peptide) :
  dict_fromkeys l `sublist_of` l ∧ NoDup (dict_fromkeys l).
Proof.
  unfold dict_fromkeys.
  assert (∀ acc, NoDup acc → ∃ l',
    foldl (λ d k, if decide (k ∈ d) then d else d ++ [k]) acc l = acc ++ l' ∧
    l' `sublist_of` l ∧ NoDup (acc ++ l')) as H.
  { induction l as [|x l IH]; intros acc Hacc; cbn [foldl].
    - exists []. by rewrite app_nil_r.
    - destruct (decide (x ∈ acc)) as [Hx|Hx].
      + destruct (IH acc Hacc) as (l' & -> & Hsub & Hnd).
        exists l'. split; [done|]. split; [by apply sublist_cons|done].
      + destruct (IH (acc ++ [x])) as (l' & -> & Hsub & Hnd).
        { apply NoDup_app. split; [done|]. split; [|apply NoDup_singleton].
          intros y Hy ->%list_elem_of_singleton. done. }
        exists (x :: l'). rewrite <- app_assoc in *. split; [done|].
        split; [by apply sublist_skip|done]. }
  destruct (H [] (NoDup_nil_2)) as (l' & -> & Hsub & Hnd). done.
Qed.

Lemma trim_fill_keys (mt : mass_table) (spectrum : list Z)
    (keys : list Peptide) :
  ∀ acc items,
    for_each keys (λ items key,
      score ← cyclopeptide_scoring key spectrum false mt;
      Ok (items ++ [(key, score)])) acc = Ok items →
    items.*1 = acc.*1 ++ keys.
Proof.
  induction keys as [|k keys IH]; intros acc items Hrun.
  - inversion Hrun; subst. by rewrite app_nil_r.
  - cbn [for_each] in Hrun. apply bind_Ok_inv in Hrun as (acc' & Hstep & Hrest).
    apply bind_Ok_inv in Hstep as (score & _ & Heq). inversion Heq; subst acc'.
    rewrite (IH _ _ Hrest), fmap_app. cbn [fmap list_fmap fst].
    by rewrite <- app_assoc.
Qed.

Lemma trim_select_sublist (thr : Z) (items : list (Peptide * Z)) :
  ∃ kept,
    for_each items (λ final_leader_board '(key, value),
      if bool_decide (thr ≤ value) then Ok (final_leader_board ++ [key])
      else Ok final_leader_board) [] = Ok kept ∧
    kept `sublist_of` items.*1.
Proof.
  rewrite (for_each_append _ _
    (λ '(key, value), if bool_decide (thr ≤ value) then [key] else [])).
  - eexists. split; [done|]. rewrite app_nil_l.
    induction items as [|[k v] items IH]; [done|].
    rewrite !fmap_cons. cbn [concat fst].
    destruct (bool_decide (thr ≤ v)); [by apply sublist_skip|by apply sublist_cons].
  - intros s' [k v] _. destruct (bool_decide (thr ≤ v)); [done|].
    by rewrite app_nil_r.
Qed.

Lemma trim_result_sublist (mt : mass_table) (spectrum : list Z) (lb kept : list Peptide)
    (n : Z) :
  trim lb spectrum n mt = Ok kept → kept `sublist_of` lb.
Proof.
  unfold trim. destruct (Z.ltb_spec (Z.of_nat (length lb)) n).
  - by intros [= ->].
  - intros (items & Hfill & Hrest)%bind_Ok_inv.
    apply bind_Ok_inv in Hrest as (thr & _ & Hsel).
    apply trim_fill_keys in Hfill. rewrite app_nil_l in Hfill.
    destruct (trim_select_sublist thr items) as (kept' & Hsel' & Hsub).
    rewrite Hsel in Hsel'. inversion Hsel'; subst kept'.
    rewrite Hfill in Hsub. etrans; [done|]. apply dict_fromkeys_sublist.
Qed.

(** X13. Whatever the board, [trim] only drops candidates: when it returns,
    the result is a sub-list of the board, in the board's order. *)
Theorem trim_sublist (mt : mass_table) (spectrum : list Z) (lb kept : list Peptide)
    (n : Z) :
  trim lb spectrum n mt = Ok kept → kept `sublist_of` lb.
Proof. apply trim_result_sublist. Qed.

Lemma trim_sublist_witness :
  [pep "AA"] `sublist_of` [pep "AA"; pep "AB"].
Proof.
  apply (trim_sublist table_AB spectrum_AB [pep "AA"; pep "AB"] [pep "AA"] 1).
  reflexivity.
Defined.

(** ** The board from round to round *)

Lemma list_remove_sublist {A} `{EqDecision A} (x : A) (l l' : list A) :
  list_remove x l = Ok l' → l' `sublist_of` l.
Proof.
  revert l'. induction l as [|y l IH]; intros l' Hrm; [done|].
  cbn [list_remove] in Hrm. destruct (decide (x = y)) as [->|Hne].
  - inversion Hrm; subst. by apply sublist_cons.
  - apply bind_Ok_inv in Hrm as (l1 & Hl1 & Heq). inversion Heq; subst.
    apply sublist_skip. by apply IH.
Qed.

Lemma remove_candidates_sublist (rm board F : list Peptide) :
  remove_candidates rm board = Ok F → F `sublist_of` board.
Proof.
  unfold remove_candidates.
  rewrite (for_each_indices rm (λ l x, list_remove x l)).
  revert board. induction rm as [|x rm IH]; intros board Hrun.
  - by inversion Hrun; subst.
  - cbn [for_each] in Hrun. apply bind_Ok_inv in Hrun as (l1 & Hl1 & Hrest).
    etrans; [by apply IH|]. by eapply list_remove_sublist.
Qed.

Lemma mass_filter_sublist (spectrum : list Z) (mt : mass_table)
    (lp : Peptide) (ls : Z) (board : list Peptide)
    (lp' : Peptide) (ls' : Z) (F : list Peptide) :
  mass_filter spectrum mt lp ls board = Ok (lp', ls', F) → F `sublist_of` board.
Proof.
  unfold mass_filter.
  intros ([[lp1 ls1] rm] & _ & Hrest)%bind_Ok_inv.
  apply bind_Ok_inv in Hrest as (F' & Hremove & Heq). inversion Heq; subst.
  by eapply remove_candidates_sublist.
Qed.

Lemma loop_body_sublist (spectrum : list Z) (n : Z) (mt : mass_table)
    (st st' : search_state) (flag : bool) :
  loop_body spectrum n mt st = Ok (st', flag) →
  leader_board st' `sublist_of` expand (dict_keys mt) (leader_board st).
Proof.
  unfold loop_body.
  intros ([[lp ls] F] & Hfilter & H)%bind_Ok_inv.
  apply mass_filter_sublist in Hfilter.
  destruct (bool_decide (0 < length F)%nat).
  - apply bind_Ok_inv in H as (kept & Htrim & Heq). inversion Heq; subst.
    cbn [leader_board]. etrans; [|done]. by eapply trim_result_sublist.
  - by inversion H; subst.
Qed.

Lemma expand_length (keys : list ascii) (lb : list Peptide) :
  length (expand keys lb) = (length keys * length lb)%nat.
Proof.
  unfold expand, Peptide in *. induction keys as [|k keys IH]; [done|].
  cbn [map concat]. rewrite length_app, length_map.
  cbn [length]. rewrite IH. lia.
Qed.

Lemma scan_candidate_no_max (spectrum : list Z) (mt : mass_table)
    (st : Peptide * Z * list Peptide) (p : Peptide) (m : Z) (e : exn) :
  py_max spectrum = Raise e → peptide_mass p mt = Ok m →
  scan_candidate spectrum mt st p = Raise e.
Proof.
  destruct st as [[lp ls] rm]. unfold scan_candidate. by intros -> ->.
Qed.

(** A round that goes on has seen [max(spectrum)], and leaves no candidate
    heavier than it. *)
Lemma loop_body_masses (spectrum : list Z) (n : Z) (mt : mass_table)
    (st st' : search_state) :
  dict_wf mt →
  NoDup (leader_board st) → Forall (covered mt) (leader_board st) →
  loop_body spectrum n mt st = Ok (st', true) →
  ∃ mx, py_max spectrum = Ok mx ∧
        Forall (λ p, total_mass mt p ≤ mx) (leader_board st').
Proof.
  intros Hwf Hnd Hcov Hbody.
  pose proof (loop_body_sublist _ _ _ _ _ _ Hbody) as Hsub.
  unfold loop_body in Hbody.
  apply bind_Ok_inv in Hbody as ([[lp ls] F] & Hfilter & H).
  destruct (bool_decide (0 < length F)%nat) eqn:HF; [|by inversion H].
  apply bool_decide_eq_true in HF.
  apply bind_Ok_inv in H as (kept & Htrim & Heq). inversion Heq; subst.
  cbn [leader_board] in *.
  set (E := expand (dict_keys mt) (leader_board st)) in *.
  assert (NoDup E) as HndE by (by apply expand_NoDup).
  assert (Forall (covered mt) E) as HcovE.
  { apply Forall_forall. intros x (aa & ele & -> & Haa & Hele)%elem_of_expand.
    rewrite Forall_forall in Hcov. apply Forall_app. split; [by apply Hcov|].
    by repeat constructor. }
  destruct (py_max spectrum) as [mx|e] eqn:Hmx.
  - exists mx. split; [done|].
    destruct (mass_filter_covered mt spectrum mx (leader_peptide st)
                (leader_peptide_score st) E Hwf Hmx HndE HcovE)
      as (lp' & ls' & Hfilter').
    rewrite Hfilter in Hfilter'. inversion Hfilter'; subst.
    apply trim_result_sublist in Htrim.
    apply Forall_forall. intros p Hp.
    assert (p ∈ filter (λ p, total_mass mt p ≤ mx) E) as Hp'
      by by eapply elem_of_sublist.
    by apply list_elem_of_filter in Hp' as [? _].
  - exfalso. unfold mass_filter in Hfilter.
    apply bind_Ok_inv in Hfilter as ([[lp1 ls1] rm] & Hscan & Hrest).
    destruct E as [|c E'].
    + apply bind_Ok_inv in Hrest as (F' & Hremove & Heq'). inversion Heq'; subst.
      inversion Hscan; subst. inversion Hremove; subst. simpl in HF. lia.
    + cbn [for_each] in Hscan. apply Forall_cons in HcovE as [Hc _].
      by rewrite (scan_candidate_no_max _ _ _ _ _ _ Hmx
                    (peptide_mass_covered _ _ Hc)) in Hscan.
Qed.

Lemma round_state_board (spectrum : list Z) (n : Z) (mt : mass_table)
    (k : nat) (st : search_state) :
  round_state spectrum n mt k st →
  Forall (λ p, covered mt p ∧ length p = k) (leader_board st) ∧
  (length (leader_board st) ≤ length mt ^ k)%nat ∧
  (dict_wf mt → NoDup (leader_board st)) ∧
  (dict_wf mt → (1 ≤ k)%nat →
   ∃ mx, py_max spectrum = Ok mx ∧
         Forall (λ p, total_mass mt p ≤ mx) (leader_board st)).
Proof.
  induction 1 as [|k st st' Hst IH Hbody].
  - split; [by repeat constructor|]. split; [simpl; lia|].
    split; [intros _; apply NoDup_singleton|]. intros _ ?. lia.
  - destruct IH as (Hall & Hlen & Hnd & _).
    pose proof (loop_body_sublist _ _ _ _ _ _ Hbody) as Hsub.
    split; [|split; [|split]].
    + apply Forall_forall. intros p Hp.
      assert (p ∈ expand (dict_keys mt) (leader_board st)) as Hp'
        by by eapply elem_of_sublist.
      apply elem_of_expand in Hp' as (aa & ele & -> & Haa & Hele).
      rewrite Forall_forall in Hall. destruct (Hall _ Hele) as [Hcov Hl].
      split.
      * apply Forall_app. split; [done|]. by repeat constructor.
      * rewrite length_app. simpl. lia.
    + apply sublist_length in Hsub. rewrite expand_length in Hsub.
      unfold dict_keys in Hsub. rewrite length_fmap in Hsub.
      rewrite Nat.pow_succ_r'. nia.
    + intros Hwf. eapply sublist_NoDup; [|exact Hsub].
      apply expand_NoDup; [done|by apply Hnd].
    + intros Hwf _. eapply loop_body_masses; [done|by apply Hnd| |done].
      eapply Forall_impl; [exact Hall|]. by intros p [? _].
Qed.

(** X14. At the head of the loop after [k] rounds every candidate on the
    board has length [k] and is made of the table's symbols, and there are
    at most [|table|^k] of them; over a table with distinct keys they are
    pairwise distinct and, from round 1 on, none is heavier than the
    heaviest peak. *)
Theorem board_after_rounds (spectrum : list Z) (n : Z) (mt : mass_table)
    (k : nat) (st : search_state) :
  round_state spectrum n mt k st →
  Forall (λ p, covered mt p ∧ length p = k) (leader_board st) ∧
  (length (leader_board st) ≤ length mt ^ k)%nat ∧
  (dict_wf mt → NoDup (leader_board st)) ∧
  (dict_wf mt → (1 ≤ k)%nat →
   ∃ mx, py_max spectrum = Ok mx ∧
         Forall (λ p, ∃ m, peptide_mass p mt = Ok m ∧ m ≤ mx)
           (leader_board st)).
Proof.
  intros Hst. destruct (round_state_board _ _ _ _ _ Hst)
    as (Hall & Hlen & Hnd & Hmass).
  split; [done|]. split; [done|]. split; [done|].
  intros Hwf Hk. destruct (Hmass Hwf Hk) as (mx & Hmx & Hle).
  exists mx. split; [done|]. rewrite Forall_forall in *. intros p Hp.
  exists (total_mass mt p). split; [|by apply Hle].
  apply peptide_mass_covered. by apply Hall.
Qed.

Lemma board_after_rounds_witness :
  Forall (λ p, covered table_AB p ∧ length p = 1%nat) (leader_board round1_AB) ∧
  (length (leader_board round1_AB) ≤ length table_AB ^ 1)%nat ∧
  (dict_wf table_AB → NoDup (leader_board round1_AB)) ∧
  (dict_wf table_AB → (1 ≤ 1)%nat →
   ∃ mx, py_max spectrum_AB = Ok mx ∧
         Forall (λ p, ∃ m, peptide_mass p table_AB = Ok m ∧ m ≤ mx)
           (leader_board round1_AB)).
Proof.
  apply (board_after_rounds spectrum_AB 1 table_AB 1 round1_AB).
  apply (round_next _ _ _ 0 initial_state); [constructor|reflexivity].
Defined.

(** ** What the sequencer returns *)

Lemma peptide_mass_Ok_inv (mt : mass_table) (q : Peptide) (m : Z) :
  peptide_mass q mt = Ok m → covered mt q ∧ m = total_mass mt q.
Proof.
  intros H. destruct (decide (Forall (λ c, c ∈ dict_keys mt) q)) as [Hc|Hc].
  - split; [done|]. rewrite peptide_mass_covered in H by done. by inversion H.
  - by rewrite peptide_mass_not_covered in H.
Qed.

(** X15. A peptide returned by the sequencer is either the empty peptide or
    a peptide whose mass is exactly the heaviest peak of the target and whose
    cyclic score is positive. *)
Theorem sequencing_result (fuel : nat) (spectrum : list Z) (n : Z)
    (mt : mass_table) (p : Peptide) :
  leaderboard_peptide_sequencing fuel spectrum n mt = Some (Ok p) →
  p = [] ∨
  ∃ mx score,
    py_max spectrum = Ok mx ∧ peptide_mass p mt = Ok mx ∧
    cyclopeptide_scoring p spectrum true mt = Ok score ∧ 0 < score.
Proof.
  unfold leaderboard_peptide_sequencing.
  destruct (sequencing_loop fuel spectrum n mt initial_state)
    as [[st|e]|] eqn:Hrun; [|done|done].
  intros [= <-].
  destruct (sequencing_loop_leader _ _ _ _ _ _ Hrun)
    as [[Hp _]|[(mx & Hmx & Hmass & Hscore) Hlt]].
  - by left.
  - right. exists mx, (leader_peptide_score st). by cbn in Hlt.
Qed.

Lemma sequencing_result_witness :
  pep "AAAA" = [] ∨
  ∃ mx score,
    py_max spectrum_AB = Ok mx ∧ peptide_mass (pep "AAAA") table_AB = Ok mx ∧
    cyclopeptide_scoring (pep "AAAA") spectrum_AB true table_AB = Ok score ∧
    0 < score.
Proof.
  apply (sequencing_result 5 spectrum_AB 1 table_AB (pep "AAAA")). reflexivity.
Defined.

Lemma first_best_bound (spectrum : list Z) (mt : mass_table)
    (cs : list Peptide) (lp : Peptide) (ls : Z) (lp' : Peptide) (ls' : Z)
    (q : Peptide) (s : Z) :
  first_best spectrum mt cs lp ls lp' ls' →
  q ∈ cs → full_mass_score spectrum mt q s → s ≤ ls'.
Proof.
  intros [(_ & -> & Hall)|(pre & post & -> & Hbest & _ & Hpre & Hpost)] Hq Hs.
  - by eapply Hall.
  - apply elem_of_app in Hq as [Hq|Hq].
    + specialize (Hpre q s Hq Hs). lia.
    + apply elem_of_cons in Hq as [->|Hq]; [|by eapply Hpost].
      destruct Hbest as (? & _ & _ & H1), Hs as (? & _ & _ & H2).
      rewrite H1 in H2. inversion H2. lia.
Qed.

Lemma covered_snoc_inv (mt : mass_table) (q : Peptide) (k : nat) :
  covered mt q → length q = S k →
  ∃ q' a, q = q' ++ [a] ∧ covered mt q' ∧ a ∈ dict_keys mt ∧ length q' = k.
Proof.
  intros Hcov Hlen. destruct q as [|a q _] using rev_ind; [done|].
  apply Forall_app in Hcov as [Hq Ha]. apply Forall_cons in Ha as [Ha _].
  exists q, a. rewrite length_app in Hlen. simpl in Hlen.
  repeat split; try done. lia.
Qed.

Lemma total_mass_take_le (mt : mass_table) (q : Peptide) (j : nat) :
  positive_masses mt → covered mt q → total_mass mt (take j q) ≤ total_mass mt q.
Proof.
  intros Hpos Hcov. rewrite <- (take_drop j q) at 2. rewrite total_mass_app.
  assert (covered mt (drop j q)) as Hd by by apply Forall_drop.
  pose proof (total_mass_length mt (drop j q) Hpos Hd). lia.
Qed.

(** ** A retention count that never trims *)

Section exhaustive.
Variable mt : mass_table.
Variable spectrum : list Z.
Variable n : Z.
Variable mx : Z.
Hypothesis Hwf : dict_wf mt.
Hypothesis Hpos : positive_masses mt.
Hypothesis Hmx : py_max spectrum = Ok mx.
Hypothesis Hbig : Z.of_nat (length mt ^ Z.to_nat mx) < n.

Lemma full_mass_covered (q : Peptide) (s : Z) :
  full_mass_score spectrum mt q s → covered mt q ∧ total_mass mt q = mx.
Proof.
  intros (mx' & Hmx' & Hmass & _). rewrite Hmx in Hmx'. inversion Hmx'; subst mx'.
  apply peptide_mass_Ok_inv in Hmass as [? ->]. done.
Qed.

Lemma exhaustive_prefix_on_board (k : nat) (st : search_state) (q : Peptide) :
  exhaustive_inv spectrum mt mx k st →
  covered mt q → (k ≤ length q)%nat → total_mass mt q ≤ mx →
  take k q ∈ leader_board st.
Proof.
  intros (_ & _ & Hcomp & _) Hcov Hlen Hmass. apply Hcomp.
  - by apply Forall_take.
  - by apply length_take_le.
  - right. pose proof (total_mass_take_le mt q k Hpos Hcov). lia.
Qed.

Lemma exhaustive_expanded (k : nat) (st : search_state) (q : Peptide) :
  exhaustive_inv spectrum mt mx k st →
  covered mt q → length q = S k → total_mass mt q ≤ mx →
  q ∈ expand (dict_keys mt) (leader_board st).
Proof.
  intros Hinv Hcov Hlen Hmass.
  destruct (covered_snoc_inv mt q k Hcov Hlen) as (q' & a & -> & Hq' & Ha & Hl).
  apply elem_of_expand. exists a, q'. split; [done|]. split; [done|].
  destruct Hinv as (_ & _ & Hcomp & _). apply Hcomp; [done|done|]. right.
  rewrite total_mass_app in Hmass.
  assert (covered mt [a]) as Hca by (by repeat constructor).
  pose proof (total_mass_length mt [a] Hpos Hca). simpl in *. lia.
Qed.

Lemma exhaustive_stop (k : nat) (st : search_state) :
  exhaustive_inv spectrum mt mx k st → leader_board st = [] →
  ∀ q s, q ≠ [] → full_mass_score spectrum mt q s → s ≤ leader_peptide_score st.
Proof.
  intros Hinv Hnil q s Hq Hs. pose proof (full_mass_covered q s Hs) as [Hcov Hm].
  destruct (decide (length q ≤ k)%nat) as [Hle|Hgt].
  - destruct Hinv as (_ & _ & _ & Hscore). apply (Hscore q s Hs).
    destruct q; [done|]. simpl in *. lia.
  - pose proof (exhaustive_prefix_on_board k st q Hinv Hcov ltac:(lia)
                  ltac:(lia)) as Hin.
    rewrite Hnil in Hin. by apply elem_of_nil in Hin.
Qed.

Lemma exhaustive_round (k : nat) (st : search_state) :
  exhaustive_inv spectrum mt mx k st →
  ∃ st' flag,
    loop_body spectrum n mt st = Ok (st', flag) ∧
    if flag : bool
    then exhaustive_inv spectrum mt mx (S k) st' ∧ Z.of_nat (S k) ≤ mx
    else leader_board st' = [] ∧
         ∀ q s, q ≠ [] → full_mass_score spectrum mt q s →
                s ≤ leader_peptide_score st'.
Proof.
  intros Hinv. pose proof Hinv as (Hb & Hlen & Hcomp & Hscore).
  pose proof (expand_board_inv mt k _ Hwf Hb) as HE.
  pose proof (λ q, exhaustive_expanded k st q Hinv) as HEmem.
  pose proof (expand_length (dict_keys mt) (leader_board st)) as HlenE.
  assert (∀ st' flag, loop_body spectrum n mt st = Ok (st', flag) →
    ∀ q s, full_mass_score spectrum mt q s → (1 ≤ length q ≤ S k)%nat →
           s ≤ leader_peptide_score st') as Hleader.
  { intros st' flag Hbody. apply loop_body_leader in Hbody.
    pose proof (first_best_le _ _ _ _ _ _ _ Hbody) as Hle.
    intros q s Hs Hl. destruct (decide (length q ≤ k)%nat) as [Hk|Hk].
    - specialize (Hscore q s Hs ltac:(lia)). lia.
    - pose proof (full_mass_covered q s Hs) as [Hcov Hm].
      eapply first_best_bound; [done| |done]. apply HEmem; [done|lia|lia]. }
  remember (expand (dict_keys mt) (leader_board st)) as E eqn:HeqE.
  destruct (mass_filter_covered mt spectrum mx (leader_peptide st)
              (leader_peptide_score st) E Hwf Hmx (proj1 HE)
              (board_inv_covered _ _ _ HE)) as (lp' & ls' & Hfilter).
  remember (filter (λ p, total_mass mt p ≤ mx) E) as F eqn:HeqF.
  assert (∀ q, covered mt q → length q = S k → total_mass mt q ≤ mx → q ∈ F)
    as HFmem.
  { intros q Hcov Hl Hm. rewrite HeqF. apply list_elem_of_filter.
    split; [done|]. by apply HEmem. }
  assert (board_inv mt (S k) F) as HF
    by (rewrite HeqF; eapply board_inv_sublist; [apply sublist_filter|done]).
  assert (length F ≤ length mt ^ S k)%nat as HlenF.
  { rewrite HeqF. etrans; [apply length_filter|]. rewrite HlenE.
    unfold dict_keys. rewrite length_fmap, Nat.pow_succ_r'. nia. }
  assert (∃ st' flag, loop_body spectrum n mt st = Ok (st', flag) ∧
    leader_board st' = F ∧ flag = bool_decide (0 < length F)%nat)
    as (st' & flag & Hbody & HbF & Hflag).
  { unfold loop_body. rewrite <- HeqE, Hfilter, bind_Ok.
    destruct (bool_decide (0 < length F)%nat) eqn:Hpos0.
    - apply bool_decide_eq_true in Hpos0.
      assert (Z.of_nat (length F) < n) as Hsmall.
      { assert (length mt ^ S k ≤ length mt ^ Z.to_nat mx)%nat as Hpow.
        { destruct F as [|p F']; [simpl in Hpos0; lia|].
          destruct HF as [_ HF]. apply Forall_cons in HF as [[Hcov Hl] _].
          assert (p ∈ p :: F') as Hp by left. rewrite HeqF in Hp.
          apply list_elem_of_filter in Hp as [Hm _].
          pose proof (total_mass_length mt p Hpos Hcov).
          apply Nat.pow_le_mono_r; [|lia]. intros H0. rewrite H0 in HlenF.
          simpl in HlenF. lia. }
        lia. }
      rewrite trim_small, bind_Ok by done. by eexists _, true.
    - by eexists _, false. }
  specialize (Hleader _ _ Hbody).
  exists st', flag. split; [done|]. rewrite Hflag.
  destruct (bool_decide (0 < length F)%nat) eqn:Hpos0.
  - apply bool_decide_eq_true in Hpos0. split.
    + split; [by rewrite HbF|]. split; [by rewrite HbF|]. split; [|done].
      rewrite HbF. intros q Hcov Hl [?|Hm]; [lia|]. by apply HFmem.
    + destruct F as [|p F']; [simpl in Hpos0; lia|].
      destruct HF as [_ HF]. apply Forall_cons in HF as [[Hcov Hl] _].
      assert (p ∈ p :: F') as Hp by left. rewrite HeqF in Hp.
      apply list_elem_of_filter in Hp as [Hm _].
      pose proof (total_mass_length mt p Hpos Hcov). lia.
  - apply bool_decide_eq_false in Hpos0.
    assert (F = []) as HFnil by (destruct F; [done|simpl in Hpos0; lia]).
    split; [by rewrite HbF|]. intros q s Hq Hs.
    pose proof (full_mass_covered q s Hs) as [Hcov Hm].
    destruct (decide (length q ≤ S k)%nat) as [Hk|Hk].
    + apply (Hleader q s Hs). destruct q; [done|]. simpl in *. lia.
    + exfalso. assert (take (S k) q ∈ F) as Hin.
      { apply HFmem.
        - by apply Forall_take.
        - apply length_take_le. lia.
        - pose proof (total_mass_take_le mt q (S k) Hpos Hcov). lia. }
      rewrite HFnil in Hin. by apply elem_of_nil in Hin.
Qed.

Lemma exhaustive_run (d : nat) :
  ∀ k st, exhaustive_inv spectrum mt mx k st → mx ≤ Z.of_nat (k + d) →
  ∃ st',
    (∀ fuel, (d + 1 ≤ fuel)%nat →
       sequencing_loop fuel spectrum n mt st = Some (Ok st')) ∧
    ∀ q s, q ≠ [] → full_mass_score spectrum mt q s →
           s ≤ leader_peptide_score st'.
Proof.
  induction d as [|d IH]; intros k st Hinv Hk;
    destruct (exhaustive_round k st Hinv) as (st' & flag & Hbody & Hflag);
    pose proof (exhaustive_stop k st Hinv) as Hstop;
    destruct (leader_board st) as [|p lb] eqn:Hlb.
  - exists st. split; [|by apply Hstop]. intros [|fuel] Hf; [lia|]. simpl.
    by rewrite Hlb.
  - destruct flag; [destruct Hflag as [_ ?]; lia|].
    exists st'. split; [|apply Hflag]. intros [|fuel] Hf; [lia|]. simpl.
    by rewrite Hlb, Hbody.
  - exists st. split; [|by apply Hstop]. intros [|fuel] Hf; [lia|]. simpl.
    by rewrite Hlb.
  - destruct flag.
    + destruct Hflag as [Hinv' _].
      destruct (IH (S k) st' Hinv') as (st'' & Hrun & Hall); [lia|].
      exists st''. split; [|done]. intros [|fuel] Hf; [lia|]. simpl.
      rewrite Hlb, Hbody. apply Hrun. lia.
    + exists st'. split; [|apply Hflag]. intros [|fuel] Hf; [lia|]. simpl.
      by rewrite Hlb, Hbody.
Qed.

Lemma exhaustive_initial : exhaustive_inv spectrum mt mx 0 initial_state.
Proof.
  split; [apply initial_board_inv|]. split; [simpl; lia|]. split.
  - intros q _ Hl _. destruct q; [left|done].
  - intros q s _ Hl. lia.
Qed.
End exhaustive.

(** X16. With a retention count above [|table|^max(spectrum)] nothing is
    ever trimmed and the search is exhaustive: the sequencer returns, and the
    score of its leader is at least the cyclic score of every non-empty
    peptide whose mass is the heaviest peak; the leader is itself such a
    peptide unless none of them scores above 0. *)
Theorem sequencing_exhaustive (spectrum : list Z) (n : Z) (mt : mass_table)
    (mx : Z) :
  dict_wf mt → positive_masses mt → py_max spectrum = Ok mx →
  Z.of_nat (length mt ^ Z.to_nat mx) < n →
  ∃ st,
    (∀ fuel, (Z.to_nat mx + 1 ≤ fuel)%nat →
       leaderboard_peptide_sequencing fuel spectrum n mt
       = Some (Ok (leader_peptide st))) ∧
    ((leader_peptide st = [] ∧ leader_peptide_score st = 0) ∨
     (full_mass_score spectrum mt (leader_peptide st) (leader_peptide_score st) ∧
      0 < leader_peptide_score st)) ∧
    ∀ q s, q ≠ [] → full_mass_score spectrum mt q s →
           s ≤ leader_peptide_score st.
Proof.
  intros Hwf Hpos Hmx Hbig.
  destruct (exhaustive_run mt spectrum n mx Hwf Hpos Hmx Hbig (Z.to_nat mx)
              0 initial_state (exhaustive_initial mt spectrum mx))
    as (st & Hrun & Hall); [lia|].
  exists st. split; [|split; [|done]].
  - intros fuel Hfuel. unfold leaderboard_peptide_sequencing.
    by rewrite (Hrun fuel Hfuel).
  - specialize (Hrun _ (Nat.le_refl _)).
    destruct (sequencing_loop_leader _ _ _ _ _ _ Hrun) as [[? ?]|[? ?]];
      [by left|by right].
Qed.

Lemma sequencing_exhaustive_witness :
  ∃ st,
    (∀ fuel, (Z.to_nat 4 + 1 ≤ fuel)%nat →
       leaderboard_peptide_sequencing fuel spectrum_AB 17 table_AB
       = Some (Ok (leader_peptide st))) ∧
    ((leader_peptide st = [] ∧ leader_peptide_score st = 0) ∨
     (full_mass_score spectrum_AB table_AB (leader_peptide st)
        (leader_peptide_score st) ∧
      0 < leader_peptide_score st)) ∧
    ∀ q s, q ≠ [] → full_mass_score spectrum_AB table_AB q s →
           s ≤ leader_peptide_score st.
Proof.
  apply (sequencing_exhaustive spectrum_AB 17 table_AB 4).
  - table_facts.
  - table_facts.
  - reflexivity.
  - simpl. lia.
Defined.

(** ** The spectra as masses of sub-peptides *)

Lemma concat_fmap_Permutation {A B} (f g : A → list B) (l : list A) :
  (∀ a, a ∈ l → f a ≡ₚ g a) → concat (f <$> l) ≡ₚ concat (g <$> l).
Proof.
  induction l as [|a l IH]; intros H; [done|].
  rewrite !fmap_cons. cbn [concat]. rewrite (H a) by left.
  apply Permutation_app_head, IH. intros a' Ha'. apply H. by right.
Qed.

Lemma concat_fmap_app {A B} (f g : A → list B) (l : list A) :
  concat ((λ a, f a ++ g a) <$> l) ≡ₚ concat (f <$> l) ++ concat (g <$> l).
Proof.
  induction l as [|a l IH]; [done|].
  rewrite !fmap_cons. cbn [concat]. rewrite IH, <- !app_assoc.
  apply Permutation_app_head, Permutation_app_swap_app.
Qed.

(** Listing the pairs [i < j] by rows or by columns. *)
Lemma triangle_transpose {B} (c : nat → nat → B) (a m : nat) :
  concat ((λ i, c i <$> seq (i + 1) (a + m - (i + 1))) <$> seq a m)
  ≡ₚ concat ((λ j, (λ i, c i j) <$> seq a (j - a)) <$> seq a m).
Proof.
  induction m as [|m IH]; [done|].
  rewrite !seq_S, !fmap_app, !concat_app. cbn [fmap list_fmap concat].
  replace (a + S m - (a + m + 1))%nat with 0%nat by lia.
  replace (a + m - a)%nat with m by lia.
  cbn [seq fmap list_fmap]. rewrite !app_nil_r, <- IH.
  rewrite <- (concat_singletons (λ i, c i (a + m)%nat)), <- concat_fmap_app.
  apply concat_fmap_Permutation. intros i [Hi1 Hi2]%elem_of_seq.
  replace (a + S m - (i + 1))%nat with (S (a + m - (i + 1))) by lia.
  rewrite seq_S, fmap_app. cbn [fmap list_fmap].
  by replace (i + 1 + (a + m - (i + 1)))%nat with (a + m)%nat by lia.
Qed.

Lemma fmap_seq_shift {B} (f g : nat → B) (a b m : nat) :
  (∀ k, (k < m)%nat → f (a + k)%nat = g (b + k)%nat) →
  f <$> seq a m = g <$> seq b m.
Proof.
  revert a b. induction m as [|m IH]; intros a b H; [done|].
  cbn [seq fmap list_fmap]. f_equal.
  - specialize (H 0%nat ltac:(lia)). by rewrite !Nat.add_0_r in H.
  - apply IH. intros k Hk. specialize (H (S k) ltac:(lia)).
    by rewrite <- !Nat.add_succ_comm in H.
Qed.

Section windows.
Variable ms : list Z.

Local Abbreviation n := (length ms).
Local Abbreviation P := (prefix_total ms).

Lemma prefix_total_split (s l : nat) :
  P (s + l) = P s + total (take l (drop s ms)).
Proof. unfold prefix_total. by rewrite <- take_take_drop, total_app. Qed.

Lemma prefix_total_all : P n = total ms.
Proof. unfold prefix_total. by rewrite firstn_all. Qed.

Lemma window_inside (s l : nat) :
  (s + l ≤ n)%nat → window ms s l = P (s + l) - P s.
Proof.
  intros H. unfold window. rewrite drop_app_le by lia.
  rewrite take_app_le by (rewrite length_drop; lia).
  rewrite prefix_total_split. lia.
Qed.

Lemma window_wrapping (s l : nat) :
  (s ≤ n)%nat → (n < s + l)%nat →
  window ms s l = total ms - P s + P (s + l - n).
Proof.
  intros Hs Hl. unfold window. rewrite drop_app_le by lia.
  rewrite take_app_ge by (rewrite length_drop; lia).
  rewrite total_app, length_drop.
  replace (l - (n - s))%nat with (s + l - n)%nat by lia.
  pose proof (prefix_total_split s (n - s)) as Hsplit.
  replace (s + (n - s))%nat with n in Hsplit by lia.
  rewrite prefix_total_all in Hsplit.
  rewrite (take_ge (drop s ms)) in Hsplit by (rewrite length_drop; lia).
  fold (prefix_total ms (s + l - n)). lia.
Qed.

Lemma window_full_turn (l : nat) :
  (l ≤ n)%nat → window ms n l = window ms 0 l.
Proof.
  intros Hl. unfold window. rewrite drop_app_length. rewrite drop_0.
  by rewrite take_app_le by lia.
Qed.

(** The windows from start [s], by length, are the fragments that start at
    [s] followed by the complements of the fragments that end at [s]. *)
Lemma window_row (s : nat) :
  (1 ≤ s < n)%nat →
  window ms s <$> seq 1 (n - 1)
  = ((λ j, P j - P s) <$> seq (s + 1) (n - s)) ++
    ((λ i, total ms - (P s - P i)) <$> seq 1 (s - 1)).
Proof.
  intros Hs. replace (n - 1)%nat with ((n - s) + (s - 1))%nat by lia.
  rewrite seq_app, fmap_app. f_equal.
  - apply fmap_seq_shift. intros k Hk. rewrite window_inside by lia.
    by replace (s + (1 + k))%nat with (s + 1 + k)%nat by lia.
  - apply fmap_seq_shift. intros k Hk. rewrite window_wrapping by lia.
    replace (s + (1 + (n - s) + k) - n)%nat with (1 + k)%nat by lia. lia.
Qed.

Lemma window_row_0 :
  window ms 0 <$> seq 1 (n - 1) = (λ j, P j - P 0) <$> seq 1 (n - 1).
Proof.
  apply fmap_seq_shift. intros k Hk. rewrite window_inside by lia.
  by rewrite Nat.add_0_l.
Qed.
End windows.

Lemma sorted_Permutation_eq (l1 l2 : list Z) : l1 ≡ₚ l2 → sorted l1 = sorted l2.
Proof.
  intros H. apply (StronglySorted_unique Z.le); try apply sorted_StronglySorted.
  by rewrite !sorted_Permutation.
Qed.

Lemma cyclic_fragments_row (P : nat → Z) (T : Z) (n i : nat) :
  (1 ≤ i < n)%nat →
  cyclic_fragments P T n i
  ≡ₚ ((λ j, P j - P i) <$> seq (i + 1) (n - i)) ++
     ((λ j, T - (P j - P i)) <$> seq (i + 1) (n - i - 1)).
Proof.
  intros Hi. unfold cyclic_fragments, py_range.
  replace (n + 1 - (i + 1))%nat with (n - i)%nat by lia.
  rewrite (seq_last (i + 1) (n - i)) by lia.
  replace (i + 1 + (n - i) - 1)%nat with n by lia.
  rewrite !fmap_app, concat_app, !list_fmap_singleton, concat_cons, concat_nil.
  rewrite app_nil_r.
  assert (cyclic_pair P T n i n = [P n - P i]) as ->.
  { unfold cyclic_pair. rewrite (bool_decide_false (n < n)%nat) by lia.
    by rewrite andb_false_r. }
  rewrite (concat_fmap_Permutation _
    (λ j, [P j - P i] ++ [T - (P j - P i)])).
  - rewrite concat_fmap_app, !concat_singletons, <- !app_assoc.
    apply Permutation_app_head, Permutation_app_comm.
  - intros j [_ Hj]%elem_of_seq. unfold cyclic_pair.
    by rewrite !bool_decide_true by lia.
Qed.

Lemma cyclic_fragments_row_0 (P : nat → Z) (T : Z) (n : nat) :
  (1 ≤ n)%nat → P n - P 0%nat = T →
  cyclic_fragments P T n 0 = ((λ j, P j - P 0%nat) <$> seq 1 (n - 1)) ++ [T].
Proof.
  intros Hn HT. unfold cyclic_fragments, py_range.
  replace (n + 1 - (0 + 1))%nat with n by lia.
  rewrite (seq_last (0 + 1) n) by done.
  replace (0 + 1 + n - 1)%nat with n by lia.
  change (0 + 1)%nat with 1%nat.
  rewrite fmap_app, concat_app, list_fmap_singleton, concat_cons, concat_nil.
  rewrite app_nil_r. f_equal.
  - rewrite <- (concat_singletons (λ j, P j - P 0%nat)).
    apply (f_equal (@concat Z)), list_fmap_ext. intros k j _. unfold cyclic_pair.
    by rewrite bool_decide_false by lia.
  - unfold cyclic_pair. rewrite bool_decide_false by lia. simpl. by rewrite HT.
Qed.

(** The masses [cyclic_spectrum] collects, regrouped by the position where
    the fragment starts on the cycle. *)
Lemma cyclic_masses_by_start (P : nat → Z) (T : Z) (n : nat) :
  (1 ≤ n)%nat → P n - P 0%nat = T →
  cyclic_masses P T n
  ≡ₚ 0 :: T ::
     ((λ j, P j - P 0%nat) <$> seq 1 (n - 1)) ++
     concat ((λ s, ((λ j, P j - P s) <$> seq (s + 1) (n - s)) ++
                   ((λ i, T - (P s - P i)) <$> seq 1 (s - 1)))
               <$> seq 1 (n - 1)).
Proof.
  intros Hn HT. unfold cyclic_masses, py_range. rewrite Nat.sub_0_r.
  rewrite (seq_head 0 n) by done. rewrite fmap_cons, concat_cons.
  apply Permutation_skip.
  rewrite cyclic_fragments_row_0 by done.
  rewrite <- app_assoc. cbn [app]. rewrite <- Permutation_middle.
  apply Permutation_skip, Permutation_app_head.
  rewrite (concat_fmap_Permutation (cyclic_fragments P T n)
    (λ i, ((λ j, P j - P i) <$> seq (i + 1) (n - i)) ++
          ((λ j, T - (P j - P i)) <$> seq (i + 1) (1 + (n - 1) - (i + 1))))).
  - rewrite !concat_fmap_app. apply Permutation_app_head.
    apply (triangle_transpose (λ i j, T - (P j - P i)) 1 (n - 1)).
  - intros i Hi%elem_of_seq. rewrite cyclic_fragments_row by lia.
    by replace (1 + (n - 1) - (i + 1))%nat with (n - i - 1)%nat by lia.
Qed.

(** ... which are the sums of the windows of the list of residue masses. *)
Lemma cyclic_masses_windows (ms : list Z) :
  (1 ≤ length ms)%nat →
  cyclic_masses (prefix_total ms) (total ms) (length ms)
  ≡ₚ 0 :: total ms ::
     concat ((λ s, window ms s <$> seq 1 (length ms - 1)) <$> seq 0 (length ms)).
Proof.
  intros Hn. rewrite cyclic_masses_by_start; [|done|].
  - do 2 apply Permutation_skip.
    rewrite (seq_head 0 (length ms)) by done. rewrite fmap_cons, concat_cons.
    rewrite window_row_0. apply Permutation_app_head.
    apply concat_fmap_Permutation. intros s Hs%elem_of_seq.
    by rewrite window_row by lia.
  - rewrite prefix_total_all. unfold prefix_total. rewrite take_0, total_nil. lia.
Qed.

Lemma window_rotate (x : Z) (tl : list Z) (s l : nat) :
  (s + l ≤ 2 * length tl + 1)%nat →
  window (tl ++ [x]) s l = window (x :: tl) (S s) l.
Proof.
  intros H. unfold window.
  replace ((tl ++ [x]) ++ tl ++ [x]) with (drop 1 ((x :: tl) ++ x :: tl) ++ [x])
    by (simpl; rewrite drop_0, <- !app_assoc; done).
  assert (length (drop 1 ((x :: tl) ++ x :: tl)) = (2 * length tl + 1)%nat)
    as Hlen by (rewrite length_drop, length_app; simpl; lia).
  rewrite drop_app_le by lia.
  rewrite take_app_le by (rewrite length_drop; lia).
  by rewrite drop_drop.
Qed.

(** Cutting the cycle one residue further gives the same windows. *)
Lemma windows_rotate (x : Z) (tl : list Z) :
  concat ((λ s, window (tl ++ [x]) s <$> seq 1 (length (tl ++ [x]) - 1))
            <$> seq 0 (length (tl ++ [x])))
  ≡ₚ concat ((λ s, window (x :: tl) s <$> seq 1 (length (x :: tl) - 1))
               <$> seq 0 (length (x :: tl))).
Proof.
  rewrite length_app. cbn [length]. rewrite Nat.add_1_r.
  replace (S (length tl) - 1)%nat with (length tl) by lia.
  transitivity
    (concat ((λ t, window (x :: tl) t <$> seq 1 (length tl))
               <$> seq 1 (S (length tl)))).
  - rewrite <- (fmap_S_seq 0 (S (length tl))), <- list_fmap_compose.
    apply concat_fmap_Permutation. intros s Hs%elem_of_seq.
    unfold compose.
    rewrite (list_fmap_ext (window (tl ++ [x]) s) (window (x :: tl) (S s)));
      [done|].
    intros k l Hl%lookup_seq. apply window_rotate. lia.
  - rewrite seq_S, fmap_app, concat_app, list_fmap_singleton.
    rewrite concat_cons, concat_nil, app_nil_r.
    rewrite (seq_head 0 (S (length tl))) by lia.
    rewrite fmap_cons, concat_cons, Permutation_app_comm.
    replace (S (length tl) - 1)%nat with (length tl) by lia.
    apply Permutation_app_tail.
    replace (window (x :: tl) (1 + length tl) <$> seq 1 (length tl))
      with (window (x :: tl) 0 <$> seq 1 (length tl)); [done|].
    apply list_fmap_ext. intros k l Hl%lookup_seq.
    symmetry. apply (window_full_turn (x :: tl)). simpl. lia.
Qed.

(** The code's list depends on the prefix masses only through their values. *)
Lemma cyclic_masses_ext (P P' : nat → Z) (T : Z) (n : nat) :
  (∀ k, P k = P' k) → cyclic_masses P T n = cyclic_masses P' T n.
Proof.
  intros H. unfold cyclic_masses. f_equal. apply (f_equal (@concat Z)).
  apply list_fmap_ext. intros _ i _. unfold cyclic_fragments.
  apply (f_equal (@concat Z)), list_fmap_ext. intros _ j _.
  unfold cyclic_pair. by rewrite !H.
Qed.

Lemma linear_masses_ext (P P' : nat → Z) (n : nat) :
  (∀ k, P k = P' k) → linear_masses P n = linear_masses P' n.
Proof.
  intros H. unfold linear_masses. f_equal. apply (f_equal (@concat Z)).
  apply list_fmap_ext. intros _ i _. unfold linear_fragments.
  apply list_fmap_ext. intros _ j _. by rewrite !H.
Qed.

Lemma prefix_sum_prefix_total (mt : mass_table) (p : Peptide) (k : nat) :
  prefix_sum mt p k = prefix_total (mass_of mt <$> p) k.
Proof. unfold prefix_sum, prefix_total, total_mass. by rewrite fmap_take. Qed.

Lemma cyclic_subpeptide_window (mt : mass_table) (p : Peptide) (s l : nat) :
  total_mass mt (cyclic_subpeptide p s l) = window (mass_of mt <$> p) s l.
Proof.
  unfold cyclic_subpeptide, window, total_mass.
  by rewrite fmap_take, fmap_drop, fmap_app.
Qed.

Lemma cyclic_masses_subpeptides (mt : mass_table) (p : Peptide) :
  p ≠ [] →
  cyclic_masses (prefix_sum mt p) (total_mass mt p) (length p)
  ≡ₚ cyclic_subpeptide_masses mt p.
Proof.
  intros Hp. assert (1 ≤ length p)%nat by (destruct p; [done|simpl; lia]).
  rewrite (cyclic_masses_ext _ _ _ _ (prefix_sum_prefix_total mt p)).
  pose proof (cyclic_masses_windows (mass_of mt <$> p)) as Hw.
  rewrite length_fmap in Hw. rewrite Hw by done.
  unfold cyclic_subpeptide_masses, py_range. rewrite Nat.sub_0_r.
  do 2 apply Permutation_skip.
  apply concat_fmap_Permutation. intros s _.
  rewrite (list_fmap_ext (window (mass_of mt <$> p) s)
             (λ l, total_mass mt (cyclic_subpeptide p s l))); [done|].
  intros _ l _. by rewrite cyclic_subpeptide_window.
Qed.

Lemma cyclic_masses_rotate (mt : mass_table) (a : ascii) (p : Peptide) :
  cyclic_masses (prefix_sum mt (p ++ [a])) (total_mass mt (p ++ [a]))
    (length (p ++ [a]))
  ≡ₚ cyclic_masses (prefix_sum mt (a :: p)) (total_mass mt (a :: p))
       (length (a :: p)).
Proof.
  rewrite (cyclic_masses_ext _ _ _ _ (prefix_sum_prefix_total mt (p ++ [a]))).
  rewrite (cyclic_masses_ext _ _ _ _ (prefix_sum_prefix_total mt (a :: p))).
  pose proof (cyclic_masses_windows (mass_of mt <$> p ++ [a])) as H1.
  pose proof (cyclic_masses_windows (mass_of mt <$> a :: p)) as H2.
  rewrite length_fmap in H1, H2. unfold total_mass.
  rewrite H1, H2 by (rewrite ?length_app; simpl; lia).
  rewrite <- (length_fmap (mass_of mt) (p ++ [a])).
  rewrite <- (length_fmap (mass_of mt) (a :: p)).
  rewrite fmap_app, !fmap_cons, fmap_nil.
  rewrite (windows_rotate (mass_of mt a) (mass_of mt <$> p)).
  rewrite total_app, total_cons, total_cons, total_nil.
  replace (total (mass_of mt <$> p) + (mass_of mt a + 0))
    with (mass_of mt a + total (mass_of mt <$> p)) by lia.
  done.
Qed.

(** X17. For a non-empty peptide whose symbols are all in the mass table,
    [cyclic_spectrum] returns, in ascending order, 0, the mass of the
    peptide, and for every start position and every length from 1 to
    [len(peptide) - 1] the mass of the piece of that length read from that
    position around the cycle; nothing else. *)
Theorem cyclic_spectrum_subpeptides mt (p : Peptide) :
  dict_wf mt → covered mt p → p ≠ [] →
  cyclic_spectrum p mt = Ok (sorted (cyclic_subpeptide_masses mt p)).
Proof.
  intros Hwf Hcov Hp. rewrite cyclic_spectrum_covered by done.
  f_equal. by apply sorted_Permutation_eq, cyclic_masses_subpeptides.
Qed.

Lemma cyclic_spectrum_subpeptides_witness :
  cyclic_spectrum (pep "ACA") table_AC
  = Ok (sorted (cyclic_subpeptide_masses table_AC (pep "ACA"))).
Proof.
  apply cyclic_spectrum_subpeptides; [table_facts..|done].
Defined.

Lemma cyclic_spectrum_rotate_one mt (a : ascii) (p : Peptide) :
  dict_wf mt → covered mt (a :: p) →
  cyclic_spectrum (a :: p) mt = cyclic_spectrum (p ++ [a]) mt.
Proof.
  intros Hwf Hcov.
  assert (covered mt (p ++ [a])) as Hcov'.
  { unfold covered in *. apply Forall_app. inversion Hcov; subst.
    split; [done|]. by apply Forall_singleton. }
  rewrite !cyclic_spectrum_covered by done.
  f_equal. symmetry. apply sorted_Permutation_eq, cyclic_masses_rotate.
Qed.

(** X18. [cyclic_spectrum] does not depend on where the cycle is cut: for a
    peptide over the table's symbols, reading it from any other position
    ([q ++ p] instead of [p ++ q]) gives the same spectrum. *)
Theorem cyclic_spectrum_rotation mt (p q : Peptide) :
  dict_wf mt → covered mt (p ++ q) →
  cyclic_spectrum (p ++ q) mt = cyclic_spectrum (q ++ p) mt.
Proof.
  intros Hwf. revert q. induction p as [|a p IH]; intros q Hcov.
  - by rewrite app_nil_r.
  - cbn [app] in *. rewrite cyclic_spectrum_rotate_one by done.
    rewrite <- app_assoc. rewrite IH.
    + by rewrite <- app_assoc.
    + unfold covered in *. inversion Hcov as [|?? Ha Hpq]; subst.
      apply Forall_app in Hpq as [Hp Hq]. rewrite !Forall_app.
      repeat split; try done. by apply Forall_singleton.
Qed.

Lemma cyclic_spectrum_rotation_witness :
  cyclic_spectrum (pep "AC" ++ pep "A") table_AC
  = cyclic_spectrum (pep "A" ++ pep "AC") table_AC.
Proof.
  apply cyclic_spectrum_rotation; table_facts.
Defined.

Lemma subpeptide_mass (mt : mass_table) (p : Peptide) (i j : nat) :
  (i ≤ j)%nat →
  total_mass mt (subpeptide p i j) = prefix_sum mt p j - prefix_sum mt p i.
Proof.
  intros Hij. rewrite !prefix_sum_prefix_total.
  replace j with (i + (j - i))%nat at 2 by lia.
  rewrite prefix_total_split. unfold subpeptide, total_mass.
  rewrite fmap_take, fmap_drop. lia.
Qed.

Lemma linear_masses_subpeptides (mt : mass_table) (p : Peptide) :
  linear_masses (prefix_sum mt p) (length p) = subpeptide_masses mt p.
Proof.
  unfold linear_masses, subpeptide_masses. f_equal.
  apply (f_equal (@concat Z)), list_fmap_ext. intros _ i _.
  unfold linear_fragments. apply list_fmap_ext.
  intros k j Hj%list_elem_of_lookup_2%elem_of_py_range.
  rewrite subpeptide_mass; [done|lia].
Qed.

(** X19. For a peptide whose symbols are all in the mass table,
    [linear_spectrum] returns, in ascending order, 0 and the mass of every
    contiguous piece [peptide[i:j]] with [0 <= i < j <= len(peptide)], each
    pair of cut points counted once. *)
Theorem linear_spectrum_subpeptides mt (p : Peptide) :
  dict_wf mt → covered mt p →
  linear_spectrum p mt = Ok (sorted (subpeptide_masses mt p)).
Proof.
  intros Hwf Hcov. rewrite linear_spectrum_covered by done.
  by rewrite linear_masses_subpeptides.
Qed.

Lemma linear_spectrum_subpeptides_witness :
  linear_spectrum (pep "ACA") table_AC
  = Ok (sorted (subpeptide_masses table_AC (pep "ACA"))).
Proof. apply linear_spectrum_subpeptides; table_facts. Defined.

(** Reading an interval of indices downwards from [N]. *)
Lemma concat_fmap_reflect {B} (F : nat → list B) (N a m : nat) :
  (a + m ≤ N + 1)%nat →
  concat ((λ j, F (N - j)%nat) <$> seq a m)
  ≡ₚ concat (F <$> seq (N + 1 - a - m) m).
Proof.
  revert a. induction m as [|m IH]; intros a Ham; [done|].
  rewrite (seq_S m (N + 1 - a - S m)). cbn [seq].
  rewrite fmap_cons, fmap_app, concat_cons, concat_app, list_fmap_singleton.
  rewrite concat_cons, concat_nil, app_nil_r, IH by lia.
  replace (N + 1 - a - S m + m)%nat with (N - a)%nat by lia.
  replace (N + 1 - S a - m)%nat with (N + 1 - a - S m)%nat by lia.
  apply Permutation_app_comm.
Qed.

Lemma fmap_reflect {B} (f : nat → B) (N a m : nat) :
  (a + m ≤ N + 1)%nat →
  (λ j, f (N - j)%nat) <$> seq a m ≡ₚ f <$> seq (N + 1 - a - m) m.
Proof.
  intros H. rewrite <- (concat_singletons (λ j, f (N - j)%nat)).
  rewrite <- (concat_singletons f).
  by apply (concat_fmap_reflect (λ k, [f k])).
Qed.

Lemma total_reverse (l : list Z) : total (reverse l) = total l.
Proof.
  induction l as [|x l IH]; [done|].
  rewrite reverse_cons, total_app, total_cons, total_cons, total_nil, IH. lia.
Qed.

Lemma prefix_total_reverse (ms : list Z) (k : nat) :
  (k ≤ length ms)%nat →
  prefix_total (reverse ms) k
  = total ms - prefix_total ms (length ms - k).
Proof.
  intros Hk. unfold prefix_total. rewrite take_reverse, total_reverse.
  rewrite <- (take_drop (length ms - k) ms) at 3. rewrite total_app. lia.
Qed.

(** The differences of prefix masses, grouped by their upper end. *)
Lemma linear_masses_by_end (P : nat → Z) (n : nat) :
  linear_masses P n
  ≡ₚ 0 :: concat ((λ j, (λ i, P j - P i) <$> seq 0 j) <$> seq 1 n).
Proof.
  unfold linear_masses, py_range. apply Permutation_skip.
  rewrite Nat.sub_0_r.
  transitivity
    (concat ((λ i, (λ j, P j - P i) <$> seq (i + 1) (0 + (n + 1) - (i + 1)))
               <$> seq 0 (n + 1))).
  - replace (seq 0 (n + 1)) with (seq 0 n ++ [n])
      by (by rewrite Nat.add_1_r, seq_S).
    rewrite fmap_app, concat_app.
    rewrite list_fmap_singleton, concat_cons, concat_nil, app_nil_r.
    replace (0 + (n + 1) - (n + 1))%nat with 0%nat by lia.
    cbn [seq]. rewrite fmap_nil, app_nil_r.
    apply concat_fmap_Permutation. intros i _. unfold linear_fragments, py_range.
    by replace (0 + (n + 1) - (i + 1))%nat with (n + 1 - (i + 1))%nat by lia.
  - rewrite (triangle_transpose (λ i j, P j - P i) 0 (n + 1)).
    rewrite (seq_head 0 (n + 1)) by lia.
    rewrite fmap_cons, concat_cons. cbn [seq Nat.sub]. rewrite fmap_nil.
    cbn [app]. replace (n + 1 - 1)%nat with n by lia.
    apply concat_fmap_Permutation. intros j _.
    by rewrite Nat.sub_0_r.
Qed.

Lemma linear_masses_reverse (ms : list Z) :
  linear_masses (prefix_total (reverse ms)) (length ms)
  ≡ₚ linear_masses (prefix_total ms) (length ms).
Proof.
  rewrite (linear_masses_by_end (prefix_total ms)).
  unfold linear_masses, py_range. apply Permutation_skip.
  rewrite Nat.sub_0_r.
  transitivity
    (concat ((λ j, (λ k, (λ i, prefix_total ms k - prefix_total ms i)
                           <$> seq 0 k) (length ms - j)%nat)
               <$> seq 0 (length ms))).
  - apply concat_fmap_Permutation. intros i [_ Hi]%elem_of_seq.
    unfold linear_fragments, py_range.
    replace (length ms + 1 - (i + 1))%nat with (length ms - i)%nat by lia.
    rewrite (list_fmap_ext
      (λ j, prefix_total (reverse ms) j - prefix_total (reverse ms) i)
      (λ j, (λ k, prefix_total ms (length ms - i) - prefix_total ms k)
              (length ms - j)%nat)).
    + rewrite (fmap_reflect
        (λ k, prefix_total ms (length ms - i) - prefix_total ms k)
        (length ms) (i + 1) (length ms - i)) by lia.
      by replace (length ms + 1 - (i + 1) - (length ms - i))%nat with 0%nat
        by lia.
    + intros k j Hj%lookup_seq. rewrite !prefix_total_reverse by lia. lia.
  - rewrite (concat_fmap_reflect
      (λ k, (λ i, prefix_total ms k - prefix_total ms i) <$> seq 0 k)
      (length ms) 0 (length ms)) by lia.
    by replace (length ms + 1 - 0 - length ms)%nat with 1%nat by lia.
Qed.

(** X20. A peptide over the table's symbols and the same peptide read
    backwards have the same linear spectrum. *)
Theorem linear_spectrum_reverse mt (p : Peptide) :
  dict_wf mt → covered mt p →
  linear_spectrum (reverse p) mt = linear_spectrum p mt.
Proof.
  intros Hwf Hcov.
  assert (covered mt (reverse p)) as Hcov'
    by (unfold covered in *; by rewrite Forall_reverse).
  rewrite !linear_spectrum_covered by done. f_equal.
  apply sorted_Permutation_eq.
  rewrite (linear_masses_ext _ _ _ (prefix_sum_prefix_total mt (reverse p))).
  rewrite (linear_masses_ext _ _ _ (prefix_sum_prefix_total mt p)).
  rewrite fmap_reverse, length_reverse.
  rewrite <- (length_fmap (mass_of mt) p).
  apply linear_masses_reverse.
Qed.

Lemma linear_spectrum_reverse_witness :
  linear_spectrum (reverse (pep "AAC")) table_AC
  = linear_spectrum (pep "AAC") table_AC.
Proof. apply linear_spectrum_reverse; table_facts. Defined.
